(** * Statespace determination for sensor fusion (us_fusion.py)

    A shallow embedding of [src/utils/us_fusion.py] together with the two
    tables it reads ([src/utils/geo/locations.py] and
    [src/utils/geo/populations.py]), and the properties of the weight rows,
    of the exact-rational elimination and of the statespace determination.

    Python values are modelled as follows.
    - [Fraction] is [Qc], the rationals in lowest terms: Python keeps every
      [Fraction] normalised, so [==] on fractions is Leibniz equality on [Qc].
    - A Python [float] read from the population table is a primitive binary64
      float; a [float] obtained from a [Fraction] is represented by the exact
      rational value of the double (the sign of a zero is not kept).
    - A raised exception is the [Raise] case of [result].
    - A [dict] is a [gmap]; a numpy array is [ndarray] below. *)

From Stdlib Require Import ZArith QArith Qcanon Qcabs Floats Lia.
From stdpp Require Import base option list gmap strings numbers pretty sorting.

Local Open Scope Z_scope.

(** ** Exceptions *)

Inductive exn : Type :=
  | Exception (msg : string)   (* raise Exception(...) in the source *)
  | KeyError (key : string)    (* dict lookup of a missing key *)
  | SeasonKeyError (key : Z)   (* population_weights[season], missing year *)
  | ValueError                 (* shape unpacking, stacking arrays of mixed rank *)
  | IndexError                 (* too many indices for a 1-D array *)
  | AxisError                  (* np.sum(axis=1) on a 1-D array *)
  | OverflowError.             (* int / int too large for a float *)

Inductive result (A : Type) : Type :=
  | Return (a : A)
  | Raise (e : exn).
Arguments Return {A} a.
Arguments Raise {A} e.

Definition bind {A B} (m : result A) (k : A -> result B) : result B :=
  match m with
  | Return a => k a
  | Raise e => Raise e
  end.

(** [let* x := m in k]: run [m]; an exception ends the computation, a value
    is bound to [x] in [k]. *)
Notation "'let*' x ':=' m 'in' k" := (bind m (fun x => k))
  (at level 10, x pattern, m at level 100, k at level 200).

(** [[f(x) for x in l]] where [f] may raise: the first exception wins. *)
Fixpoint mapM {A B} (f : A -> result B) (l : list A) : result (list B) :=
  match l with
  | [] => Return []
  | x :: l' => let* y := f x in let* ys := mapM f l' in Return (y :: ys)
  end.

(** ** Fractions and their conversion to float *)

Definition Z2Qc (z : Z) : Qc := Q2Qc (inject_Z z).

(** [Fraction(n, d)] for integers [n] and [d <> 0]. *)
Definition Fraction (n d : Z) : Qc := (Z2Qc n / Z2Qc d)%Qc.

(** [x != 0] on a Fraction. *)
Definition nonzero (x : Qc) : bool := negb (Qnum (this x) =? 0).

Module Float64.

(** [n / d] rounded to the nearest integer, ties to even; [0 <= n], [0 < d]. *)
Definition round_half_even (n d : Z) : Z :=
  let q := n / d in
  match 2 * (n mod d) ?= d with
  | Lt => q
  | Gt => q + 1
  | Eq => if Z.even q then q else q + 1
  end.

(** [floor (log2 (a / d))] for [0 < a], [0 < d]. *)
Definition floor_log2 (a d : Z) : Z :=
  let e0 := Z.log2 a - Z.log2 d in
  if d * 2 ^ Z.max 0 e0 <=? a * 2 ^ Z.max 0 (- e0) then e0 else e0 - 1.

(** [float(Fraction)] is [numerator / denominator] with Python's true
    division of integers: the nearest binary64 value, ties to even, gradual
    underflow down to zero, and [OverflowError] beyond the largest double.
    The result is the exact value of that double. *)
Definition of_ratio (n : Z) (d : positive) : result Qc :=
  if n =? 0 then Return 0%Qc else
  let a := Z.abs n in
  let t := Z.max (floor_log2 a (Z.pos d) - 52) (-1074) in
  let m := round_half_even (a * 2 ^ Z.max 0 (- t)) (Z.pos d * 2 ^ Z.max 0 t) in
  if 2 ^ 1024 <=? m * 2 ^ Z.max 0 t then Raise OverflowError
  else
    let v := Fraction (m * 2 ^ Z.max 0 t) (2 ^ Z.max 0 (- t)) in
    Return (if n <? 0 then (- v)%Qc else v).

Definition of_Fraction (x : Qc) : result Qc :=
  of_ratio (Qnum (this x)) (Qden (this x)).

End Float64.

(** [np.argmax(values)]: the index of the first occurrence of the maximum
    (0 on the empty list, where numpy raises; the callers never pass one). *)
Fixpoint argmax_from (best : Qc) (besti i : nat) (l : list Qc) : nat :=
  match l with
  | [] => besti
  | x :: l' =>
      if Qclt_le_dec best x then argmax_from x i (S i) l'
      else argmax_from best besti (S i) l'
  end.

Definition argmax (l : list Qc) : nat :=
  match l with
  | [] => 0%nat
  | x :: l' => argmax_from x 0 1 l'
  end.

(** ** Dictionaries *)

(** [dict(pairs)]: pairs are inserted left to right, a later pair wins. *)
Definition dict `{Countable K} {V} (pairs : list (K * V)) : gmap K V :=
  fold_left (fun m kv => <[kv.1 := kv.2]> m) pairs ∅.

(** [d.update(other)]: the entries of [other] override those of [d]. *)
Definition update `{Countable K} {V} (d other : gmap K V) : gmap K V :=
  other ∪ d.

(** [d[k]] on a dictionary with string keys. *)
Definition getitem {V} (d : gmap string V) (k : string) : result V :=
  match d !! k with
  | Some v => Return v
  | None => Raise (KeyError k)
  end.

(** ** locations.py: the hierarchy of US political divisions *)

Module Locations.

Definition atom_list : list string :=
  [ "ak"; "al"; "ar"; "az"; "ca"; "co"; "ct"; "de"; "fl"; "ga"; "hi"; "ia";
    "id"; "il"; "in"; "ks"; "ky"; "la"; "ma"; "md"; "me"; "mi"; "mn"; "mo";
    "ms"; "mt"; "nc"; "nd"; "ne"; "nh"; "nj"; "nm"; "nv"; "oh"; "ok"; "or";
    "pa"; "ri"; "sc"; "sd"; "tn"; "tx"; "ut"; "va"; "vt"; "wa"; "wi"; "wv";
    "wy";
    "ny_minus_jfk";
    "dc"; "pr"; "vi";
    "jfk" ].
Definition atom_map : gmap string (list string) :=
  dict ((fun a => (a, [a])) <$> atom_list).

Definition nat_list : list string := ["nat"].
Definition nat_map : gmap string (list string) :=
  dict (zip nat_list [atom_list]).

(** ['hhs%d' % i for i in range(1, 11)] *)
Definition hhs_list : list string :=
  (fun i => "hhs" +:+ pretty i) <$> seq 1 10.
Definition hhs_map : gmap string (list string) :=
  dict (zip hhs_list [
    ["ct"; "ma"; "me"; "nh"; "ri"; "vt"];
    ["jfk"; "nj"; "ny_minus_jfk"; "pr"; "vi"];
    ["dc"; "de"; "md"; "pa"; "va"; "wv"];
    ["al"; "fl"; "ga"; "ky"; "ms"; "nc"; "sc"; "tn"];
    ["il"; "in"; "mi"; "mn"; "oh"; "wi"];
    ["ar"; "la"; "nm"; "ok"; "tx"];
    ["ia"; "ks"; "mo"; "ne"];
    ["co"; "mt"; "nd"; "sd"; "ut"; "wy"];
    ["az"; "ca"; "hi"; "nv"];
    ["ak"; "id"; "or"; "wa"] ]).

(** ['cen%d' % i for i in range(1, 10)] *)
Definition cen_list : list string :=
  (fun i => "cen" +:+ pretty i) <$> seq 1 9.
Definition cen_map : gmap string (list string) :=
  dict (zip cen_list [
    ["ct"; "ma"; "me"; "nh"; "ri"; "vt"];
    ["jfk"; "nj"; "ny_minus_jfk"; "pa"; "pr"; "vi"];
    ["il"; "in"; "mi"; "oh"; "wi"];
    ["ia"; "ks"; "mn"; "mo"; "nd"; "ne"; "sd"];
    ["dc"; "de"; "fl"; "ga"; "md"; "nc"; "sc"; "va"; "wv"];
    ["al"; "ky"; "ms"; "tn"];
    ["ar"; "la"; "ok"; "tx"];
    ["az"; "co"; "id"; "mt"; "nm"; "nv"; "ut"; "wy"];
    ["ak"; "ca"; "hi"; "or"; "wa"] ]).

Definition ny_state_list : list string := ["ny"].
Definition ny_state_map : gmap string (list string) :=
  dict [("ny", ["jfk"; "ny_minus_jfk"])].

Definition region_list : list string :=
  nat_list ++ hhs_list ++ cen_list ++ ny_state_list ++ atom_list.
Definition region_map : gmap string (list string) :=
  update (update (update (update (update ∅ nat_map) hhs_map) cen_map)
            ny_state_map) atom_map.

End Locations.

(** ** populations.py: imputed state-level population weights *)

Module populations.

Set Warnings "-inexact-float".

(** The table of the source, year by year, entries in source order. Each
    decimal literal denotes the nearest binary64 value, as in Python. *)
Definition population_weights : gmap Z (gmap string float) :=
  dict [
    (2010, (dict [
      ("ak", 0.00227518); ("al", 0.01533745); ("ar", 0.00941176);
      ("az", 0.02148400); ("ca", 0.12039274); ("co", 0.01636543);
      ("ct", 0.01146016); ("dc", 0.00195314); ("de", 0.00288299);
      ("fl", 0.06038341); ("ga", 0.03201648); ("hi", 0.00421877);
      ("ia", 0.00979696); ("id", 0.00503527); ("il", 0.04205408);
      ("in", 0.02092240); ("jfk", 0.02733469); ("ks", 0.00918118);
      ("ky", 0.01405184); ("la", 0.01463192); ("ma", 0.02147752);
      ("md", 0.01856371); ("me", 0.00429419); ("mi", 0.03247482);
      ("mn", 0.01715415); ("mo", 0.01950239); ("ms", 0.00961546);
      ("mt", 0.00317556); ("nc", 0.03055618); ("nd", 0.00210670);
      ("ne", 0.00585185); ("nh", 0.00431464); ("nj", 0.02836354);
      ("nm", 0.00654612); ("nv", 0.00860921); ("ny_minus_jfk", 0.03631738);
      ("oh", 0.03759897); ("ok", 0.01200984); ("or", 0.01246166);
      ("pa", 0.04105459); ("ri", 0.00343073); ("sc", 0.01485699);
      ("sd", 0.00264588); ("tn", 0.02050899); ("tx", 0.08072283);
      ("ut", 0.00906917); ("va", 0.02567430); ("vt", 0.00202532);
      ("wa", 0.02170791); ("wi", 0.01841977); ("wv", 0.00592713);
      ("wy", 0.00177260) ])%float);
    (2011, (dict [
      ("ak", 0.00229505); ("al", 0.01547462); ("ar", 0.00943623);
      ("az", 0.02070624); ("ca", 0.12068005); ("co", 0.01632952);
      ("ct", 0.01153898); ("dc", 0.00195012); ("de", 0.00291042);
      ("fl", 0.06087038); ("ga", 0.03136422); ("hi", 0.00440658);
      ("ia", 0.00987440); ("id", 0.00506529); ("il", 0.04159759);
      ("in", 0.02102140); ("jfk", 0.02639945); ("ks", 0.00924801);
      ("ky", 0.01404776); ("la", 0.01467032); ("ma", 0.02113917);
      ("md", 0.01871206); ("me", 0.00428860); ("mi", 0.03204299);
      ("mn", 0.01719550); ("mo", 0.01941239); ("ms", 0.00960674);
      ("mt", 0.00321277); ("nc", 0.03087160); ("nd", 0.00218381);
      ("ne", 0.00591985); ("nh", 0.00425016); ("nj", 0.02839098);
      ("nm", 0.00666356); ("nv", 0.00874816); ("ny_minus_jfk", 0.03617721);
      ("oh", 0.03740244); ("ok", 0.01213960); ("or", 0.01237936);
      ("pa", 0.04116837); ("ri", 0.00339827); ("sc", 0.01497568);
      ("sd", 0.00264368); ("tn", 0.02054620); ("tx", 0.08137335);
      ("ut", 0.00897433); ("va", 0.02593179); ("vi", 0.00034350);
      ("vt", 0.00202018); ("wa", 0.02172891); ("wi", 0.01843688);
      ("wv", 0.00600521); ("wy", 0.00183008) ])%float);
    (2012, (dict [
      ("ak", 0.00231819); ("al", 0.01540851); ("ar", 0.00942543);
      ("az", 0.02079732); ("ca", 0.12092341); ("co", 0.01641994);
      ("ct", 0.01148834); ("dc", 0.00198275); ("de", 0.00291038);
      ("fl", 0.06114108); ("ga", 0.03148930); ("hi", 0.00441076);
      ("ia", 0.00982549); ("id", 0.00508404); ("il", 0.04128530);
      ("in", 0.02090667); ("jfk", 0.02644989); ("ks", 0.00921252);
      ("ky", 0.01401796); ("la", 0.01467680); ("ma", 0.02113535);
      ("md", 0.01869878); ("me", 0.00426125); ("mi", 0.03168319);
      ("mn", 0.01714633); ("mo", 0.01928559); ("ms", 0.00955571);
      ("mt", 0.00320334); ("nc", 0.03098006); ("nd", 0.00219478);
      ("ne", 0.00591215); ("nh", 0.00422915); ("nj", 0.02829857);
      ("nm", 0.00668008); ("nv", 0.00873694); ("ny_minus_jfk", 0.03599504);
      ("oh", 0.03703687); ("ok", 0.01216368); ("or", 0.01241930);
      ("pa", 0.04088358); ("ri", 0.00337286); ("sc", 0.01501189);
      ("sd", 0.00264458); ("tn", 0.02054316); ("tx", 0.08236755);
      ("ut", 0.00904064); ("va", 0.02597622); ("vi", 0.00035180);
      ("vt", 0.00200973); ("wa", 0.02190810); ("wi", 0.01832391);
      ("wv", 0.00595245); ("wy", 0.00182329) ])%float);
    (2013, (dict [
      ("ak", 0.00230241); ("al", 0.01517830); ("ar", 0.00928298);
      ("az", 0.02062798); ("ca", 0.11974465); ("co", 0.01633128);
      ("ct", 0.01130065); ("dc", 0.00199037); ("de", 0.00288681);
      ("fl", 0.06080683); ("ga", 0.03122503); ("hi", 0.00438272);
      ("ia", 0.00967646); ("id", 0.00502290); ("il", 0.04052832);
      ("in", 0.02057813); ("jfk", 0.02624223); ("ks", 0.00908388);
      ("ky", 0.01378813); ("la", 0.01448562); ("ma", 0.02091874);
      ("md", 0.01852285); ("me", 0.00418369); ("mi", 0.03111046);
      ("mn", 0.01693229); ("mo", 0.01895510); ("ms", 0.00939586);
      ("mt", 0.00316437); ("nc", 0.03069718); ("nd", 0.00220253);
      ("ne", 0.00584064); ("nh", 0.00415701); ("nj", 0.02790382);
      ("nm", 0.00656480); ("nv", 0.00868439); ("ny_minus_jfk", 0.03536077);
      ("oh", 0.03633856); ("ok", 0.01200804); ("or", 0.01227398);
      ("pa", 0.04017603); ("pr", 0.01154317); ("ri", 0.00330567);
      ("sc", 0.01486956); ("sd", 0.00262349); ("tn", 0.02032259);
      ("tx", 0.08202735); ("ut", 0.00898886); ("va", 0.02576680);
      ("vi", 0.00033496); ("vt", 0.00197035); ("wa", 0.02170973);
      ("wi", 0.01802582); ("wv", 0.00584026); ("wy", 0.00181457) ])%float);
    (2014, (dict [
      ("ak", 0.00229826); ("al", 0.01511231); ("ar", 0.00925232);
      ("az", 0.02071714); ("ca", 0.11984244); ("co", 0.01647139);
      ("ct", 0.01124367); ("dc", 0.00202117); ("de", 0.00289444);
      ("fl", 0.06113065); ("ga", 0.03123955); ("hi", 0.00438962);
      ("ia", 0.00966159); ("id", 0.00504010); ("il", 0.04027598);
      ("in", 0.02054438); ("jfk", 0.02628095); ("ks", 0.00904742);
      ("ky", 0.01374139); ("la", 0.01446115); ("ma", 0.02092603);
      ("md", 0.01853664); ("me", 0.00415316); ("mi", 0.03093930);
      ("mn", 0.01694700); ("mo", 0.01889603); ("ms", 0.00935160);
      ("mt", 0.00317376); ("nc", 0.03078912); ("nd", 0.00226162);
      ("ne", 0.00584164); ("nh", 0.00413793); ("nj", 0.02782429);
      ("nm", 0.00651961); ("nv", 0.00872335); ("ny_minus_jfk", 0.03515874);
      ("oh", 0.03617563); ("ok", 0.01203859); ("or", 0.01228678);
      ("pa", 0.03993758); ("pr", 0.01130270); ("ri", 0.00328770);
      ("sc", 0.01492810); ("sd", 0.00264159); ("tn", 0.02030914);
      ("tx", 0.08268967); ("ut", 0.00906940); ("va", 0.02582641);
      ("vi", 0.00033273); ("vt", 0.00195921); ("wa", 0.02179514);
      ("wi", 0.01795467); ("wv", 0.00579754); ("wy", 0.00182168) ])%float);
    (2015, (dict [
      ("ak", 0.00222549); ("al", 0.01465046); ("ar", 0.00896152);
      ("az", 0.02033757); ("ca", 0.11723059); ("co", 0.01617926);
      ("ct", 0.01086707); ("dc", 0.00199051); ("de", 0.00282642);
      ("fl", 0.06009969); ("ga", 0.03050535); ("hi", 0.00428888);
      ("ia", 0.00938773); ("id", 0.00493738); ("il", 0.03891432);
      ("in", 0.01993020); ("jfk", 0.02565219); ("ks", 0.00877424);
      ("ky", 0.01333317); ("la", 0.01404697); ("ma", 0.02038083);
      ("md", 0.01805455); ("me", 0.00401881); ("mi", 0.02993998);
      ("mn", 0.01648714); ("mo", 0.01832052); ("ms", 0.00904533);
      ("mt", 0.00309194); ("nc", 0.03004141); ("nd", 0.00223386);
      ("ne", 0.00568488); ("nh", 0.00400892); ("nj", 0.02700323);
      ("nm", 0.00630083); ("nv", 0.00857763); ("ny_minus_jfk", 0.05965562);
      ("oh", 0.03502746); ("ok", 0.01171597); ("or", 0.01199323);
      ("pa", 0.03862992); ("pr", 0.01072014); ("ri", 0.00318804);
      ("sc", 0.01459964); ("sd", 0.00257716); ("tn", 0.01978616);
      ("tx", 0.08143924); ("ut", 0.00888997); ("va", 0.02515309);
      ("vi", 0.00032150); ("vt", 0.00189317); ("wa", 0.02133134);
      ("wi", 0.01739496); ("wv", 0.00558998); ("wy", 0.00176455) ])%float);
    (2016, (dict [
      ("ak", 0.00227206); ("al", 0.01495049); ("ar", 0.00916311);
      ("az", 0.02100899); ("ca", 0.12044360); ("co", 0.01679052);
      ("ct", 0.01104830); ("dc", 0.00206836); ("de", 0.00291047);
      ("fl", 0.06237330); ("ga", 0.03143072); ("hi", 0.00440484);
      ("ia", 0.00961212); ("id", 0.00509207); ("il", 0.03957187);
      ("in", 0.02036971); ("jfk", 0.02630960); ("ks", 0.00895905);
      ("ky", 0.01361560); ("la", 0.01437120); ("ma", 0.02090476);
      ("md", 0.01848052); ("me", 0.00409015); ("mi", 0.03053260);
      ("mn", 0.01689232); ("mo", 0.01871922); ("ms", 0.00920701);
      ("mt", 0.00317852); ("nc", 0.03090132); ("nd", 0.00232914);
      ("ne", 0.00583455); ("nh", 0.00409392); ("nj", 0.02756388);
      ("nm", 0.00641636); ("nv", 0.00889466); ("ny_minus_jfk", 0.03460203);
      ("oh", 0.03573599); ("ok", 0.01203489); ("or", 0.01239663);
      ("pa", 0.03939073); ("pr", 0.01069004); ("ri", 0.00324996);
      ("sc", 0.01506526); ("sd", 0.00264163); ("tn", 0.02030874);
      ("tx", 0.08452051); ("ut", 0.00921879); ("va", 0.02579260);
      ("vi", 0.00032227); ("vt", 0.00192612); ("wa", 0.02206222);
      ("wi", 0.01775927); ("wv", 0.00567395); ("wy", 0.00180349) ])%float);
    (2017, (dict [
      ("ak", 0.00226985); ("al", 0.01488923); ("ar", 0.00914813);
      ("az", 0.02121906); ("ca", 0.12016114); ("co", 0.01697014);
      ("ct", 0.01094766); ("dc", 0.00208648); ("de", 0.00291668);
      ("fl", 0.06310502); ("ga", 0.03156409); ("hi", 0.00437360);
      ("ia", 0.00959975); ("id", 0.00514951); ("il", 0.03919113);
      ("in", 0.02030593); ("jfk", 0.02613827); ("ks", 0.00890329);
      ("ky", 0.01358380); ("la", 0.01433368); ("ma", 0.02085150);
      ("md", 0.01842029); ("me", 0.00407546); ("mi", 0.03039408);
      ("mn", 0.01689905); ("mo", 0.01865930); ("ms", 0.00914998);
      ("mt", 0.00319311); ("nc", 0.03106493); ("nd", 0.00232165);
      ("ne", 0.00584048); ("nh", 0.00408617); ("nj", 0.02738362);
      ("nm", 0.00637229); ("nv", 0.00900122); ("ny_minus_jfk", 0.03431267);
      ("oh", 0.03555613); ("ok", 0.01200884); ("or", 0.01252378);
      ("pa", 0.03913594); ("pr", 0.01044379); ("ri", 0.00323374);
      ("sc", 0.01518871); ("sd", 0.00265086); ("tn", 0.02036199);
      ("tx", 0.08529818); ("ut", 0.00934570); ("va", 0.02575484);
      ("vi", 0.00031504); ("vt", 0.00191183); ("wa", 0.02229756);
      ("wi", 0.01769118); ("wv", 0.00560636); ("wy", 0.00179330) ])%float) ].

Set Warnings "inexact-float".

(** [min(population_weights)] and [max(population_weights)]: the least and
    the greatest key. *)
Definition seasons : list Z := (map_to_list population_weights).*1.
Definition first_season : Z := foldr Z.min (default 0 (head seasons)) seasons.
Definition last_season : Z := foldr Z.max (default 0 (head seasons)) seasons.

Definition get_population_weight (location : string) (season : Z)
  : result float :=
  let season := Z.max (Z.min season last_season) first_season in
  match population_weights !! season with
  | None => Raise (SeasonKeyError season)
  | Some weights => getitem weights location
  end.

(** [round(x)] on a float: the nearest integer, ties to even. *)
Definition round (x : float) : result Z :=
  match Prim2SF x with
  | SpecFloat.S754_zero _ => Return 0
  | SpecFloat.S754_finite s m e =>
      let a := if 0 <=? e then Z.pos m * 2 ^ e
               else Float64.round_half_even (Z.pos m) (2 ^ (- e)) in
      Return (if s then - a else a)
  | SpecFloat.S754_infinity _ => Raise OverflowError
  | SpecFloat.S754_nan => Raise ValueError
  end.

(** [season], when given, replaces the default [last_season]. *)
Definition get_population (location : string) (season : option Z)
  : result Z :=
  let* w := get_population_weight location (default last_season season) in
  round (w * 3.25e8)%float.

End populations.

(** ** numpy arrays of Fractions *)

#[global] Instance Qc_inhabited : Inhabited Qc := populate 0%Qc.

(** The arrays of the source are two-dimensional, [Array2 num_c rows] of shape
    [(length rows, num_c)], except that [np.array([])] of no rows at all is
    the one-dimensional empty array. *)
Inductive ndarray : Type :=
  | Array1
  | Array2 (num_c : nat) (rows : list (list Qc)).

Definition np_array (vals : list (list Qc)) : ndarray :=
  match vals with
  | [] => Array1
  | row :: _ => Array2 (length row) vals
  end.

(** Every row of a two-dimensional array has [num_c] entries. *)
Definition rectangular (num_c : nat) (rows : list (list Qc)) : Prop :=
  Forall (fun row => length row = num_c) rows.

Definition entry (X : list (list Qc)) (i j : nat) : Qc := (X !!! i) !!! j.

(** [X[:, j]] and [X.T] *)
Definition column (j : nat) (X : list (list Qc)) : list Qc :=
  (fun row => row !!! j) <$> X.
Definition transpose (num_c : nat) (X : list (list Qc)) : list (list Qc) :=
  (fun j => column j X) <$> seq 0 num_c.

(** [np.sum(np.abs(row))] *)
Definition sum_abs (row : list Qc) : Qc :=
  foldl Qcplus 0%Qc (Qcabs <$> row).

(** [fractions(np.zeros((n, m)))] and [fractions(np.eye(n))] *)
Definition zeros (n m : nat) : list (list Qc) := replicate n (replicate m 0%Qc).
Definition eye (n : nat) : list (list Qc) :=
  (fun i => (fun j => if decide (i = j) then 1%Qc else 0%Qc) <$> seq 0 n)
    <$> seq 0 n.

(** [X.astype(np.float)], where [np.float] is the builtin [float]: every
    Fraction goes through [float]. *)
Definition astype_float (X : ndarray) : result ndarray :=
  match X with
  | Array1 => Return Array1
  | Array2 num_c rows =>
      let* rows' := mapM (mapM Float64.of_Fraction) rows in
      Return (Array2 num_c rows')
  end.

(** ** us_fusion.py *)

Section WithTables.

(** The tables [Locations.region_map], [Locations.region_list] and
    [Locations.atom_list], and the function [get_population] imported from
    populations.py ([None] for a call that leaves the season out). *)
Context (region_map : gmap string (list string))
        (region_list atom_list : list string)
        (get_population : string -> option Z -> result Z).

(** [if season:] holds for an integer other than 0; [None] is false. *)
Definition truthy (season : option Z) : bool :=
  match season with
  | Some s => negb (s =? 0)
  | None => false
  end.

(** One turn of the loop over [atoms]. *)
Definition weigh_atom (location : string) (season : option Z)
    (acc : Z * list Z) (atom : string) : result (Z * list Z) :=
  let '(total_population, atom_populations) := acc in
  let* members := getitem region_map location in
  let* population :=
    (if bool_decide (atom ∈ members) then
       if truthy season then get_population atom season
       else get_population atom None
     else Return 0) in
  Return (total_population + population, atom_populations ++ [population]).

Fixpoint foldM {A B} (f : A -> B -> result A) (acc : A) (l : list B)
  : result A :=
  match l with
  | [] => Return acc
  | x :: l' => let* acc' := f acc x in foldM f acc' l'
  end.

Definition get_weight_row (location : string) (season : option Z)
    (atoms : list string) : result (list Qc) :=
  let* (total_population, atom_populations) :=
    foldM (weigh_atom location season) (0, []) atoms in
  if total_population =? 0 then
    Raise (Exception "location has no constituent atoms")
  else
    Return ((fun pop => Fraction pop total_population) <$> atom_populations).

Definition get_weight_matrix (locations : list string) (season : option Z)
    (atoms : list string) : result ndarray :=
  let* rows := mapM (fun loc => get_weight_row loc season atoms) locations in
  Return (np_array rows).

(** *** eliminate *)

(** [X[i, :] <-> X[r, :]] through a temporary copy of row [i]. *)
Definition swap_rows (i r : nat) (X : list (list Qc)) : list (list Qc) :=
  let temp := X !!! i in
  <[r := temp]> (<[i := X !!! r]> X).

(** [X[r, c:] /= X[r, c]] *)
Definition divide_row (r c : nat) (X : list (list Qc)) : list (list Qc) :=
  let p := entry X r c in
  <[r := take c (X !!! r) ++ ((fun x => x / p)%Qc <$> drop c (X !!! r))]> X.

(** [X[i, c:] -= X[i, c] * X[r, c:]] *)
Definition subtract_row (r c : nat) (X : list (list Qc)) (i : nat)
  : list (list Qc) :=
  let f := entry X i c in
  <[i := take c (X !!! i) ++
         zip_with (fun x y => x - f * y)%Qc (drop c (X !!! i)) (drop c (X !!! r))]> X.

(** The index chosen in column [c] among the rows from [r] on:
    [r + np.argmax(np.abs([float(x) for x in X[r:, c]]))]. *)
Definition pivot_index (r c : nat) (X : list (list Qc)) : result nat :=
  let* values := mapM Float64.of_Fraction (column c (drop r X)) in
  Return (r + argmax (Qcabs <$> values))%nat.

(** The block under [if X[i, c] != 0]: row [i] is swapped into row [r],
    row [r] is divided by its pivot, and the rows below are cleared from
    column [c] on. *)
Definition forward_step (num_r r c i : nat) (X : list (list Qc))
  : list (list Qc) :=
  let X := if bool_decide (i ≠ r) then swap_rows i r X else X in
  let X := divide_row r c X in
  foldl (subtract_row r c) X (seq (S r) (num_r - S r)).

(** Forward elimination. [todo] is [num_c - c], the number of columns still
    to visit, so that the loop test [c < num_c] is [todo] being a successor. *)
Fixpoint forward (num_r todo r c : nat) (X : list (list Qc))
  : result (list (list Qc)) :=
  match todo with
  | O => Return X
  | S todo' =>
      if bool_decide (r < num_r)%nat then
        let* i := pivot_index r c X in
        if nonzero (entry X i c) then
          forward num_r todo' (S r) (S c) (forward_step num_r r c i X)
        else forward num_r todo' r (S c) X
      else Return X
  end.

(** The first [c] in [range(num_c)] with [X[r, c] != 0]. *)
Definition first_nonzero (row : list Qc) : option nat :=
  fst <$> list_find (fun x => nonzero x = true) row.

(** Backward substitution for row [r]: rows [r - 1] down to [0]. *)
Definition back_row (X : list (list Qc)) (r : nat) : list (list Qc) :=
  match first_nonzero (X !!! r) with
  | Some c => foldl (subtract_row r c) X (reverse (seq 0 r))
  | None => X
  end.

Definition backward (num_r : nat) (X : list (list Qc)) : list (list Qc) :=
  foldl back_row X (reverse (seq 0 num_r)).

Definition eliminate_rows (num_c : nat) (X : list (list Qc))
  : result (list (list Qc)) :=
  let* X' := forward (length X) num_c 0 0 X in
  Return (backward (length X) X').

(** [num_r, num_c = X.shape] needs a two-dimensional array. *)
Definition eliminate (X : ndarray) : result ndarray :=
  match X with
  | Array1 => Raise ValueError
  | Array2 num_c rows =>
      let* rows' := eliminate_rows num_c rows in Return (Array2 num_c rows')
  end.

(** *** matmul *)

(** [sum(u * v for (u, v) in zip(U, V))] *)
Definition dot (U V : list Qc) : Qc :=
  foldl Qcplus 0%Qc (zip_with Qcmult U V).

Definition matmul2 (A B : ndarray) : result ndarray :=
  match A, B with
  | Array2 size A, Array2 cols B =>
      if bool_decide (size ≠ length B) then
        Raise (Exception "matrix dimensions do not match")
      else
        Return (np_array ((fun U => (fun c => dot U (column c B)) <$> seq 0 cols) <$> A))
  | _, _ => Raise ValueError
  end.

Fixpoint matmul (matrices : list ndarray) : result ndarray :=
  match matrices with
  | [] => Raise IndexError
  | [A] => Return A
  | [A; B] => matmul2 A B
  | A :: rest => let* P := matmul rest in matmul2 A P
  end.

(** *** _determine_statespace *)

(** The number of rows that are not all zero:
    [np.sum(np.sum(np.abs(B), axis=1) > 0)]. *)
Definition count_nonzero_rows (B : list (list Qc)) : nat :=
  length (filter (fun row => (0 < sum_abs row)%Qc) B).

(** [B] made square: zero rows stacked below, or the rows beyond [size]
    cut off. *)
Definition square (size : nat) (B : list (list Qc)) : list (list Qc) :=
  let num_rows := length B in
  if bool_decide (num_rows < size)%nat then B ++ zeros (size - num_rows) size
  else if bool_decide (size < num_rows)%nat then take size B
  else B.

(** [np.hstack((B.T, I))] with [I = fractions(np.eye(size))], which is the
    one-dimensional empty array when [size] is 0 and then cannot be stacked
    beside the two-dimensional [B.T]. *)
Definition augment (size : nat) (B : list (list Qc)) : result ndarray :=
  match np_array (eye size) with
  | Array1 => Raise ValueError
  | Array2 n Id => Return (Array2 (size + n) (zip_with app (transpose size B) Id))
  end.

(** The rank of the row space of [H0] and the matrix [Bi], read off the
    elimination of [[B.T | I]]: [IBit[:, size:].T]. *)
Definition basis_inverse (H0 : ndarray) : result (nat * nat * list (list Qc)) :=
  let* B := eliminate H0 in
  match B with
  | Array1 => Raise ValueError
  | Array2 size B =>
      let rank := count_nonzero_rows B in
      let B := square size B in
      let* BtI := augment size B in
      let* IBit := eliminate BtI in
      match IBit with
      | Array1 => Raise ValueError
      | Array2 _ IBit =>
          Return (size, rank, transpose size (drop size <$> IBit))
      end
  end.

(** [np.flatnonzero(np.sum(np.abs(W_pseudo), axis=1) == 0)] *)
Definition zero_rows (W_pseudo : ndarray) : result (list nat) :=
  match W_pseudo with
  | Array1 => Raise AxisError
  | Array2 _ rows =>
      Return (filter (fun i => sum_abs (rows !!! i) = 0%Qc) (seq 0 (length rows)))
  end.

(** [W_actual[actual_rows, :]] *)
Definition take_rows (W_actual : ndarray) (actual_rows : list nat)
  : result ndarray :=
  match W_actual with
  | Array1 => Raise IndexError
  | Array2 num_c rows =>
      Return (Array2 num_c ((fun i => rows !!! i) <$> actual_rows))
  end.

Definition _determine_statespace (H0 W0 : ndarray)
  : result (ndarray * ndarray * list nat) :=
  let* (size, rank, Bi) := basis_inverse H0 in
  let Bi_actual := Array2 (rank `min` size) (take rank <$> Bi) in
  let Bi_pseudo := Array2 (size - rank) (drop rank <$> Bi) in
  let* H := matmul [H0; Bi_actual] in
  let* W_actual := matmul [W0; Bi_actual] in
  let* W_pseudo := matmul [W0; Bi_pseudo] in
  let* actual_rows := zero_rows W_pseudo in
  let* W := take_rows W_actual actual_rows in
  Return (H, W, actual_rows).

(** *** determine_statespace *)

Definition atom_filter (exclude_locations : list string) (a : string) : Prop :=
  a ∉ exclude_locations.

(** [[all_locations[i] for i in selected_rows]] *)
Definition select_locations (all_locations : list string) (rows : list nat)
  : result (list string) :=
  mapM (fun i => match all_locations !! i with
                 | Some loc => Return loc
                 | None => Raise IndexError
                 end) rows.

(** The list of all locations (nat, hhs, cen, ny and the atoms) and the list
    of atoms, each without the excluded names. *)
Definition all_locations (exclude_locations : list string) : list string :=
  filter (atom_filter exclude_locations) region_list.
Definition atoms (exclude_locations : list string) : list string :=
  filter (atom_filter exclude_locations) atom_list.

(** The function under the [lru_cache] decorator. *)
Definition determine_statespace_wrapped (input_locations : list string)
    (season : option Z) (exclude_locations : list string)
  : result (ndarray * ndarray * list string) :=
  if bool_decide (list_to_set exclude_locations ∩ list_to_set input_locations
                  ≠@{gset string} ∅) then
    Raise (Exception "input contains excluded locations")
  else
    let all_locations := all_locations exclude_locations in
    let atoms := atoms exclude_locations in
    let* H0 := get_weight_matrix input_locations season atoms in
    let* W0 := get_weight_matrix all_locations season atoms in
    let* (H, W, output_locations) :=
      (if bool_decide (list_to_set atoms ⊆@{gset string} list_to_set input_locations)
       then Return (H0, W0, all_locations)
       else
         let* (H, W, selected_rows) := _determine_statespace H0 W0 in
         let* output_locations := select_locations all_locations selected_rows in
         Return (H, W, output_locations)) in
    let* H := astype_float H in
    let* W := astype_float W in
    Return (H, W, output_locations).

End WithTables.

(** ** functools.lru_cache

    The decorator of the Python standard library, as its documentation
    describes it: a call whose key is stored returns the stored value and
    makes the key the most recently used; any other call runs the function,
    and stores a returned value, dropping the least recently used entry once
    [maxsize] entries are held. A call that raises stores nothing. *)

Inductive outcome : Type := Hit | Miss.

Section lru_cache.

Context {K V : Type} `{EqDecision K}.
Context (maxsize : nat) (user_function : K -> result V).

(** The entries, most recently used first. *)
Definition cached (cache : list (K * V)) (key : K) : option (nat * (K * V)) :=
  list_find (fun kv => kv.1 = key) cache.

Definition lru_call (cache : list (K * V)) (key : K)
  : outcome * result V * list (K * V) :=
  match cached cache key with
  | Some (i, (_, v)) => (Hit, Return v, (key, v) :: delete i cache)
  | None =>
      match user_function key with
      | Return v => (Miss, Return v, take maxsize ((key, v) :: cache))
      | Raise e => (Miss, Raise e, cache)
      end
  end.

(** The cache after a sequence of calls. *)
Definition lru_run (cache : list (K * V)) (keys : list K) : list (K * V) :=
  foldl (fun cache key => (lru_call cache key).2) cache keys.

End lru_cache.

(** ** The program: us_fusion.py over the tables of this repository *)

Module UsFusion.

Definition get_weight_row : string -> option Z -> list string -> result (list Qc) :=
  get_weight_row Locations.region_map populations.get_population.

Definition get_weight_matrix : list string -> option Z -> list string -> result ndarray :=
  get_weight_matrix Locations.region_map populations.get_population.

Definition determine_statespace_wrapped
  : list string -> option Z -> list string -> result (ndarray * ndarray * list string) :=
  determine_statespace_wrapped Locations.region_map Locations.region_list
    Locations.atom_list populations.get_population.

Definition all_locations : list string -> list string :=
  all_locations Locations.region_list.

Definition atoms : list string -> list string :=
  atoms Locations.atom_list.

(** The arguments of a call, as [lru_cache] keys them. *)
Definition key : Type := list string * option Z * list string.

(** The wrapped function on the arguments of a key. *)
Definition call_wrapped (k : key) : result (ndarray * ndarray * list string) :=
  let '(input_locations, season, exclude_locations) := k in
  determine_statespace_wrapped input_locations season exclude_locations.

(** [@functools.lru_cache(maxsize=16)] *)
Definition determine_statespace
    (cache : list (key * (ndarray * ndarray * list string))) (k : key)
  : outcome * result (ndarray * ndarray * list string)
    * list (key * (ndarray * ndarray * list string)) :=
  lru_call 16 call_wrapped cache k.

(** The cache of a process that has made the calls of [history], in order. *)
Definition cache_after (history : list key)
  : list (key * (ndarray * ndarray * list string)) :=
  lru_run 16 call_wrapped [] history.

End UsFusion.

(** * The vocabulary of the statements

    The definitions below are not code of the repository: they name what the
    theorems are about. *)

(** ** Views of results, for evaluation *)

(** The value of a computation that returned. *)
Definition result_value {A} (r : result A) : option A :=
  match r with
  | Return a => Some a
  | Raise _ => None
  end.

(** The numerators and denominators of a returned row, for evaluation. *)
Definition row_values (r : result (list Qc)) : option (list Q) :=
  match r with
  | Return row => Some (this <$> row)
  | Raise _ => None
  end.

(** The entries of an array, for evaluation. *)
Definition array_values (X : ndarray) : option (nat * list (list Q)) :=
  match X with
  | Array1 => None
  | Array2 num_c rows => Some (num_c, (fun row : list Qc => this <$> row) <$> rows)
  end.

Definition matrix_values (X : list (list Qc)) : list (list Q) :=
  (fun row : list Qc => this <$> row) <$> X.

(** The rank and the entries of H and W, and the outputs kept. *)
Definition statespace_values (r : result (nat * ndarray * ndarray * list string))
  : option (nat * option (nat * list (list Q)) * option (nat * list (list Q)) * list string) :=
  match r with
  | Return (rank, H, W, outs) => Some (rank, array_values H, array_values W, outs)
  | Raise _ => None
  end.

(** The shape of an array, and the shapes and outputs of a returned result. *)
Definition shape (X : ndarray) : list nat :=
  match X with
  | Array1 => [0%nat]
  | Array2 num_c rows => [length rows; num_c]
  end.

Definition statespace_shape (r : result (ndarray * ndarray * list string))
  : option (list nat * list nat * list string) :=
  match r with
  | Return (H, W, outs) => Some (shape H, shape W, outs)
  | Raise _ => None
  end.

(** The entries of H and W and the outputs of a returned result. *)
Definition statespace_entries (r : result (ndarray * ndarray * list string))
  : option (option (nat * list (list Q)) * option (nat * list (list Q)) * list string) :=
  match r with
  | Return (H, W, outs) => Some (array_values H, array_values W, outs)
  | Raise _ => None
  end.

(** ** Candidate outputs *)

(** Following the spec's words: every known group, minus any group one of
    whose members is excluded, in the order of [region_list]. *)
Definition no_member_excluded (region_map : gmap string (list string))
    (exclude_locations : list string) (g : string) : Prop :=
  match region_map !! g with
  | Some members => Forall (fun a => a ∉ exclude_locations) members
  | None => True
  end.

#[global] Instance no_member_excluded_dec region_map exclude_locations g :
  Decision (no_member_excluded region_map exclude_locations g).
Proof. unfold no_member_excluded. destruct (region_map !! g); apply _. Defined.

Definition all_groups_spec (region_map : gmap string (list string))
    (region_list exclude_locations : list string) : list string :=
  filter (no_member_excluded region_map exclude_locations) region_list.

(** ** Weight rows *)

Section population_readings.

Context (get_population : string -> option Z -> result Z).

(** The population the loop of [get_weight_row] reads for one atom. *)
Definition population_of (season : option Z) (atom : string) : result Z :=
  if truthy season then get_population atom season else get_population atom None.

(** The populations the loop collects: 0 for an atom outside [members]. *)
Definition populations_of (members : list string) (season : option Z)
    (atoms : list string) : result (list Z) :=
  mapM (fun atom => if bool_decide (atom ∈ members)
                    then population_of season atom else Return 0) atoms.

End population_readings.

(** [sum(row)], as Python adds: from 0, left to right. *)
Definition py_sum (row : list Qc) : Qc := foldl Qcplus 0%Qc row.

(** Every population of the table of populations.py is positive. *)
Definition table_positive : bool :=
  forallb (fun yw : Z * gmap string float =>
             forallb (fun aw : string * float =>
                        match populations.round (aw.2 * 3.25e8)%float with
                        | Return p => 0 <? p
                        | Raise _ => false
                        end) (map_to_list yw.2))
          (map_to_list populations.population_weights).

(** ** The cache *)

Section cache_invariant.

Context {K V : Type} (maxsize : nat) (user_function : K -> result V).

(** What a well-formed cache holds: one entry per key, each the value the
    function returned for that key, and no more than [maxsize] of them. *)
Record cache_ok (cache : list (K * V)) : Prop := {
  cache_NoDup : NoDup cache.*1;
  cache_coherent : forall k v, (k, v) ∈ cache -> user_function k = Return v;
  cache_bounded : (length cache <= maxsize)%nat;
}.

(** [key] is in the cache with value [v], and every entry ahead of it belongs
    to a key of [recent]. *)
Definition retained (cache : list (K * V)) (key : K) (v : V) (recent : list K) : Prop :=
  exists i, cache !! i = Some (key, v) /\
            forall j k' v', (j < i)%nat -> cache !! j = Some (k', v') -> k' ∈ recent.

End cache_invariant.

(** Seventeen keys that differ in the season only: the one sensor "pa", and
    every other location excluded. *)
Definition all_but_pa : list string :=
  filter (fun a => a <> "pa") Locations.region_list.
Definition pa_key (i : Z) : UsFusion.key := (["pa"], Some (2000 + i), all_but_pa).
Definition seventeen_keys : list UsFusion.key := pa_key <$> seqZ 0 17.

(** ** The scenario of three atoms *)

(** Atoms a, b, c of equal population weight 1/3, and the groups over them. *)
Definition scenario_region_map : gmap string (list string) :=
  dict [("a", ["a"]); ("b", ["b"]); ("c", ["c"]);
        ("ab", ["a"; "b"]); ("abc", ["a"; "b"; "c"])].

Definition scenario_population (atom : string) (season : option Z) : result Z :=
  populations.round (1 / 3 * 3.25e8)%float.

Definition scenario_atoms : list string := ["a"; "b"; "c"].

Definition scenario_matrix (groups : list string) : result ndarray :=
  get_weight_matrix scenario_region_map scenario_population groups None scenario_atoms.

(** The statespace of the scenario for the inputs [{a,b}] and the given
    outputs: the rank, H, W and the outputs kept. *)
Definition scenario_statespace (outputs : list string)
  : result (nat * ndarray * ndarray * list string) :=
  let* H0 := scenario_matrix ["ab"] in
  let* W0 := scenario_matrix outputs in
  let* (size, rank, Bi) := basis_inverse H0 in
  let* (H, W, selected_rows) := _determine_statespace H0 W0 in
  let* output_locations := select_locations outputs selected_rows in
  Return (rank, H, W, output_locations).

(** The matrices of the scenario with {a,b} among the outputs, and what
    [_determine_statespace] returns on them. *)
Definition scenario_H0 : ndarray :=
  Array2 3 [[Fraction 1 2; Fraction 1 2; Fraction 0 1]].
Definition scenario_W0 : ndarray :=
  Array2 3 [[Fraction 1 1; Fraction 0 1; Fraction 0 1];
            [Fraction 0 1; Fraction 1 1; Fraction 0 1];
            [Fraction 0 1; Fraction 0 1; Fraction 1 1];
            [Fraction 1 2; Fraction 1 2; Fraction 0 1];
            [Fraction 1 3; Fraction 1 3; Fraction 1 3]].
Definition scenario_HW : ndarray * ndarray * list nat :=
  match _determine_statespace scenario_H0 scenario_W0 with
  | Return r => r
  | Raise _ => (Array1, Array1, [])
  end.

(** ** Echelon forms *)

(** The pivot search of the forward phase finds a pivot wherever there is
    one: each time the entry it selects is zero, the whole column is zero from
    row [r] down. (The search compares floats, and a nonzero Fraction below
    the smallest double becomes the float 0.0.) *)
Fixpoint pivots_found (num_r todo r c : nat) (X : list (list Qc)) : bool :=
  match todo with
  | O => true
  | S todo' =>
      if bool_decide (r < num_r)%nat then
        match pivot_index r c X with
        | Raise _ => true
        | Return i =>
            if nonzero (entry X i c) then
              pivots_found num_r todo' (S r) (S c) (forward_step num_r r c i X)
            else
              forallb (fun k => negb (nonzero (entry X k c))) (seq r (num_r - r))
              && pivots_found num_r todo' r (S c) X
        end
      else true
  end.

(** Column [c] is the leading column of [row]: its entry there is not zero
    and the entries left of it are. *)
Definition leading_column (row : list Qc) (c : nat) : Prop :=
  (exists x, row !! c = Some x /\ x <> 0%Qc) /\
  forall j y, (j < c)%nat -> row !! j = Some y -> y = 0%Qc.

(** The postcondition of a reduced row echelon form: in every row that is
    not all zero the leading entry is 1, and its column is zero in every
    other row, none of which leads in that column. *)
Definition reduced_row_echelon (X : list (list Qc)) : Prop :=
  forall i row c, X !! i = Some row -> leading_column row c ->
    row !! c = Some 1%Qc /\
    forall i' row', i' <> i -> X !! i' = Some row' ->
      row' !! c = Some 0%Qc /\ ~ leading_column row' c.

(** The invariant of the forward phase at the cursor [(r, c)]: rows [0] to
    [r - 1] lead with a 1 in the columns [ps], which increase and lie left of
    [c]; the rows from [r] on are zero left of [c]. *)
Record forward_inv (num_c : nat) (ps : list nat) (r c : nat)
    (X : list (list Qc)) : Prop := {
  fwd_rect : rectangular num_c X;
  fwd_rank : length ps = r;
  fwd_rows : (r <= length X)%nat;
  fwd_sorted : StronglySorted lt ps;
  fwd_left : Forall (fun p => p < c)%nat ps;
  fwd_pivot : forall k p, ps !! k = Some p ->
                entry X k p = 1%Qc /\ forall j, (j < p)%nat -> entry X k j = 0%Qc;
  fwd_below : forall i j, (r <= i)%nat -> (j < c)%nat -> entry X i j = 0%Qc;
}.

(** Row echelon form with leading ones in the columns [ps]. *)
Record echelon (num_c : nat) (ps : list nat) (X : list (list Qc)) : Prop := {
  ech_rect : rectangular num_c X;
  ech_rank : (length ps <= length X)%nat;
  ech_sorted : StronglySorted lt ps;
  ech_cols : Forall (fun p => p < num_c)%nat ps;
  ech_pivot : forall k p, ps !! k = Some p ->
                entry X k p = 1%Qc /\ forall j, (j < p)%nat -> entry X k j = 0%Qc;
  ech_zero : forall i j, (length ps <= i)%nat -> entry X i j = 0%Qc;
}.

(** The pivot columns of the rows from [m] on are zero above their pivots. *)
Definition cleared_from (m : nat) (ps : list nat) (X : list (list Qc)) : Prop :=
  forall k p i, ps !! k = Some p -> (m <= k)%nat -> (i < k)%nat -> entry X i p = 0%Qc.

(** Row echelon form with every pivot column cleared. *)
Definition rref (num_c : nat) (ps : list nat) (X : list (list Qc)) : Prop :=
  echelon num_c ps X /\ cleared_from 0 ps X.

(** A matrix of integers and its elimination. *)
Definition sample_matrix : list (list Qc) :=
  [[Z2Qc 2; Z2Qc 4; Z2Qc 1]; [Z2Qc 1; Z2Qc 2; Z2Qc 3]; [Z2Qc (-4); Z2Qc 1; Z2Qc 0]].
Definition sample_eliminated : ndarray :=
  match eliminate (Array2 3 sample_matrix) with
  | Return R => R
  | Raise _ => Array1
  end.

(** A Fraction below the smallest positive double: [float] makes it 0.0. *)
Definition tiny : Qc := Fraction 1 (10 ^ 400).

(** ** The table of populations.py, year by year *)

(** The year whose table [get_population] reads: the season, or the last
    year when it is left out, brought into the years of the table. *)
Definition table_year (season : option Z) : Z :=
  Z.max (Z.min (default populations.last_season season) populations.last_season)
        populations.first_season.

(** The year the loop of [get_weight_row] reads: a falsy season is left
    out of the call. *)
Definition read_year (season : option Z) : Z :=
  table_year (if truthy season then season else None).

(** The atoms with a weight in the table of [year]: every atom, but "pr"
    up to 2012 and "vi" in 2010. *)
Definition listed (location : string) (year : Z) : bool :=
  bool_decide (location ∈ Locations.atom_list)
  && negb (bool_decide (location = "pr") && (year <=? 2012))
  && negb (bool_decide (location = "vi") && (year <=? 2010)).

(** The table holds what [listed] says, year by year, and every population
    is positive and below the 325 million of the whole. *)
Definition table_listed : bool :=
  forallb (fun year =>
    match populations.population_weights !! year with
    | None => false
    | Some weights =>
        forallb (fun a =>
          match weights !! a with
          | Some w =>
              listed a year &&
              match populations.round (w * 3.25e8)%float with
              | Return p => (0 <? p) && (p <? 325000000)
              | Raise _ => false
              end
          | None => negb (listed a year)
          end) Locations.atom_list
        && forallb (fun aw : string * float => bool_decide (aw.1 ∈ Locations.atom_list))
             (map_to_list weights)
    end) (seqZ 2010 8).

(** ** The hierarchy of locations.py *)

(** The members of a group, none for a name that is not a key. *)
Definition members (g : string) : list string :=
  default [] (Locations.region_map !! g).

(** The members of the groups of a level, one group after the other. *)
Definition members_of (groups : list string) : list string :=
  concat (members <$> groups).

(** ** Products and solutions *)

(** One row of a product: [[dot(U, B[:, c]) for c in range(cols)]]. *)
Definition row_times (cols : nat) (B : list (list Qc)) (U : list Qc) : list Qc :=
  (fun c => dot U (column c B)) <$> seq 0 cols.

(** [X . v = 0]: every row of [X] has dot product 0 with [v]. *)
Definition annihilates (X : list (list Qc)) (v : list Qc) : Prop :=
  Forall (fun row => dot row v = 0%Qc) X.

(** ** config.py and the call made by neurips_main.py *)

Module config.

Definition SENSORS : list string := ["sar3"; "epic"].
Definition ATOM_LIST : list string := ["pa"; "va"; "nc"; "sc"; "wv"].
Definition REGION_LIST : list string := ATOM_LIST ++ ["hhs3"; "hhs4"] ++ ["nat"].

(** [EXCLUDE_LOC = list(set(Locations.region_list) - set(REGION_LIST))]: the
    elements of the difference, once each, in an order Python does not fix. *)
Definition EXCLUDE_LOC (l : list string) : Prop :=
  NoDup l /\ forall x, x ∈ l <-> x ∈ Locations.region_list /\ x ∉ REGION_LIST.

End config.

(** [itertools.compress(data, selectors)] *)
Definition compress {A} (data : list A) (selectors : list bool) : list A :=
  (filter (fun p : A * bool => p.2 = true) (zip data selectors)).*1.

(** [selected_inputs] of [get_training_data]: the locations of the pairs
    (sensor, location) of [itertools.product(SENSORS, regions)] whose columns
    are kept. *)
Definition selected_inputs (keep_columns : list bool) : list string :=
  (compress (list_prod config.SENSORS config.REGION_LIST) keep_columns).*2.

(** The difference of the two sets in the order of [region_list]. *)
Definition excluded_in_order : list string :=
  filter (fun x => x ∉ config.REGION_LIST) Locations.region_list.

(** ** Sample values *)

(** A weight row and a weight matrix of the repository. *)
Definition hhs1_row : list Qc :=
  match UsFusion.get_weight_row "hhs1" None ["ct"; "ma"; "jfk"] with
  | Return row => row
  | Raise _ => []
  end.
Definition pa_row : list Qc :=
  match UsFusion.get_weight_row "pa" (Some 2012) ["ct"; "pa"; "va"] with
  | Return row => row
  | Raise _ => []
  end.
Definition sample_weights : ndarray :=
  match UsFusion.get_weight_matrix ["hhs1"; "nat"] None ["ct"; "ma"; "jfk"] with
  | Return M => M
  | Raise _ => Array1
  end.

(** A matrix of rank 1 and its elimination. *)
Definition singular_matrix : list (list Qc) :=
  [[Z2Qc 1; Z2Qc 2]; [Z2Qc 2; Z2Qc 4]].
Definition singular_eliminated : list (list Qc) :=
  match eliminate_rows 2 singular_matrix with
  | Return R => R
  | Raise _ => []
  end.

(** A reduced row echelon form with pivots in columns 0 and 2. *)
Definition reduced_matrix : list (list Qc) :=
  [[1%Qc; Z2Qc 2; 0%Qc]; [0%Qc; 0%Qc; 1%Qc]; [0%Qc; 0%Qc; 0%Qc]].

(** The statespace for the ten HHS regions and one state as inputs, with
    "vi" excluded, and the candidate matrix with nothing excluded. *)
Definition hhs_inputs : list string :=
  ["hhs1"; "hhs2"; "hhs3"; "hhs4"; "hhs5"; "hhs6"; "hhs7"; "hhs8"; "hhs9"; "hhs10"; "pa"].
Definition hhs_statespace : ndarray * ndarray * list string :=
  default (Array1, Array1, [])
    (result_value (UsFusion.determine_statespace_wrapped hhs_inputs None ["vi"])).
Definition us_W0 : ndarray :=
  default Array1
    (result_value (UsFusion.get_weight_matrix (UsFusion.all_locations []) None
                     (UsFusion.atoms []))).

(** * Properties *)

(** ** The result monad *)

Lemma bind_Return {A B} (m : result A) (k : A -> result B) (b : B) :
  bind m k = Return b -> exists a, m = Return a /\ k a = Return b.
Proof. destruct m as [a|e]; simpl; [eauto | discriminate]. Qed.

Lemma mapM_Return_length {A B} (f : A -> result B) l l' :
  mapM f l = Return l' -> length l' = length l.
Proof.
  revert l'. induction l as [|x l IH]; simpl; intros l' Hm.
  - by inversion Hm.
  - apply bind_Return in Hm as (y & _ & Hm).
    apply bind_Return in Hm as (ys & Hys & Hm).
    inversion Hm; subst. simpl. f_equal. by apply IH.
Qed.

Lemma mapM_Return_lookup {A B} (f : A -> result B) l l' i x :
  mapM f l = Return l' -> l !! i = Some x ->
  exists y, l' !! i = Some y /\ f x = Return y.
Proof.
  revert l' i. induction l as [|x0 l IH]; simpl; intros l' i Hm Hi; [done|].
  apply bind_Return in Hm as (y & Hy & Hm).
  apply bind_Return in Hm as (ys & Hys & Hm).
  inversion Hm; subst. destruct i as [|i]; simpl in *.
  - inversion Hi; subst. eauto.
  - eauto.
Qed.

(** ** The candidate outputs (C3) *)

(** C3, as the code has it: the candidate outputs are the known locations
    whose own name is not excluded, in the order of [region_list]. A location
    stays whatever its members are. *)
Theorem all_locations_filters_by_name (region_list exclude_locations : list string) :
  (forall g, g ∈ all_locations region_list exclude_locations <->
             g ∈ region_list /\ g ∉ exclude_locations) /\
  all_locations region_list exclude_locations `sublist_of` region_list.
Proof.
  split.
  - intros g. unfold all_locations, atom_filter. by rewrite list_elem_of_filter, (comm and).
  - apply sublist_filter.
Qed.

(** C3, as the claim states it, fails: with the atom "vi" excluded, the
    national region, of which "vi" is a member, is still a candidate output,
    so the candidates are not the groups free of excluded members. *)
Lemma all_locations_keeps_group_of_excluded_atom :
  Locations.region_map !! "nat" = Some Locations.atom_list /\
  "vi" ∈ Locations.atom_list /\
  "nat" ∈ UsFusion.all_locations ["vi"] /\
  ("nat" ∉ all_groups_spec Locations.region_map Locations.region_list ["vi"]) /\
  UsFusion.all_locations ["vi"] ≠
    all_groups_spec Locations.region_map Locations.region_list ["vi"].
Proof.
  assert (Hin : "nat" ∈ UsFusion.all_locations ["vi"]).
  { apply list_elem_of_In. vm_compute. by left. }
  assert (Hout : "nat" ∉ all_groups_spec Locations.region_map Locations.region_list ["vi"]).
  { intros H%list_elem_of_In. vm_compute in H. intuition discriminate. }
  split_and!; [by vm_compute | apply list_elem_of_In; vm_compute; tauto | done | done |].
  intros Heq. rewrite Heq in Hin. done.
Qed.

(** ** Weight rows (C7, C10) *)

Section weight_rows.

Context (region_map : gmap string (list string))
        (get_population : string -> option Z -> result Z).

Lemma weigh_atom_eq location season members total pops atom :
  region_map !! location = Some members ->
  weigh_atom region_map get_population location season (total, pops) atom
  = let* population := (if bool_decide (atom ∈ members)
                        then population_of get_population season atom else Return 0) in
    Return (total + population, pops ++ [population]).
Proof. intros Hloc. unfold weigh_atom, getitem. by rewrite Hloc. Qed.

(** The loop of [get_weight_row] collects the populations of the atoms and
    their total. *)
Lemma foldM_weigh_atom location season members atoms total pops :
  region_map !! location = Some members ->
  foldM (weigh_atom region_map get_population location season) (total, pops) atoms
  = let* new := populations_of get_population members season atoms in
    Return (total + foldr Z.add 0 new, pops ++ new).
Proof.
  intros Hloc. unfold populations_of. revert total pops.
  induction atoms as [|atom atoms IH]; intros total pops; cbn [foldM mapM].
  - simpl. by rewrite Z.add_0_r, app_nil_r.
  - rewrite (weigh_atom_eq _ _ members) by done.
    destruct (if bool_decide (atom ∈ members) then _ else _) as [p|e]; simpl; [|done].
    rewrite IH. destruct (mapM _ atoms) as [new|e]; simpl; [|done].
    f_equal. f_equal; [lia | by rewrite <- app_assoc].
Qed.

Lemma Z2Qc_add a b : Z2Qc (a + b) = (Z2Qc a + Z2Qc b)%Qc.
Proof.
  apply Qc_is_canon. unfold Z2Qc. simpl.
  rewrite !Qred_correct. by rewrite inject_Z_plus.
Qed.

Lemma Z2Qc_eq_0 a : Z2Qc a = 0%Qc -> a = 0.
Proof.
  intros H. apply (f_equal this) in H. unfold Z2Qc in H. simpl in H.
  assert (Hq : (inject_Z a == 0)%Q) by (rewrite <- (Qred_correct (inject_Z a)), H; reflexivity).
  unfold Qeq in Hq. simpl in Hq. lia.
Qed.

Lemma Fraction_add a b t : Fraction (a + b) t = (Fraction a t + Fraction b t)%Qc.
Proof. unfold Fraction. rewrite Z2Qc_add. unfold Qcdiv. ring. Qed.

Lemma Fraction_same t : t <> 0 -> Fraction t t = 1%Qc.
Proof.
  intros Ht. unfold Fraction, Qcdiv. apply Qcmult_inv_r.
  intros H%Z2Qc_eq_0. done.
Qed.

Lemma Fraction_0 t : Fraction 0 t = 0%Qc.
Proof. unfold Fraction, Qcdiv. change (Z2Qc 0) with 0%Qc. ring. Qed.

Lemma py_sum_Fractions acc (pops : list Z) t :
  foldl Qcplus acc ((fun pop => Fraction pop t) <$> pops)
  = (acc + Fraction (foldr Z.add 0%Z pops) t)%Qc.
Proof.
  revert acc. induction pops as [|p pops IH]; simpl; intros acc.
  - rewrite Fraction_0. ring.
  - rewrite IH, Fraction_add. ring.
Qed.

(** What [get_weight_row] returns, when it returns. *)
Lemma get_weight_row_Return location season atoms row :
  get_weight_row region_map get_population location season atoms = Return row ->
  exists members pops,
    region_map !! location = Some members /\
    populations_of get_population members season atoms = Return pops /\
    foldr Z.add 0 pops <> 0 /\
    row = (fun pop => Fraction pop (foldr Z.add 0 pops)) <$> pops.
Proof.
  unfold get_weight_row. intros H.
  apply bind_Return in H as ([total pops] & Hf & H).
  destruct (region_map !! location) as [members|] eqn:Hloc.
  - rewrite (foldM_weigh_atom _ _ members) in Hf by done.
    apply bind_Return in Hf as (new & Hnew & Hf). inversion Hf; subst total pops.
    simpl in H. rewrite Z.add_0_l in H.
    destruct (foldr Z.add 0 new =? 0) eqn:Ht; [done|].
    inversion H. exists members, new. split_and!; [done|done|lia|done].
  - destruct atoms as [|atom atoms]; simpl in Hf.
    + inversion Hf; subst. done.
    + unfold weigh_atom at 1, getitem in Hf. rewrite Hloc in Hf. done.
Qed.

Lemma populations_of_nonneg members season atoms pops :
  (forall atom p, atom ∈ atoms -> atom ∈ members ->
                  population_of get_population season atom = Return p -> 0 <= p) ->
  populations_of get_population members season atoms = Return pops ->
  Forall (fun p => 0 <= p) pops.
Proof.
  unfold populations_of. revert pops.
  induction atoms as [|atom atoms IH]; simpl; intros pops Hnn Hm.
  - inversion Hm. constructor.
  - apply bind_Return in Hm as (p & Hp & Hm).
    apply bind_Return in Hm as (ps & Hps & Hm). inversion Hm; subst.
    constructor.
    + case_bool_decide; [|by inversion Hp].
      eapply Hnn; [left|done|done].
    + apply IH; [|done]. intros a q Ha. apply Hnn. by right.
Qed.

Lemma populations_of_total members season atoms :
  (forall atom, atom ∈ atoms -> atom ∈ members ->
                exists p, population_of get_population season atom = Return p) ->
  exists pops, populations_of get_population members season atoms = Return pops.
Proof.
  unfold populations_of. induction atoms as [|atom atoms IH]; simpl; intros Hall.
  - by eexists.
  - destruct IH as (ps & Hps). { intros a Ha. apply Hall. by right. }
    rewrite Hps. case_bool_decide as Hm.
    + destruct (Hall atom) as (p & ->); [left|done|]. by eexists.
    + by eexists.
Qed.

(** A row is returned, and sums to 1, for a group with a member of nonzero
    population among [atoms], the populations read being non-negative. *)
Lemma get_weight_row_normalised location members season atoms :
  region_map !! location = Some members ->
  (forall atom, atom ∈ atoms -> atom ∈ members ->
                exists p, population_of get_population season atom = Return p /\ 0 <= p) ->
  (exists atom p, atom ∈ atoms /\ atom ∈ members /\
                  population_of get_population season atom = Return p /\ p <> 0) ->
  exists row,
    get_weight_row region_map get_population location season atoms = Return row /\
    length row = length atoms /\
    (forall i atom, atoms !! i = Some atom -> atom ∉ members -> row !! i = Some 0%Qc) /\
    py_sum row = 1%Qc.
Proof.
  intros Hloc Hall (atom0 & p0 & Hin0 & Hmem0 & Hp0 & Hne0).
  destruct (populations_of_total members season atoms) as (pops & Hpops).
  { intros a Ha Hm. destruct (Hall a Ha Hm) as (p & Hp & _). eauto. }
  assert (Hnn : Forall (fun p => 0 <= p) pops).
  { eapply populations_of_nonneg; [|done].
    intros a p Ha Hm Hp. destruct (Hall a Ha Hm) as (p' & Hp' & Hle). congruence. }
  assert (Hsum_nn : forall l, Forall (fun p => 0 <= p) l -> 0 <= foldr Z.add 0 l).
  { induction 1; simpl; lia. }
  assert (Hin : p0 ∈ pops).
  { apply list_elem_of_lookup in Hin0 as (i & Hi).
    destruct (mapM_Return_lookup _ _ _ _ _ Hpops Hi) as (y & Hy & Hfy).
    rewrite bool_decide_true in Hfy by done.
    assert (y = p0) as -> by congruence. by eapply list_elem_of_lookup_2. }
  assert (Htotal : foldr Z.add 0 pops <> 0).
  { apply list_elem_of_split in Hin as (l1 & l2 & ->).
    apply Forall_app in Hnn as (H1 & H2). inversion H2; subst.
    rewrite foldr_app. simpl.
    assert (Hshift : forall l a, foldr Z.add a l = foldr Z.add 0 l + a).
    { induction l as [|x l IHl]; simpl; intros; [lia | rewrite IHl; lia]. }
    rewrite Hshift. pose proof (Hsum_nn l1 H1). pose proof (Hsum_nn l2 H4). lia. }
  exists ((fun pop => Fraction pop (foldr Z.add 0 pops)) <$> pops).
  split_and!.
  - unfold get_weight_row. rewrite (foldM_weigh_atom _ _ members) by done.
    rewrite Hpops. simpl. rewrite Z.add_0_l.
    destruct (foldr Z.add 0 pops =? 0) eqn:Ht; [lia | done].
  - rewrite length_fmap. eapply mapM_Return_length, Hpops.
  - intros i atom Hi Hnot.
    destruct (mapM_Return_lookup _ _ _ _ _ Hpops Hi) as (y & Hy & Hfy).
    rewrite bool_decide_false in Hfy by done. inversion Hfy; subst y.
    rewrite list_lookup_fmap, Hy. simpl. by rewrite Fraction_0.
  - unfold py_sum. rewrite py_sum_Fractions, Fraction_same by done. ring.
Qed.

(** C7. A group with a member among [atoms] of nonzero population, the
    populations being non-negative: [get_weight_row] returns a row with one
    Fraction per atom, 0 for the atoms outside the group, and the row sums
    to exactly 1. *)
Theorem weight_row_sums_to_one location members season atoms :
  region_map !! location = Some members ->
  (forall atom, atom ∈ atoms -> atom ∈ members ->
                exists p, population_of get_population season atom = Return p /\ 0 <= p) ->
  (exists atom p, atom ∈ atoms /\ atom ∈ members /\
                  population_of get_population season atom = Return p /\ p <> 0) ->
  exists row,
    get_weight_row region_map get_population location season atoms = Return row /\
    length row = length atoms /\
    (forall i atom, atoms !! i = Some atom -> atom ∉ members -> row !! i = Some 0%Qc) /\
    py_sum row = 1%Qc.
Proof. apply get_weight_row_normalised. Qed.

(** Whatever the populations are, a row that is returned has one Fraction per
    atom, 0 for the atoms outside the group, and sums to exactly 1. *)
Lemma get_weight_row_Return_sum location season atoms row :
  get_weight_row region_map get_population location season atoms = Return row ->
  exists members,
    region_map !! location = Some members /\
    length row = length atoms /\
    (forall i atom, atoms !! i = Some atom -> atom ∉ members -> row !! i = Some 0%Qc) /\
    py_sum row = 1%Qc.
Proof.
  intros (members & pops & Hloc & Hpops & Htotal & ->)%get_weight_row_Return.
  exists members. split_and!; [done| | |].
  - rewrite length_fmap. eapply mapM_Return_length, Hpops.
  - intros i atom Hi Hnot.
    destruct (mapM_Return_lookup _ _ _ _ _ Hpops Hi) as (y & Hy & Hfy).
    rewrite bool_decide_false in Hfy by done. inversion Hfy; subst y.
    rewrite list_lookup_fmap, Hy. simpl. by rewrite Fraction_0.
  - unfold py_sum. rewrite py_sum_Fractions, Fraction_same by done. ring.
Qed.

(** The season enters [get_weight_row] only through the populations read. *)
Lemma get_weight_row_ext location season1 season2 atoms :
  (forall atom, population_of get_population season1 atom = population_of get_population season2 atom) ->
  get_weight_row region_map get_population location season1 atoms
  = get_weight_row region_map get_population location season2 atoms.
Proof.
  intros Hext. unfold get_weight_row. f_equal.
  generalize (0, @nil Z). induction atoms as [|atom atoms IH]; simpl; intros acc; [done|].
  assert (Hw : weigh_atom region_map get_population location season1 acc atom
               = weigh_atom region_map get_population location season2 acc atom).
  { unfold weigh_atom. destruct acc. specialize (Hext atom). unfold population_of in Hext.
    destruct (getitem region_map location); simpl; [|done].
    case_bool_decide; [by rewrite Hext | done]. }
  rewrite Hw. destruct (weigh_atom _ _ _ season2 acc atom); simpl; [apply IH | done].
Qed.

End weight_rows.

Lemma hhs1_weight_row_witness :
  exists row,
    get_weight_row Locations.region_map populations.get_population
      "hhs1" None ["ct"; "ma"; "jfk"] = Return row /\
    length row = 3%nat /\
    (forall i atom, ["ct"; "ma"; "jfk"] !! i = Some atom ->
       atom ∉ ["ct"; "ma"; "me"; "nh"; "ri"; "vt"] -> row !! i = Some 0%Qc) /\
    py_sum row = 1%Qc.
Proof.
  apply (weight_row_sums_to_one Locations.region_map populations.get_population
           "hhs1" ["ct"; "ma"; "me"; "nh"; "ri"; "vt"] None ["ct"; "ma"; "jfk"]).
  - vm_compute. reflexivity.
  - intros atom Hin Hmem.
    apply list_elem_of_In in Hin. simpl in Hin.
    destruct Hin as [<-|[<-|[<-|[]]]].
    + eexists. split; [vm_compute; reflexivity | lia].
    + eexists. split; [vm_compute; reflexivity | lia].
    + eexists. split; [vm_compute; reflexivity | lia].
  - exists "ct". eexists. split_and!.
    + apply list_elem_of_In. simpl. tauto.
    + apply list_elem_of_In. simpl. tauto.
    + vm_compute. reflexivity.
    + lia.
Defined.

Section seasons.

Import populations.

Lemma first_season_eq : first_season = 2010.
Proof. vm_compute. reflexivity. Qed.

Lemma last_season_eq : last_season = 2017.
Proof. vm_compute. reflexivity. Qed.

(** [get_population_weight] reads the table of the nearest year it has. *)
Lemma get_population_clamped location s :
  get_population location (Some s)
  = get_population location (Some (Z.max (Z.min s last_season) first_season)).
Proof.
  unfold get_population, get_population_weight. simpl.
  rewrite first_season_eq, last_season_eq.
  by replace (Z.max (Z.min (Z.max (Z.min s 2017) 2010) 2017) 2010)
    with (Z.max (Z.min s 2017) 2010) by lia.
Qed.

Lemma get_population_default location :
  get_population location None = get_population location (Some last_season).
Proof. done. Qed.

(** C10. A falsy season ([None] or 0) reads the most recent year; any other
    season outside the table reads the nearest year of the table. So season
    0 gives the row of the most recent year, not that of the earliest. *)
Theorem falsy_season_reads_last_season (location : string) (atoms : list string) :
  UsFusion.get_weight_row location None atoms
    = UsFusion.get_weight_row location (Some last_season) atoms /\
  UsFusion.get_weight_row location (Some 0) atoms
    = UsFusion.get_weight_row location (Some last_season) atoms /\
  (forall s, s <> 0 -> s < first_season ->
     UsFusion.get_weight_row location (Some s) atoms
       = UsFusion.get_weight_row location (Some first_season) atoms) /\
  (forall s, s <> 0 -> last_season < s ->
     UsFusion.get_weight_row location (Some s) atoms
       = UsFusion.get_weight_row location (Some last_season) atoms) /\
  row_values (UsFusion.get_weight_row "hhs1" (Some 0) ["ct"; "ma"])
    = row_values (UsFusion.get_weight_row "hhs1" (Some 2017) ["ct"; "ma"]) /\
  row_values (UsFusion.get_weight_row "hhs1" (Some 0) ["ct"; "ma"])
    <> row_values (UsFusion.get_weight_row "hhs1" (Some 2010) ["ct"; "ma"]).
Proof.
  assert (Htruthy : forall s, s <> 0 -> truthy (Some s) = true).
  { intros s Hs. simpl. apply negb_true_iff, Z.eqb_neq, Hs. }
  unfold UsFusion.get_weight_row. split_and!.
  - apply get_weight_row_ext. intros atom. unfold population_of.
    rewrite (Htruthy last_season) by (rewrite last_season_eq; lia). done.
  - apply get_weight_row_ext. intros atom. unfold population_of.
    rewrite (Htruthy last_season) by (rewrite last_season_eq; lia). done.
  - intros s Hs Hlt. apply get_weight_row_ext. intros atom. unfold population_of.
    rewrite !Htruthy by (rewrite ?first_season_eq; lia).
    rewrite get_population_clamped. do 2 f_equal.
    rewrite first_season_eq, last_season_eq in *. lia.
  - intros s Hs Hlt. apply get_weight_row_ext. intros atom. unfold population_of.
    rewrite !Htruthy by (rewrite ?last_season_eq; lia).
    rewrite get_population_clamped. do 2 f_equal.
    rewrite first_season_eq, last_season_eq in *. lia.
  - vm_compute. reflexivity.
  - vm_compute. discriminate.
Qed.

End seasons.

(** ** The memoization cache (C4, C9) *)

Section lru_cache_facts.

Context {K V : Type} `{EqDecision K}.
Context (maxsize : nat) (user_function : K -> result V).

Lemma cached_Some (cache : list (K * V)) key i k v :
  cached cache key = Some (i, (k, v)) -> k = key /\ cache !! i = Some (key, v).
Proof.
  unfold cached. intros (Hi & Hk & _)%list_find_Some. simpl in Hk. by subst.
Qed.

Lemma cached_None (cache : list (K * V)) key v : cached cache key = None -> (key, v) ∉ cache.
Proof.
  unfold cached. intros Hnone%list_find_None Hin.
  rewrite Forall_forall in Hnone. by apply (Hnone _ Hin).
Qed.

Lemma cached_None_keys (cache : list (K * V)) key : cached cache key = None -> key ∉ cache.*1.
Proof.
  intros Hnone ([k v] & -> & Hin)%list_elem_of_fmap. simpl in *.
  by eapply cached_None.
Qed.

Lemma cached_lookup (cache : list (K * V)) key i v :
  NoDup cache.*1 -> cache !! i = Some (key, v) -> cached cache key = Some (i, (key, v)).
Proof.
  intros Hnd Hi. unfold cached. apply list_find_Some. split_and!; [done|done|].
  intros j [k' v'] Hj Hlt Hk. simpl in Hk. subst k'.
  assert (i = j); [|lia].
  eapply NoDup_lookup; [done| |]; rewrite list_lookup_fmap.
  - by rewrite Hi.
  - by rewrite Hj.
Qed.

Lemma NoDup_delete_fresh (keys : list K) j key :
  NoDup keys -> keys !! j = Some key -> NoDup (key :: delete j keys).
Proof.
  intros Hnd Hj. rewrite <- (take_drop_middle _ _ _ Hj) in Hnd.
  rewrite delete_take_drop.
  apply NoDup_app in Hnd as (H1 & H2 & H3). apply NoDup_cons in H3 as (H3 & H4).
  apply NoDup_cons. split.
  - intros [Hin|Hin]%elem_of_app; [by apply (H2 _ Hin); left | done].
  - apply NoDup_app. split_and!; [done| |done].
    intros x Hx Hx'. apply (H2 _ Hx). by right.
Qed.

Lemma fmap_delete_fst (cache : list (K * V)) j : (delete j cache).*1 = delete j cache.*1.
Proof.
  revert j. induction cache as [|x cache IH]; intros [|j]; simpl; try done.
  by rewrite IH.
Qed.

Lemma lru_call_ok cache key : cache_ok maxsize user_function cache -> cache_ok maxsize user_function (lru_call maxsize user_function cache key).2.
Proof.
  intros [Hnd Hco Hle]. unfold lru_call.
  destruct (cached cache key) as [[i [k v]]|] eqn:Hc.
  - apply cached_Some in Hc as (-> & Hi). simpl. split.
    + simpl. rewrite fmap_delete_fst. apply NoDup_delete_fresh; [done|].
      by rewrite list_lookup_fmap, Hi.
    + intros k' v' [Heq|Hin]%elem_of_cons.
      * inversion Heq; subst. eapply Hco, list_elem_of_lookup_2, Hi.
      * eapply Hco, list_elem_of_delete_inv, Hin.
    + simpl. rewrite length_delete by eauto.
      apply lookup_lt_Some in Hi. lia.
  - destruct (user_function key) as [v|e] eqn:Hf; simpl; [|done]. split.
    + rewrite fmap_take. eapply sublist_NoDup; [|apply sublist_take].
    simpl. apply NoDup_cons. split; [by apply cached_None_keys | done].
    + intros k' v' Hin. apply elem_of_take in Hin.
      destruct Hin as (j & Hj & _).
      apply list_elem_of_lookup_2, elem_of_cons in Hj as [Heq|Hin].
      * by inversion Heq; subst.
      * by apply Hco.
    + rewrite length_take. lia.
Qed.

Lemma lru_run_ok cache keys : cache_ok maxsize user_function cache -> cache_ok maxsize user_function (lru_run maxsize user_function cache keys).
Proof.
  revert cache. induction keys as [|key keys IH]; simpl; intros cache Hok; [done|].
  apply IH, lru_call_ok, Hok.
Qed.

Lemma cache_ok_nil : cache_ok maxsize user_function [].
Proof. split; simpl; [constructor | by intros k v Hin%elem_of_nil | lia]. Qed.

(** A key in the cache is answered from the cache. *)
Lemma lru_call_hit cache k v :
  cache_ok maxsize user_function cache -> (k, v) ∈ cache -> (lru_call maxsize user_function cache k).1 = (Hit, Return v).
Proof.
  intros [Hnd _ _] (i & Hi)%list_elem_of_lookup.
  unfold lru_call. by rewrite (cached_lookup _ _ _ _ Hnd Hi).
Qed.

(** The cache does not change what a call returns. *)
Lemma lru_call_result cache key :
  cache_ok maxsize user_function cache ->
  (lru_call maxsize user_function cache key).1.2 = user_function key.
Proof.
  intros [_ Hco _]. unfold lru_call.
  destruct (cached cache key) as [[i [k v]]|] eqn:Hc.
  - apply cached_Some in Hc as (-> & Hi). simpl. symmetry.
    eapply Hco, list_elem_of_lookup_2, Hi.
  - by destruct (user_function key).
Qed.

(** A call that raises leaves the cache as it was. *)
Lemma lru_call_raise cache key e :
  cache_ok maxsize user_function cache -> user_function key = Raise e ->
  lru_call maxsize user_function cache key = (Miss, Raise e, cache).
Proof.
  intros [_ Hco _] Hf. unfold lru_call.
  destruct (cached cache key) as [[i [k v]]|] eqn:Hc.
  - apply cached_Some in Hc as (-> & Hi).
    apply list_elem_of_lookup_2, Hco in Hi. congruence.
  - by rewrite Hf.
Qed.

Lemma lru_call_retained cache key v recent key' :
  cache_ok maxsize user_function cache -> retained cache key v recent ->
  key' <> key -> key' ∈ recent ->
  (length (remove_dups recent) < maxsize)%nat ->
  retained (lru_call maxsize user_function cache key').2 key v recent.
Proof.
  intros [Hnd Hco Hle] (i & Hi & Hbefore) Hne Hrecent Hfew. unfold lru_call.
  destruct (cached cache key') as [[j [k w]]|] eqn:Hc.
  - apply cached_Some in Hc as (-> & Hj). simpl.
    assert (j <> i) by (intros ->; congruence).
    destruct (decide (j < i)%nat) as [Hlt|Hge].
    + exists i. split.
      * destruct i as [|i]; [lia|]. simpl.
        rewrite list_lookup_delete_ge by lia. done.
      * intros [|m] k' v' Hm Hlook; simpl in Hlook; [by inversion Hlook; subst|].
        rewrite list_lookup_delete in Hlook. case_decide; eapply Hbefore; [|done| |done]; lia.
    + exists (S i). split.
      * simpl. rewrite list_lookup_delete_lt by lia. done.
      * intros [|m] k' v' Hm Hlook; simpl in Hlook; [by inversion Hlook; subst|].
        rewrite list_lookup_delete_lt in Hlook by lia. eapply Hbefore; [|done]. lia.
  - destruct (user_function key') as [w|e]; simpl; [|by exists i].
    assert (Hroom : (S i < maxsize)%nat).
    { eapply Nat.le_lt_trans; [|exact Hfew].
      assert (Hlen : length (key' :: take i cache.*1) = S i).
      { simpl. rewrite length_take, length_fmap. apply lookup_lt_Some in Hi. lia. }
      rewrite <- Hlen. apply submseteq_length, NoDup_submseteq.
      - apply NoDup_cons. split.
        + intros Hin%elem_of_take. destruct Hin as (m & Hm & _).
          apply list_elem_of_lookup_2 in Hm. by apply cached_None_keys in Hc.
        + eapply sublist_NoDup; [exact Hnd | apply sublist_take].
      - intros x [->|Hin]%elem_of_cons; apply elem_of_remove_dups; [done|].
        apply elem_of_take in Hin as (m & Hm & Hlt).
        rewrite list_lookup_fmap in Hm.
        destruct (cache !! m) as [[k' v']|] eqn:Hcm; [|done].
        inversion Hm; subst. by eapply Hbefore. }
    exists (S i). split.
    + rewrite lookup_take_lt by lia. done.
    + intros [|m] k' v' Hm Hlook.
      * rewrite lookup_take_lt in Hlook by lia. by inversion Hlook; subst.
      * rewrite lookup_take_lt in Hlook by lia. simpl in Hlook.
        eapply Hbefore; [|done]. lia.
Qed.

Lemma lru_run_retained cache key v recent others :
  cache_ok maxsize user_function cache -> retained cache key v recent ->
  key ∉ others -> others ⊆ recent ->
  (length (remove_dups recent) < maxsize)%nat ->
  retained (lru_run maxsize user_function cache others) key v recent.
Proof.
  revert cache. induction others as [|key' others IH]; simpl; intros cache Hok Hret Hnot Hsub Hfew; [done|].
  apply IH.
  - by apply lru_call_ok.
  - apply lru_call_retained; try done.
    + intros ->. apply Hnot. by left.
    + apply Hsub. by left.
  - intros Hin. apply Hnot. by right.
  - intros x Hx. apply Hsub. by right.
  - done.
Qed.

(** A call that returns leaves its key at the head of the cache. *)
Lemma lru_call_Return_head cache key o v cache' :
  (0 < maxsize)%nat ->
  cache_ok maxsize user_function cache ->
  lru_call maxsize user_function cache key = (o, Return v, cache') ->
  cache' !! 0%nat = Some (key, v).
Proof.
  intros Hpos Hok. unfold lru_call.
  destruct (cached cache key) as [[i [k w]]|] eqn:Hc.
  - intros Heq. by inversion Heq; subst.
  - destruct (user_function key) as [w|e]; intros Heq; inversion Heq; subst.
    destruct maxsize; [lia | done].
Qed.

(** An entry is kept until [maxsize] other keys have been used after it: a
    call that returned [v] is answered from the cache, with [v], after calls
    of fewer than [maxsize] keys other than its own. *)
Lemma lru_retention cache key o v cache' others :
  cache_ok maxsize user_function cache ->
  lru_call maxsize user_function cache key = (o, Return v, cache') ->
  key ∉ others ->
  (length (remove_dups others) < maxsize)%nat ->
  (lru_call maxsize user_function (lru_run maxsize user_function cache' others) key).1
  = (Hit, Return v).
Proof.
  intros Hok Hcall Hnot Hfew.
  assert (Hok' : cache_ok maxsize user_function cache').
  { replace cache' with (lru_call maxsize user_function cache key).2 by by rewrite Hcall.
    by apply lru_call_ok. }
  assert (Hret : retained cache' key v others).
  { exists 0%nat. split; [|intros; lia].
    eapply (lru_call_Return_head cache); [lia|done|exact Hcall]. }
  destruct (lru_run_retained cache' key v others others) as (i & Hi & _); try done.
  apply lru_call_hit.
  - by apply lru_run_ok.
  - by eapply list_elem_of_lookup_2.
Qed.

End lru_cache_facts.

(** ** The cache of determine_statespace (C4) *)

(** C4, as the code has it: the cache holds the 16 most recently used keys.
    It never holds more than 16 entries; an entry holds the value the
    function returned for its key and answers an identical query without
    recomputation; and a key whose call returned stays in the cache, with
    that value, through calls of fewer than 16 other keys. *)
Theorem cache_keeps_sixteen_most_recent (history : list UsFusion.key) :
  let cache := UsFusion.cache_after history in
  (length cache <= 16)%nat /\
  (forall k v, (k, v) ∈ cache ->
     UsFusion.call_wrapped k = Return v /\
     (UsFusion.determine_statespace cache k).1 = (Hit, Return v)) /\
  (forall k o v cache' others,
     UsFusion.determine_statespace cache k = (o, Return v, cache') ->
     k ∉ others ->
     (length (remove_dups others) < 16)%nat ->
     (UsFusion.determine_statespace
        (lru_run 16 UsFusion.call_wrapped cache' others) k).1 = (Hit, Return v)).
Proof.
  intros cache.
  assert (Hok : cache_ok 16 UsFusion.call_wrapped cache).
  { apply lru_run_ok, cache_ok_nil. }
  split_and!.
  - apply Hok.
  - intros k v Hin. split.
    + by apply Hok.
    + by apply lru_call_hit.
  - intros k o v cache' others Hcall Hnot Hfew.
    by eapply lru_retention.
Qed.

(** C4, as the claim states it, fails: after sixteen other keys the entry of
    the first key is gone, and the identical query is computed again. *)
Lemma cache_evicts_least_recently_used :
  (UsFusion.determine_statespace [] (pa_key 0)).1.1 = Miss /\
  (exists v, (UsFusion.determine_statespace [] (pa_key 0)).1.2 = Return v) /\
  length (UsFusion.cache_after seventeen_keys) = 16%nat /\
  cached (UsFusion.cache_after seventeen_keys) (pa_key 0) = None /\
  (UsFusion.determine_statespace (UsFusion.cache_after seventeen_keys) (pa_key 0)).1.1
  = Miss.
Proof.
  split_and!.
  - vm_compute. reflexivity.
  - eexists. vm_compute. reflexivity.
  - vm_compute. reflexivity.
  - vm_compute. reflexivity.
  - vm_compute. reflexivity.
Qed.

(** ** The overlap check (C9) *)

Lemma determine_statespace_wrapped_overlap region_map region_list atom_list
    get_population input_locations season exclude_locations :
  list_to_set exclude_locations ∩ list_to_set input_locations ≠@{gset string} ∅ ->
  determine_statespace_wrapped region_map region_list atom_list get_population
    input_locations season exclude_locations
  = Raise (Exception "input contains excluded locations").
Proof.
  intros Hov. unfold determine_statespace_wrapped. by rewrite bool_decide_true.
Qed.

(** C9. When the excluded and the input locations overlap, the call raises
    [Exception('input contains excluded locations')] whatever the tables
    hold, so before any weight row is read, and the cache of the process is
    left as it was. *)
Theorem overlap_raises_first (history : list UsFusion.key)
    (input_locations : list string) (season : option Z)
    (exclude_locations : list string) :
  list_to_set exclude_locations ∩ list_to_set input_locations ≠@{gset string} ∅ ->
  (forall region_map region_list atom_list get_population,
     determine_statespace_wrapped region_map region_list atom_list get_population
       input_locations season exclude_locations
     = Raise (Exception "input contains excluded locations")) /\
  UsFusion.determine_statespace (UsFusion.cache_after history)
    (input_locations, season, exclude_locations)
  = (Miss, Raise (Exception "input contains excluded locations"),
     UsFusion.cache_after history).
Proof.
  intros Hov. split.
  - intros. by apply determine_statespace_wrapped_overlap.
  - apply lru_call_raise.
    + apply lru_run_ok, cache_ok_nil.
    + by apply determine_statespace_wrapped_overlap.
Qed.

Lemma overlap_raises_first_witness :
  UsFusion.determine_statespace (UsFusion.cache_after [pa_key 0])
    (["pa"; "nat"], None, ["vi"; "pa"])
  = (Miss, Raise (Exception "input contains excluded locations"),
     UsFusion.cache_after [pa_key 0]).
Proof.
  apply (overlap_raises_first [pa_key 0] ["pa"; "nat"] None ["vi"; "pa"]).
  apply (bool_decide_unpack _). vm_compute. exact I.
Defined.

(** ** The fast path (C8) *)

(** C8, as the code has it. When the inputs and the excluded locations are
    disjoint and every atom left is itself one of the input locations (the
    test [set(input_locations) >= set(atoms)] compares names), the result is
    H0, W0 and the list of all locations: no elimination, and the Fractions
    converted to float at the end only. *)
Theorem fast_path_returns_H0_W0 region_map region_list atom_list get_population
    (input_locations : list string) (season : option Z)
    (exclude_locations : list string) :
  list_to_set exclude_locations ∩ list_to_set input_locations =@{gset string} ∅ ->
  list_to_set (atoms atom_list exclude_locations) ⊆@{gset string} list_to_set input_locations ->
  determine_statespace_wrapped region_map region_list atom_list get_population
    input_locations season exclude_locations
  = let* H0 := get_weight_matrix region_map get_population input_locations season
                 (atoms atom_list exclude_locations) in
    let* W0 := get_weight_matrix region_map get_population
                 (all_locations region_list exclude_locations) season
                 (atoms atom_list exclude_locations) in
    let* H := astype_float H0 in
    let* W := astype_float W0 in
    Return (H, W, all_locations region_list exclude_locations).
Proof.
  intros Hdisj Hcover. unfold determine_statespace_wrapped.
  rewrite bool_decide_false by (by intros Hne).
  rewrite bool_decide_true by done.
  destruct (get_weight_matrix _ _ input_locations _ _) as [H0|e]; simpl; [|done].
  destruct (get_weight_matrix _ _ (all_locations _ _) _ _) as [W0|e']; simpl; done.
Qed.

Lemma fast_path_all_atoms_witness :
  UsFusion.determine_statespace_wrapped Locations.atom_list None []
  = let* H0 := UsFusion.get_weight_matrix Locations.atom_list None (UsFusion.atoms []) in
    let* W0 := UsFusion.get_weight_matrix (UsFusion.all_locations []) None
                 (UsFusion.atoms []) in
    let* H := astype_float H0 in
    let* W := astype_float W0 in
    Return (H, W, UsFusion.all_locations []).
Proof.
  apply (fast_path_returns_H0_W0 Locations.region_map Locations.region_list
           Locations.atom_list populations.get_population Locations.atom_list None []).
  - apply (bool_decide_unpack _). vm_compute. exact I.
  - apply (bool_decide_unpack _). vm_compute. exact I.
Defined.

(** C8, as the claim states it, fails: the ten HHS regions hold every atom,
    each of them once, and nothing is excluded, so that the inputs cover the
    complete atomic set; but no atom is itself an input, the subset test
    fails and the statespace is reduced. H0 is 10 x 54, the H returned is
    10 x 10, and 12 of the 75 known locations are outputs. *)
Lemma covering_inputs_are_reduced :
  list_to_set [] ∩ list_to_set Locations.hhs_list =@{gset string} ∅ /\
  members_of Locations.hhs_list ≡ₚ UsFusion.atoms [] /\
  shape <$> result_value (UsFusion.get_weight_matrix Locations.hhs_list None
                            (UsFusion.atoms []))
  = Some [10; 54]%nat /\
  statespace_shape (UsFusion.determine_statespace_wrapped Locations.hhs_list None [])
  = Some ([10; 10]%nat, [12; 10]%nat,
          ["nat"; "hhs1"; "hhs2"; "hhs3"; "hhs4"; "hhs5"; "hhs6"; "hhs7"; "hhs8";
           "hhs9"; "hhs10"; "cen1"]) /\
  UsFusion.determine_statespace_wrapped Locations.hhs_list None []
  <> (let* H0 := UsFusion.get_weight_matrix Locations.hhs_list None (UsFusion.atoms []) in
      let* W0 := UsFusion.get_weight_matrix (UsFusion.all_locations []) None
                   (UsFusion.atoms []) in
      let* H := astype_float H0 in
      let* W := astype_float W0 in
      Return (H, W, UsFusion.all_locations [])).
Proof.
  split_and!.
  - apply (bool_decide_unpack _). vm_compute. exact I.
  - apply (bool_decide_unpack _). vm_compute. exact I.
  - vm_compute. reflexivity.
  - vm_compute. reflexivity.
  - intros Heq. apply (f_equal statespace_shape) in Heq.
    vm_compute in Heq. discriminate Heq.
Qed.

(** Inputs that span the atoms without naming each of them fail the subset
    test as well. With the exclusions of config.py five atoms are left; the
    rows of pa, va, hhs3, nc and hhs4 have rank 5, but sc and wv are no
    inputs, so that the two eliminations run. The rank being full, what they
    return has the entries of H0 and W0 and every location as output. *)
Lemma spanning_inputs_are_eliminated :
  UsFusion.atoms excluded_in_order = ["nc"; "pa"; "sc"; "va"; "wv"] /\
  ~ list_to_set (UsFusion.atoms excluded_in_order)
      ⊆@{gset string} list_to_set ["pa"; "va"; "hhs3"; "nc"; "hhs4"] /\
  result_value
    (let* H0 := UsFusion.get_weight_matrix ["pa"; "va"; "hhs3"; "nc"; "hhs4"] None
                  (UsFusion.atoms excluded_in_order) in
     let* (size, rank, Bi) := basis_inverse H0 in
     Return (size, rank))
  = Some (5, 5)%nat /\
  statespace_entries
    (UsFusion.determine_statespace_wrapped ["pa"; "va"; "hhs3"; "nc"; "hhs4"] None
       excluded_in_order)
  = statespace_entries
      (let* H0 := UsFusion.get_weight_matrix ["pa"; "va"; "hhs3"; "nc"; "hhs4"] None
                    (UsFusion.atoms excluded_in_order) in
       let* W0 := UsFusion.get_weight_matrix (UsFusion.all_locations excluded_in_order)
                    None (UsFusion.atoms excluded_in_order) in
       let* H := astype_float H0 in
       let* W := astype_float W0 in
       Return (H, W, UsFusion.all_locations excluded_in_order)).
Proof.
  split_and!.
  - vm_compute. reflexivity.
  - apply (bool_decide_unpack _). vm_compute. exact I.
  - vm_compute. reflexivity.
  - vm_compute. reflexivity.
Qed.

(** Whatever the calls made before, [determine_statespace] returns what the
    function under the decorator computes for its arguments. *)
Lemma determine_statespace_returns_wrapped (history : list UsFusion.key)
    (k : UsFusion.key) :
  (UsFusion.determine_statespace (UsFusion.cache_after history) k).1.2
  = UsFusion.call_wrapped k.
Proof. apply lru_call_result, lru_run_ok, cache_ok_nil. Qed.

(** ** Determined outputs (C2) *)

Lemma Qc_nonneg_sum_zero (a b : Qc) :
  (0 <= a)%Qc -> (0 <= b)%Qc -> (a + b = 0)%Qc -> a = 0%Qc /\ b = 0%Qc.
Proof.
  intros Ha Hb Hab.
  assert (Ha0 : a = 0%Qc).
  { apply Qcle_antisym; [|done]. rewrite <- Hab.
    rewrite <- (Qcplus_0_r a) at 1. apply Qcplus_le_compat; [apply Qcle_refl | done]. }
  split; [done|]. subst a. by rewrite Qcplus_0_l in Hab.
Qed.

Lemma foldl_Qcplus_shift (acc : Qc) (l : list Qc) :
  foldl Qcplus acc l = (acc + foldl Qcplus 0 l)%Qc.
Proof.
  revert acc. induction l as [|x l IH]; simpl; intros acc.
  - ring.
  - rewrite (IH (acc + x)%Qc), (IH (0 + x)%Qc). ring.
Qed.

Lemma sum_abs_cons x row : sum_abs (x :: row) = (Qcabs x + sum_abs row)%Qc.
Proof. unfold sum_abs. rewrite fmap_cons. cbn [foldl]. rewrite foldl_Qcplus_shift. ring. Qed.

Lemma sum_abs_nonneg row : (0 <= sum_abs row)%Qc.
Proof.
  induction row as [|x row IH]; [done|].
  rewrite sum_abs_cons. rewrite <- (Qcplus_0_r 0).
  apply Qcplus_le_compat; [apply Qcabs_nonneg | done].
Qed.

(** The sum of the absolute values of a row is 0 exactly when every entry of
    the row is 0. *)
Lemma sum_abs_zero row : sum_abs row = 0%Qc <-> Forall (fun x => x = 0%Qc) row.
Proof.
  induction row as [|x row IH].
  - split; [constructor | done].
  - rewrite sum_abs_cons. split.
    + intros H. apply Qc_nonneg_sum_zero in H as (Hx & Hrow);
        [|apply Qcabs_nonneg|apply sum_abs_nonneg].
      constructor; [by apply Qcabs_null | by apply IH].
    + intros H. inversion H as [|? ? Hx Hrow]; subst.
      apply IH in Hrow. rewrite Hrow. done.
Qed.



Lemma seq_StronglySorted a n : StronglySorted lt (seq a n).
Proof.
  revert a. induction n as [|n IH]; intros a; simpl; constructor; [apply IH|].
  apply Forall_forall. intros x Hx%list_elem_of_In%in_seq. lia.
Qed.

Lemma filter_StronglySorted {A} (R : A -> A -> Prop) (P : A -> Prop)
    `{!forall x, Decision (P x)} (l : list A) :
  StronglySorted R l -> StronglySorted R (filter P l).
Proof.
  induction 1 as [|x l Hs IH Hall]; [constructor|].
  rewrite filter_cons. case_decide; [|done].
  constructor; [done|]. apply Forall_forall. intros y Hy%list_elem_of_filter.
  rewrite Forall_forall in Hall. apply Hall, Hy.
Qed.


(** ** The scenario of three atoms (C1) *)

(** C1, as the code has it: the rank is 1 and none of {a}, {b}, {c}, {a,b,c}
    is kept; H is the 1 x 1 matrix [[1/2]] and W has no row. With {a,b} added
    to the outputs, {a,b} is the only output kept. *)
Theorem scenario_keeps_no_output :
  (array_values <$> result_value (scenario_matrix ["ab"])
     = Some (Some (3%nat, [[1 # 2; 1 # 2; 0]]%Q))) /\
  statespace_values (scenario_statespace ["a"; "b"; "c"; "abc"])
    = Some (1%nat, Some (1%nat, [[1 # 2]]%Q), Some (1%nat, []), []) /\
  statespace_values (scenario_statespace ["a"; "b"; "c"; "ab"; "abc"])
    = Some (1%nat, Some (1%nat, [[1 # 2]]%Q), Some (1%nat, [[1 # 2]]%Q), ["ab"]).
Proof. split_and!; vm_compute; reflexivity. Qed.

(** C1, as the claim states it, fails: {a,b,c} is not kept (nor is {a,b}
    among the outputs of the scenario). *)
Lemma scenario_drops_abc :
  exists rank H W outs,
    scenario_statespace ["a"; "b"; "c"; "abc"] = Return (rank, H, W, outs) /\
    rank = 1%nat /\ ("abc" ∉ outs) /\ outs <> ["ab"; "abc"].
Proof.
  destruct (scenario_statespace ["a"; "b"; "c"; "abc"])
    as [[[[rank H] W] outs]|e] eqn:Hs;
    apply (f_equal statespace_values) in Hs; vm_compute in Hs; [|discriminate Hs].
  exists rank, H, W, outs. inversion Hs; subst.
  split_and!; [done | done | by intros ?%elem_of_nil | done].
Qed.

Lemma scenario_HW_rows : scenario_HW.2 = [3%nat].
Proof. vm_compute. reflexivity. Qed.

(** ** The elimination (C5, C6) *)

(** *** Entries of updated rows *)

Lemma entry_outside (X : list (list Qc)) i j :
  (length X <= i)%nat -> entry X i j = 0%Qc.
Proof.
  intros Hi. unfold entry. rewrite (list_lookup_total_alt X), lookup_ge_None_2 by done.
  done.
Qed.

Lemma entry_beyond num_c (X : list (list Qc)) i j :
  rectangular num_c X -> (num_c <= j)%nat -> entry X i j = 0%Qc.
Proof.
  intros Hrect Hj. unfold entry.
  destruct (X !! i) as [row|] eqn:Hi.
  - rewrite (list_lookup_total_correct _ _ _ Hi).
    rewrite list_lookup_total_alt, lookup_ge_None_2; [done|].
    unfold rectangular in Hrect. rewrite Forall_lookup in Hrect.
    by rewrite (Hrect _ _ Hi).
  - rewrite (list_lookup_total_alt X), Hi. done.
Qed.

Lemma rectangular_lookup_total num_c (X : list (list Qc)) i :
  rectangular num_c X -> (i < length X)%nat -> length (X !!! i) = num_c.
Proof.
  intros Hrect Hi. apply lookup_lt_is_Some in Hi as [row Hrow].
  rewrite (list_lookup_total_correct _ _ _ Hrow).
  unfold rectangular in Hrect. rewrite Forall_lookup in Hrect. eauto.
Qed.

Lemma rectangular_insert num_c (X : list (list Qc)) i row :
  rectangular num_c X -> length row = num_c -> rectangular num_c (<[i:=row]> X).
Proof. intros Hrect Hrow. by apply Forall_insert. Qed.

Lemma entry_insert (X : list (list Qc)) i row k j :
  (i < length X)%nat ->
  entry (<[i:=row]> X) k j = if decide (k = i) then row !!! j else entry X k j.
Proof.
  intros Hi. unfold entry. case_decide as Hk.
  - subst k. by rewrite list_lookup_total_insert_eq.
  - by rewrite list_lookup_total_insert_ne.
Qed.

(** A row changed from column [c] on by [g], entry by entry. *)
Lemma lookup_total_changed_from (g : Qc -> Qc) c (row : list Qc) j :
  g 0%Qc = 0%Qc ->
  (take c row ++ (g <$> drop c row)) !!! j
  = if decide (j < c)%nat then row !!! j else g (row !!! j).
Proof.
  intros Hg. rewrite !list_lookup_total_alt.
  case_decide as Hj.
  - destruct (decide (j < length row)%nat).
    + rewrite lookup_app_l by (rewrite length_take; lia).
      by rewrite lookup_take_lt.
    + rewrite !lookup_ge_None_2; [done|lia|].
      rewrite length_app, length_take, length_fmap, length_drop. lia.
  - destruct (decide (j < length row)%nat).
    + rewrite lookup_app_r by (rewrite length_take; lia).
      rewrite length_take, list_lookup_fmap, lookup_drop.
      replace (c + (j - c `min` length row))%nat with j by lia.
      by destruct (row !! j).
    + rewrite !lookup_ge_None_2; [exact (eq_sym Hg)|lia|].
      rewrite length_app, length_take, length_fmap, length_drop. lia.
Qed.

Lemma lookup_total_combined_from (g : Qc -> Qc -> Qc) c (row other : list Qc) j :
  g 0%Qc 0%Qc = 0%Qc -> length row = length other ->
  (take c row ++ zip_with g (drop c row) (drop c other)) !!! j
  = if decide (j < c)%nat then row !!! j else g (row !!! j) (other !!! j).
Proof.
  intros Hg Hlen. rewrite !list_lookup_total_alt.
  case_decide as Hj.
  - destruct (decide (j < length row)%nat).
    + rewrite lookup_app_l by (rewrite length_take; lia).
      by rewrite lookup_take_lt.
    + rewrite !lookup_ge_None_2; [done|lia|].
      rewrite length_app, length_take, length_zip_with, !length_drop. lia.
  - destruct (decide (j < length row)%nat).
    + rewrite lookup_app_r by (rewrite length_take; lia).
      rewrite length_take, lookup_zip_with, !lookup_drop.
      replace (c + (j - c `min` length row))%nat with j by lia.
      destruct (lookup_lt_is_Some_2 row j) as [x ->]; [done|].
      destruct (lookup_lt_is_Some_2 other j) as [y ->]; [lia|]. done.
    + rewrite !lookup_ge_None_2; [exact (eq_sym Hg)|lia|lia|].
      rewrite length_app, length_take, length_zip_with, !length_drop. lia.
Qed.

Lemma length_changed_from (g : Qc -> Qc) c (row : list Qc) :
  length (take c row ++ (g <$> drop c row)) = length row.
Proof. rewrite length_app, length_take, length_fmap, length_drop. lia. Qed.

Lemma length_combined_from (g : Qc -> Qc -> Qc) c (row other : list Qc) :
  length row = length other ->
  length (take c row ++ zip_with g (drop c row) (drop c other)) = length row.
Proof. intros. rewrite length_app, length_take, length_zip_with, !length_drop. lia. Qed.

(** *** The three row operations *)

Section row_operations.

Context (num_c : nat).

Lemma swap_rows_shape i r X :
  rectangular num_c X -> (i < length X)%nat -> (r < length X)%nat ->
  rectangular num_c (swap_rows i r X) /\ length (swap_rows i r X) = length X.
Proof.
  intros Hrect Hi Hr. unfold swap_rows. split.
  - apply rectangular_insert; [apply rectangular_insert|]; try done;
      by apply rectangular_lookup_total.
  - by rewrite !length_insert.
Qed.

Lemma entry_swap_rows i r X k j :
  (i < length X)%nat -> (r < length X)%nat ->
  entry (swap_rows i r X) k j
  = entry X (if decide (k = r) then i else if decide (k = i) then r else k) j.
Proof.
  intros Hi Hr. unfold swap_rows.
  rewrite entry_insert by (by rewrite length_insert).
  case_decide; [done|]. rewrite entry_insert by done. by case_decide.
Qed.

Lemma divide_row_shape r c X :
  rectangular num_c X -> (r < length X)%nat ->
  rectangular num_c (divide_row r c X) /\ length (divide_row r c X) = length X.
Proof.
  intros Hrect Hr. unfold divide_row. split.
  - apply rectangular_insert; [done|].
    rewrite length_changed_from. by apply rectangular_lookup_total.
  - by rewrite length_insert.
Qed.

Lemma entry_divide_row r c X k j :
  (r < length X)%nat ->
  entry (divide_row r c X) k j
  = if decide (k = r /\ c <= j)%nat then (entry X r j / entry X r c)%Qc else entry X k j.
Proof.
  intros Hr. unfold divide_row. rewrite entry_insert by done.
  destruct (decide (k = r)) as [->|Hk].
  - rewrite lookup_total_changed_from by (unfold Qcdiv; ring).
    repeat case_decide; try done; lia.
  - case_decide; [lia|done].
Qed.

Lemma subtract_row_shape r c X i :
  rectangular num_c X -> (i < length X)%nat -> (r < length X)%nat ->
  rectangular num_c (subtract_row r c X i) /\ length (subtract_row r c X i) = length X.
Proof.
  intros Hrect Hi Hr. unfold subtract_row. split.
  - apply rectangular_insert; [done|].
    rewrite length_combined_from; [by apply rectangular_lookup_total|].
    by rewrite !(rectangular_lookup_total num_c).
  - by rewrite length_insert.
Qed.

Lemma entry_subtract_row r c X i k j :
  rectangular num_c X -> (i < length X)%nat -> (r < length X)%nat ->
  entry (subtract_row r c X i) k j
  = if decide (k = i /\ c <= j)%nat
    then (entry X i j - entry X i c * entry X r j)%Qc else entry X k j.
Proof.
  intros Hrect Hi Hr. unfold subtract_row. rewrite entry_insert by done.
  destruct (decide (k = i)) as [->|Hk].
  - rewrite lookup_total_combined_from;
      [|ring|by rewrite !(rectangular_lookup_total num_c)].
    repeat case_decide; try done; lia.
  - case_decide; [lia|done].
Qed.

(** The rows of [rows] cleared with row [r], which is not among them. *)
Lemma subtract_rows_shape r c rows X :
  rectangular num_c X -> (r < length X)%nat ->
  Forall (fun i => i < length X)%nat rows ->
  rectangular num_c (foldl (subtract_row r c) X rows) /\
  length (foldl (subtract_row r c) X rows) = length X.
Proof.
  revert X. induction rows as [|i rows IH]; simpl; intros X Hrect Hr Hrows; [done|].
  inversion Hrows as [|? ? Hi Hrows']; subst.
  destruct (subtract_row_shape r c X i) as [Hrect' Hlen']; try done.
  destruct (IH (subtract_row r c X i)) as [? ?]; try done.
  - by rewrite Hlen'.
  - by rewrite Hlen'.
  - split; [done|congruence].
Qed.

Lemma entry_subtract_rows r c rows X k j :
  rectangular num_c X -> (r < length X)%nat ->
  Forall (fun i => i < length X)%nat rows -> NoDup rows -> r ∉ rows ->
  entry (foldl (subtract_row r c) X rows) k j
  = if decide (k ∈ rows /\ c <= j)%nat
    then (entry X k j - entry X k c * entry X r j)%Qc else entry X k j.
Proof.
  revert X. induction rows as [|i rows IH]; cbn [foldl]; intros X Hrect Hr Hrows Hnd Hnot.
  - rewrite decide_False; [done|]. by intros [H%elem_of_nil _].
  - inversion Hrows as [|? ? Hi Hrows']; subst.
    apply NoDup_cons in Hnd as [Hi_fresh Hnd].
    apply not_elem_of_cons in Hnot as [Hri Hnot].
    destruct (subtract_row_shape r c X i) as [Hrect' Hlen']; try done.
    rewrite IH; try done; [|by rewrite Hlen'|by rewrite Hlen'].
    rewrite !(entry_subtract_row r c X i) by done.
    assert (Hmem : k ∈ i :: rows <-> k = i \/ k ∈ rows) by apply elem_of_cons.
    clear IH. destruct (decide (k = i)) as [->|Hki];
      repeat case_decide; try done; exfalso; intuition (subst; eauto).
Qed.

End row_operations.

(** *** The forward phase *)

Lemma nonzero_spec x : nonzero x = true <-> x <> 0%Qc.
Proof.
  unfold nonzero. rewrite negb_true_iff, Z.eqb_neq. split.
  - intros Hn ->. by apply Hn.
  - intros Hx Hn. apply Hx. apply Qc_is_canon. unfold Qeq. simpl. lia.
Qed.

Lemma nonzero_false x : nonzero x = false <-> x = 0%Qc.
Proof.
  rewrite <- not_true_iff_false, nonzero_spec.
  destruct (decide (x = 0%Qc)); naive_solver.
Qed.

Lemma argmax_from_range best besti i l :
  argmax_from best besti i l = besti \/
  (i <= argmax_from best besti i l < i + length l)%nat.
Proof.
  revert best besti i. induction l as [|x l IH]; simpl; intros best besti i; [by left|].
  destruct (Qclt_le_dec best x).
  - destruct (IH x i (S i)) as [->|?]; right; lia.
  - destruct (IH best besti (S i)) as [->|?]; [by left | right; lia].
Qed.

Lemma argmax_lt l : l <> [] -> (argmax l < length l)%nat.
Proof.
  destruct l as [|x l]; [done|]. intros _. simpl.
  destruct (argmax_from_range x 0 1 l) as [->|?]; lia.
Qed.

(** Nothing beats a first entry that is at least as large as the others. *)
Lemma argmax_from_le best besti i l :
  Forall (fun x => (x <= best)%Qc) l -> argmax_from best besti i l = besti.
Proof.
  revert i. induction l as [|x l IH]; simpl; intros i Hall; [done|].
  inversion Hall as [|? ? Hx Hl]; subst.
  destruct (Qclt_le_dec best x) as [Hlt|_]; [|by apply IH].
  by apply Qclt_not_le in Hlt.
Qed.

Lemma column_length c (X : list (list Qc)) : length (column c X) = length X.
Proof. unfold column. by rewrite length_fmap. Qed.

Lemma pivot_index_range r c X i :
  (r < length X)%nat -> pivot_index r c X = Return i -> (r <= i < length X)%nat.
Proof.
  intros Hr. unfold pivot_index. intros Hp.
  apply bind_Return in Hp as (values & Hv & Hp). inversion Hp; subst i.
  apply mapM_Return_length in Hv. rewrite column_length, length_drop in Hv.
  assert (argmax (Qcabs <$> values) < length (Qcabs <$> values))%nat.
  { apply argmax_lt. intros Hnil. apply (f_equal length) in Hnil.
    rewrite length_fmap in Hnil. simpl in Hnil. lia. }
  rewrite length_fmap in *. lia.
Qed.

Lemma forward_step_shape num_c r c i X :
  rectangular num_c X -> (r <= i < length X)%nat ->
  rectangular num_c (forward_step (length X) r c i X) /\
  length (forward_step (length X) r c i X) = length X.
Proof.
  intros Hrect Hi. unfold forward_step.
  set (X1 := if bool_decide (i ≠ r) then swap_rows i r X else X).
  assert (H1 : rectangular num_c X1 /\ length X1 = length X).
  { unfold X1. case_bool_decide; [|done]. apply swap_rows_shape; [done|lia|lia]. }
  destruct H1 as [Hrect1 Hlen1].
  destruct (divide_row_shape num_c r c X1) as [Hrect2 Hlen2]; [done|lia|].
  destruct (subtract_rows_shape num_c r c (seq (S r) (length X - S r)) (divide_row r c X1))
    as [Hrect3 Hlen3]; [done|lia| |].
  - apply Forall_seq. intros. lia.
  - split; [done|lia].
Qed.

Lemma forward_step_inv num_c ps r c i X :
  forward_inv num_c ps r c X -> (r <= i < length X)%nat ->
  entry X i c <> 0%Qc -> (c < num_c)%nat ->
  forward_inv num_c (ps ++ [c]) (S r) (S c) (forward_step (length X) r c i X).
Proof.
  intros [Hrect Hrank Hrows Hsorted Hleft Hpivot Hbelow] Hi Hne Hc.
  destruct (forward_step_shape num_c r c i X) as [Hrect' Hlen']; [done|done|].
  assert (Hentry : forall k j,
    entry (forward_step (length X) r c i X) k j
    = if decide (k = r) then
        if decide (c <= j)%nat then (entry X i j / entry X i c)%Qc else entry X i j
      else if decide (r < k < length X /\ c <= j)%nat then
        (entry X (if decide (k = i) then r else k) j
         - entry X (if decide (k = i) then r else k) c * (entry X i j / entry X i c))%Qc
      else entry X (if decide (k = i) then r else k) j).
  { intros k j. unfold forward_step.
    set (X1 := if bool_decide (i ≠ r) then swap_rows i r X else X).
    assert (H1 : rectangular num_c X1 /\ length X1 = length X).
    { unfold X1. case_bool_decide; [|done]. apply swap_rows_shape; [done|lia|lia]. }
    destruct H1 as [Hrect1 Hlen1].
    assert (Hsw : forall k j, entry X1 k j
      = entry X (if decide (k = r) then i else if decide (k = i) then r else k) j).
    { intros k' j'. unfold X1. case_bool_decide as Hir.
      - apply entry_swap_rows; lia.
      - subst i. repeat case_decide; by subst. }
    destruct (divide_row_shape num_c r c X1) as [Hrect2 Hlen2]; [done|lia|].
    rewrite (entry_subtract_rows num_c); try done; [|lia|apply Forall_seq; intros; lia
      |apply NoDup_seq|rewrite elem_of_seq; lia].
    rewrite !entry_divide_row by lia. rewrite !Hsw.
    destruct (decide (k ∈ seq (S r) (length X - S r) /\ (c <= j)%nat))
      as [[Hk%elem_of_seq Hcj]|Hnk]; [|rewrite elem_of_seq in Hnk];
      repeat case_decide; subst; try done; exfalso; lia. }
  split.
  - done.
  - rewrite length_app. simpl. lia.
  - lia.
  - apply StronglySorted_app_2; [|done|repeat constructor].
    intros p q Hp Hq%list_elem_of_singleton. subst q.
    rewrite Forall_forall in Hleft. by apply Hleft.
  - apply Forall_app. split.
    + eapply Forall_impl; [done|]. simpl. intros; lia.
    + repeat constructor.
  - intros k p Hk. destruct (decide (k < r)%nat) as [Hlt|Hge].
    + rewrite lookup_app_l in Hk by lia.
      destruct (Hpivot k p Hk) as [H1 H0].
      assert (p < c)%nat.
      { rewrite Forall_forall in Hleft. eapply Hleft, list_elem_of_lookup_2, Hk. }
      split.
      * rewrite Hentry. repeat case_decide; try lia; done.
      * intros j Hj. rewrite Hentry. repeat case_decide; try lia; by apply H0.
    + rewrite lookup_app_r in Hk by lia.
      destruct (k - length ps)%nat as [|?] eqn:Hk'; [|done].
      inversion Hk; subst p. assert (k = r) as -> by lia.
      split.
      * rewrite Hentry. rewrite !decide_True by lia.
        unfold Qcdiv. by apply Qcmult_inv_r.
      * intros j Hj. rewrite Hentry. rewrite decide_True, decide_False by lia.
        apply Hbelow; lia.
  - intros k j Hk Hj. destruct (decide (k < length X)%nat) as [Hin|Hout].
    + rewrite Hentry. rewrite decide_False by lia.
      assert (Hz : forall j', (j' < c)%nat ->
                entry X (if decide (k = i) then r else k) j' = 0%Qc).
      { intros j' Hj'. apply Hbelow; [case_decide; lia | done]. }
      destruct (decide (j < c)%nat).
      * rewrite decide_False by lia. by apply Hz.
      * assert (j = c) as -> by lia. rewrite decide_True by lia.
        unfold Qcdiv. rewrite Qcmult_inv_r by done. ring.
    + apply entry_outside. lia.
Qed.

Lemma forallb_column_zero X r c n :
  forallb (fun k => negb (nonzero (entry X k c))) (seq r n) = true ->
  forall k, (r <= k < r + n)%nat -> entry X k c = 0%Qc.
Proof.
  rewrite forallb_forall. intros Hall k Hk.
  apply nonzero_false, negb_true_iff, Hall, in_seq. lia.
Qed.

(** With every pivot found, the forward phase ends in row echelon form. *)
Lemma forward_echelon num_c todo : forall num_r ps r c X R,
  forward_inv num_c ps r c X -> (c + todo = num_c)%nat -> length X = num_r ->
  forward num_r todo r c X = Return R ->
  pivots_found num_r todo r c X = true ->
  length R = num_r /\ exists ps', echelon num_c ps' R.
Proof.
  induction todo as [|todo IH]; intros num_r ps r c X R Hinv Hc Hlen Hf Hpf; subst num_r.
  - simpl in Hf. inversion Hf; subst R. split; [done|]. exists ps.
    destruct Hinv as [Hrect Hrank Hrows Hsorted Hleft Hpivot Hbelow].
    split; try done.
    + lia.
    + eapply Forall_impl; [done|]. simpl. intros; lia.
    + intros i j Hi. destruct (decide (j < num_c)%nat).
      * apply Hbelow; lia.
      * eapply entry_beyond; [done|lia].
  - simpl in Hf, Hpf. case_bool_decide as Hr.
    + apply bind_Return in Hf as (i & Hi & Hf). rewrite Hi in Hpf.
      pose proof (pivot_index_range r c X i Hr Hi) as Hrange.
      destruct (nonzero (entry X i c)) eqn:Hnz.
      * apply nonzero_spec in Hnz.
        pose proof (forward_step_inv num_c ps r c i X Hinv Hrange Hnz ltac:(lia)) as Hinv'.
        destruct (forward_step_shape num_c r c i X) as [_ Hlen']; [apply Hinv|done|].
        apply (IH (length X) _ _ _ _ _ Hinv' ltac:(lia) Hlen' Hf Hpf).
      * apply andb_true_iff in Hpf as [Hcol Hpf].
        eapply (IH (length X) ps r (S c)); [|lia|done|done|done].
        destruct Hinv as [Hrect Hrank Hrows Hsorted Hleft Hpivot Hbelow].
        split; try done.
        -- eapply Forall_impl; [done|]. simpl. intros; lia.
        -- intros k j Hk Hj. destruct (decide (j < c)%nat); [by apply Hbelow|].
           assert (j = c) as -> by lia.
           destruct (decide (k < length X)%nat); [|apply entry_outside; lia].
           eapply forallb_column_zero; [done|lia].
    + inversion Hf; subst R. split; [done|]. exists ps.
      destruct Hinv as [Hrect Hrank Hrows Hsorted Hleft Hpivot Hbelow].
      split; try done.
      * lia.
      * eapply Forall_impl; [done|]. simpl. intros; lia.
      * intros i j Hi. apply entry_outside. lia.
Qed.

(** *** The backward phase *)

Lemma first_nonzero_Some row c : first_nonzero row = Some c <-> leading_column row c.
Proof.
  unfold first_nonzero, leading_column. split.
  - intros Hf. destruct (list_find _ row) as [[c' x]|] eqn:Hfind; [|done].
    simpl in Hf. inversion Hf; subst c'.
    apply list_find_Some in Hfind as (Hx & Hnz & Hbefore). split.
    + exists x. split; [done|]. by apply nonzero_spec.
    + intros j y Hj Hy. apply nonzero_false.
      specialize (Hbefore j y Hy Hj). by destruct (nonzero y).
  - intros [(x & Hx & Hnz) Hbefore].
    assert (Hfind : list_find (fun x => nonzero x = true) row = Some (c, x)).
    { apply list_find_Some. split_and!; [done|by apply nonzero_spec|].
      intros j y Hy Hj Hnzy. apply nonzero_spec in Hnzy. apply Hnzy. by eapply Hbefore. }
    by rewrite Hfind.
Qed.

Lemma first_nonzero_None row :
  first_nonzero row = None <-> Forall (fun x => x = 0%Qc) row.
Proof.
  unfold first_nonzero. split.
  - intros Hf. destruct (list_find _ row) as [[c' x]|] eqn:Hfind; [done|].
    apply list_find_None in Hfind. eapply Forall_impl; [done|].
    simpl. intros x Hx. apply nonzero_false. by destruct (nonzero x).
  - intros Hall. assert (Hfind : list_find (fun x => nonzero x = true) row = None).
    { apply list_find_None. eapply Forall_impl; [done|].
      simpl. intros x -> Hnz. by apply nonzero_spec in Hnz. }
    by rewrite Hfind.
Qed.

Lemma leading_column_unique row c c' :
  leading_column row c -> leading_column row c' -> c = c'.
Proof.
  intros [(x & Hx & Hnz) Hb] [(x' & Hx' & Hnz') Hb'].
  destruct (Nat.lt_trichotomy c c') as [Hlt|[->|Hgt]]; [|done|].
  - exfalso. apply Hnz. by eapply Hb'.
  - exfalso. apply Hnz'. by eapply Hb.
Qed.

Lemma lookup_entry num_c (X : list (list Qc)) i row j :
  rectangular num_c X -> X !! i = Some row -> (j < num_c)%nat ->
  row !! j = Some (entry X i j).
Proof.
  intros Hrect Hi Hj. unfold entry. rewrite (list_lookup_total_correct _ _ _ Hi).
  apply list_lookup_lookup_total_lt.
  unfold rectangular in Hrect. rewrite Forall_lookup in Hrect.
  by rewrite (Hrect _ _ Hi).
Qed.

Lemma lookup_entry_Some num_c (X : list (list Qc)) i row j y :
  rectangular num_c X -> X !! i = Some row -> row !! j = Some y ->
  (j < num_c)%nat /\ y = entry X i j.
Proof.
  intros Hrect Hi Hj.
  assert (j < num_c)%nat.
  { apply lookup_lt_Some in Hj. unfold rectangular in Hrect.
    rewrite Forall_lookup in Hrect. by rewrite (Hrect _ _ Hi) in Hj. }
  split; [done|]. rewrite (lookup_entry num_c X i row j) in Hj by done. congruence.
Qed.

(** The leading column of a row of an echelon matrix is its pivot column. *)
Lemma echelon_leading num_c ps X k p row :
  echelon num_c ps X -> ps !! k = Some p -> X !! k = Some row ->
  leading_column row p.
Proof.
  intros [Hrect Hrank Hsorted Hcols Hpivot Hzero] Hk Hrow.
  destruct (Hpivot k p Hk) as [H1 H0].
  assert (p < num_c)%nat.
  { rewrite Forall_forall in Hcols. eapply Hcols, list_elem_of_lookup_2, Hk. }
  split.
  - exists 1%Qc. split; [|done]. rewrite <- H1. by eapply lookup_entry.
  - intros j y Hj Hy.
    destruct (lookup_entry_Some num_c X k row j y) as [_ ->]; try done. by apply H0.
Qed.

Lemma echelon_zero_row num_c ps X i row :
  echelon num_c ps X -> (length ps <= i)%nat -> X !! i = Some row ->
  Forall (fun x => x = 0%Qc) row.
Proof.
  intros [Hrect Hrank Hsorted Hcols Hpivot Hzero] Hi Hrow.
  apply Forall_lookup. intros j y Hy.
  destruct (lookup_entry_Some num_c X i row j y) as [_ ->]; try done. by apply Hzero.
Qed.

Lemma sorted_lookup_lt (ps : list nat) k k' p p' :
  StronglySorted lt ps -> ps !! k = Some p -> ps !! k' = Some p' ->
  (k < k')%nat -> (p < p')%nat.
Proof.
  intros Hs Hk Hk' Hlt.
  rewrite <- (take_drop_middle _ _ _ Hk) in Hs, Hk'.
  apply StronglySorted_app in Hs as (_ & _ & Hs).
  apply StronglySorted_cons in Hs as [Hall _].
  rewrite Forall_forall in Hall. apply Hall.
  assert (Hlen : length (take k ps) = k).
  { rewrite length_take. apply lookup_lt_Some in Hk. lia. }
  rewrite lookup_app_r in Hk' by lia. rewrite Hlen in Hk'.
  destruct (k' - k)%nat as [|d] eqn:Hd; [lia|]. simpl in Hk'.
  by eapply list_elem_of_lookup_2.
Qed.

Lemma back_row_inv num_c ps X r :
  echelon num_c ps X -> (r < length X)%nat -> cleared_from (S r) ps X ->
  echelon num_c ps (back_row X r) /\ cleared_from r ps (back_row X r) /\
  length (back_row X r) = length X.
Proof.
  intros Hech Hr Hcl. pose proof Hech as [Hrect Hrank Hsorted Hcols Hpivot Hzero].
  destruct (lookup_lt_is_Some_2 X r Hr) as [row Hrow].
  unfold back_row. rewrite (list_lookup_total_correct _ _ _ Hrow).
  destruct (ps !! r) as [p|] eqn:Hp.
  - assert (Hlead : first_nonzero row = Some p).
    { apply first_nonzero_Some. by eapply echelon_leading. }
    rewrite Hlead.
    assert (Hrows : Forall (fun i => (i < length X)%nat) (reverse (seq 0 r))).
    { apply Forall_forall. intros i Hi%elem_of_reverse%elem_of_seq. lia. }
    assert (Hnd : NoDup (reverse (seq 0 r))).
    { rewrite reverse_Permutation. apply NoDup_seq. }
    assert (Hnot : r ∉ reverse (seq 0 r)).
    { intros Hi%elem_of_reverse%elem_of_seq. lia. }
    destruct (subtract_rows_shape num_c r p (reverse (seq 0 r)) X) as [Hrect' Hlen'];
      try done.
    assert (Hentry : forall k j,
      entry (foldl (subtract_row r p) X (reverse (seq 0 r))) k j
      = if decide (k < r /\ p <= j)%nat
        then (entry X k j - entry X k p * entry X r j)%Qc else entry X k j).
    { intros k j. rewrite (entry_subtract_rows num_c) by done.
      destruct (decide (k ∈ reverse (seq 0 r) /\ (p <= j)%nat))
        as [[Hk%elem_of_reverse%elem_of_seq Hpj]|Hnk].
      - rewrite decide_True by lia. done.
      - rewrite decide_False; [done|]. intros [? ?]. apply Hnk. split; [|done].
        apply elem_of_reverse, elem_of_seq. lia. }
    destruct (Hpivot r p Hp) as [Hrp1 Hrp0].
    split_and!; [split; try done| |done].
    + by rewrite Hlen'.
    + intros k q Hk. destruct (Hpivot k q Hk) as [H1 H0].
      split.
      * rewrite Hentry. case_decide as Hd; [|done].
        assert (q < p)%nat by (eapply sorted_lookup_lt; [done|exact Hk|exact Hp|lia]). lia.
      * intros j Hj. rewrite Hentry. case_decide as Hd; [|by apply H0].
        assert (q < p)%nat by (eapply sorted_lookup_lt; [done|exact Hk|exact Hp|lia]). lia.
    + intros i j Hi. rewrite Hentry. rewrite decide_False; [by apply Hzero|].
      apply lookup_lt_Some in Hp. lia.
    + intros k q i Hk Hrk Hik. rewrite Hentry.
      destruct (decide (k = r)) as [->|Hne].
      * assert (q = p) as -> by congruence.
        rewrite decide_True by lia. rewrite Hrp1. ring.
      * assert (Hiq : entry X i q = 0%Qc) by (eapply Hcl; [done|lia|lia]).
        assert (Hrq : entry X r q = 0%Qc) by (eapply Hcl; [done|lia|lia]).
        case_decide; [|done]. rewrite Hiq, Hrq. ring.
  - assert (Hzero_row : first_nonzero row = None).
    { apply first_nonzero_None. eapply echelon_zero_row; [done| |done].
      by apply lookup_ge_None. }
    rewrite Hzero_row. split_and!; [done| |done].
    intros k q i Hk Hrk Hik. apply lookup_ge_None in Hp.
    apply lookup_lt_Some in Hk. lia.
Qed.

Lemma backward_inv num_c ps n : forall X,
  echelon num_c ps X -> (n <= length X)%nat -> cleared_from n ps X ->
  echelon num_c ps (backward n X) /\ cleared_from 0 ps (backward n X) /\
  length (backward n X) = length X.
Proof.
  unfold backward. induction n as [|n IH]; intros X Hech Hn Hcl; [done|].
  rewrite seq_S, reverse_app. simpl.
  destruct (back_row_inv num_c ps X n) as (Hech' & Hcl' & Hlen'); [done|lia|done|].
  destruct (IH (back_row X n)) as (? & ? & ?); [done|lia|done|].
  split_and!; [done|done|congruence].
Qed.

(** *** Reduced row echelon form *)

Lemma rref_column num_c ps X k p i :
  rref num_c ps X -> ps !! k = Some p -> i <> k -> entry X i p = 0%Qc.
Proof.
  intros [Hech Hcl] Hk Hik. pose proof Hech as [Hrect Hrank Hsorted Hcols Hpivot Hzero].
  destruct (decide (i < k)%nat); [eapply Hcl; [done|lia|done]|].
  destruct (ps !! i) as [q|] eqn:Hq.
  - destruct (Hpivot i q Hq) as [_ H0]. apply H0.
    eapply sorted_lookup_lt; [done|exact Hk|exact Hq|lia].
  - apply Hzero. by apply lookup_ge_None.
Qed.

Lemma rref_reduced_row_echelon num_c ps X :
  rref num_c ps X -> reduced_row_echelon X.
Proof.
  intros Hrref. pose proof Hrref as [Hech Hcl].
  pose proof Hech as [Hrect Hrank Hsorted Hcols Hpivot Hzero].
  intros i row c Hrow Hlead.
  destruct (ps !! i) as [p|] eqn:Hp.
  - assert (c = p) as ->.
    { eapply leading_column_unique; [done|]. by eapply echelon_leading. }
    assert (p < num_c)%nat.
    { rewrite Forall_forall in Hcols. eapply Hcols, list_elem_of_lookup_2, Hp. }
    destruct (Hpivot i p Hp) as [H1 _]. split.
    + rewrite <- H1. by eapply lookup_entry.
    + intros i' row' Hne Hrow'.
      assert (Hz : row' !! p = Some 0%Qc).
      { rewrite <- (rref_column num_c ps X i p i') by done. by eapply lookup_entry. }
      split; [done|]. intros [(x & Hx & Hnz) _]. congruence.
  - exfalso. destruct Hlead as [(x & Hx & Hnz) _].
    apply Hnz. apply (Forall_lookup_1 (fun x => x = 0%Qc) row c x); [|done].
    eapply echelon_zero_row; [done| |done]. by apply lookup_ge_None.
Qed.

Lemma forward_inv_start num_c X : rectangular num_c X -> forward_inv num_c [] 0 0 X.
Proof.
  intros Hrect. split; try done.
  - lia.
  - constructor.
  - intros i j _ Hj. lia.
Qed.

(** With every pivot found, [eliminate] ends in reduced row echelon form. *)
Lemma eliminate_rows_rref num_c X R :
  rectangular num_c X ->
  eliminate_rows num_c X = Return R ->
  pivots_found (length X) num_c 0 0 X = true ->
  length R = length X /\ exists ps, rref num_c ps R.
Proof.
  intros Hrect He Hpf. unfold eliminate_rows in He.
  apply bind_Return in He as (X' & Hf & He). inversion He; subst R.
  destruct (forward_echelon num_c num_c (length X) [] 0 0 X X')
    as [Hlen (ps & Hech)]; try done.
  { by apply forward_inv_start. }
  destruct (backward_inv num_c ps (length X) X') as (Hech' & Hcl' & Hlen'); try done.
  - lia.
  - intros k p i Hk Hle Hlt. apply lookup_lt_Some in Hk.
    pose proof (ech_rank _ _ _ Hech). lia.
  - split; [congruence|]. by exists ps.
Qed.

(** *** Elimination of a reduced row echelon form *)

Lemma of_Fraction_0 : Float64.of_Fraction 0%Qc = Return 0%Qc.
Proof. reflexivity. Qed.

Lemma of_Fraction_1 : Float64.of_Fraction 1%Qc = Return 1%Qc.
Proof.
  destruct (Float64.of_Fraction 1%Qc) as [q|e] eqn:Hq;
    apply (f_equal (fun r => match r with Return q => Some (this q) | Raise _ => None end)) in Hq;
    vm_compute in Hq; [|discriminate Hq].
  f_equal. apply Qc_is_canon. inversion Hq as [Hq'].
  change (1%Q = this q) in Hq'. rewrite <- Hq'. reflexivity.
Qed.

Lemma mapM_id {A} (f : A -> result A) (l : list A) :
  Forall (fun x => f x = Return x) l -> mapM f l = Return l.
Proof.
  induction 1 as [|x l Hx Hl IH]; simpl; [done|]. by rewrite Hx, IH.
Qed.

Lemma fmap_id_on {A} (f : A -> A) (l : list A) :
  Forall (fun x => f x = x) l -> f <$> l = l.
Proof. induction 1 as [|x l Hx Hl IH]; [done|]. rewrite fmap_cons. by rewrite Hx, IH. Qed.

Lemma zip_with_fst_on {A B} (f : A -> B -> A) (l : list A) (k : list B) :
  (forall x y, f x y = x) -> length l = length k -> zip_with f l k = l.
Proof.
  intros Hf. revert k. induction l as [|x l IH]; intros [|y k] Hlen; simpl in *; try done.
  rewrite Hf, IH; [done|lia].
Qed.

Lemma foldl_fixed {A B} (f : A -> B -> A) (a : A) (l : list B) :
  Forall (fun b => f a b = a) l -> foldl f a l = a.
Proof. induction 1 as [|b l Hb Hl IH]; simpl; [done|]. by rewrite Hb. Qed.

Section rref_fixed.

Context (num_c : nat) (ps : list nat) (X : list (list Qc)).
Context (Hrref : rref num_c ps X).

Lemma subtract_row_zero r c i :
  (i < length X)%nat -> (r < length X)%nat -> entry X i c = 0%Qc ->
  subtract_row r c X i = X.
Proof.
  intros Hi Hr Hz. destruct Hrref as [[Hrect _ _ _ _ _] _].
  unfold subtract_row. rewrite Hz. apply list_insert_id.
  rewrite zip_with_fst_on.
  - rewrite take_drop. by apply list_lookup_lookup_total_lt.
  - intros x y. ring.
  - rewrite !length_drop, !(rectangular_lookup_total num_c) by done. done.
Qed.

Lemma divide_row_one r c :
  (r < length X)%nat -> entry X r c = 1%Qc -> divide_row r c X = X.
Proof.
  intros Hr H1. unfold divide_row. rewrite H1. apply list_insert_id.
  rewrite fmap_id_on.
  - rewrite take_drop. by apply list_lookup_lookup_total_lt.
  - apply Forall_forall. intros x _. unfold Qcdiv.
    assert (Hinv : (/ 1 = 1)%Qc) by (by apply Qc_is_canon).
    rewrite Hinv. ring.
Qed.

(** The column under the cursor, as the pivot search reads it. *)
Lemma column_drop_lookup r c m :
  (r + m < length X)%nat -> column c (drop r X) !! m = Some (entry X (r + m) c).
Proof.
  intros Hm. unfold column, entry.
  rewrite list_lookup_fmap, lookup_drop.
  destruct (lookup_lt_is_Some_2 X (r + m)) as [row Hrow]; [done|].
  by rewrite Hrow, (list_lookup_total_correct _ _ _ Hrow).
Qed.

Lemma pivot_index_first r c :
  (r < length X)%nat ->
  (entry X r c = 0%Qc \/ entry X r c = 1%Qc) ->
  (forall k, (r < k < length X)%nat -> entry X k c = 0%Qc) ->
  pivot_index r c X = Return r.
Proof.
  intros Hr Hrc Hbelow. unfold pivot_index.
  assert (Hcol : exists l, column c (drop r X) = entry X r c :: l /\
                           Forall (fun x => x = 0%Qc) l).
  { destruct (column c (drop r X)) as [|x l] eqn:Hl.
    - apply (f_equal length) in Hl. rewrite column_length, length_drop in Hl.
      simpl in Hl. lia.
    - exists l. split.
      + f_equal. pose proof (column_drop_lookup r c 0 ltac:(lia)) as H0.
        rewrite Hl, Nat.add_0_r in H0. simpl in H0. congruence.
      + apply Forall_lookup. intros m y Hy.
        assert (Hm : (r + S m < length X)%nat).
        { apply lookup_lt_Some in Hy. apply (f_equal length) in Hl.
          rewrite column_length, length_drop in Hl. simpl in Hl. lia. }
        pose proof (column_drop_lookup r c (S m) Hm) as HSm.
        rewrite Hl in HSm. simpl in HSm. rewrite Hy in HSm. inversion HSm.
        apply Hbelow. lia. }
  destruct Hcol as (l & -> & Hl).
  rewrite mapM_id.
  - simpl. f_equal. rewrite argmax_from_le; [lia|].
    apply Forall_fmap. eapply Forall_impl; [done|].
    simpl. intros x ->. destruct Hrc as [->| ->]; done.
  - constructor.
    + destruct Hrc as [->| ->]; [apply of_Fraction_0 | apply of_Fraction_1].
    + eapply Forall_impl; [done|]. simpl. intros x ->. apply of_Fraction_0.
Qed.

Lemma forward_step_fixed r c :
  (r < length X)%nat -> entry X r c = 1%Qc ->
  (forall k, (r < k < length X)%nat -> entry X k c = 0%Qc) ->
  forward_step (length X) r c r X = X.
Proof.
  intros Hr H1 Hbelow. unfold forward_step.
  rewrite bool_decide_false by (by intros ?).
  rewrite divide_row_one by done.
  apply foldl_fixed, Forall_seq. intros k Hk.
  apply subtract_row_zero; [lia|done|]. apply Hbelow. lia.
Qed.

(** The forward phase leaves a reduced row echelon form as it is. The cursor
    row [r] is the number of pivot columns left of the cursor column [c]. *)
Lemma forward_fixed todo : forall r c,
  (forall k p, ps !! k = Some p -> (k < r)%nat <-> (p < c)%nat) ->
  forward (length X) todo r c X = Return X.
Proof.
  pose proof Hrref as [Hech Hcl].
  pose proof Hech as [Hrect Hrank Hsorted Hcols Hpivot Hzero].
  induction todo as [|todo IH]; intros r c Hpos; simpl; [done|].
  case_bool_decide as Hr; [|done].
  assert (Hbelow : ps !! r ≠ Some c -> forall k, (r <= k)%nat -> entry X k c = 0%Qc).
  { intros Hnp k Hk. destruct (ps !! k) as [q|] eqn:Hq.
    - destruct (Hpivot k q Hq) as [_ H0]. apply H0.
      assert (~ (q < c)%nat) by (rewrite <- Hpos by done; lia).
      destruct (decide (q = c)) as [->|]; [|lia].
      exfalso. destruct (decide (k = r)) as [->|]; [done|].
      destruct (lookup_lt_is_Some_2 ps r) as [q' Hq'].
      { apply lookup_lt_Some in Hq. lia. }
      assert (Hq'c : (q' < c)%nat) by (eapply sorted_lookup_lt; [done|exact Hq'|exact Hq|lia]).
      apply (Hpos r q' Hq') in Hq'c. lia.
    - apply Hzero. by apply lookup_ge_None. }
  destruct (decide (ps !! r = Some c)) as [Hp|Hnp].
  - destruct (Hpivot r c Hp) as [H1 _].
    assert (Hcol : forall k, (r < k < length X)%nat -> entry X k c = 0%Qc).
    { intros k Hk. eapply rref_column; [done|done|lia]. }
    rewrite pivot_index_first by (try done; by right). simpl.
    rewrite H1. rewrite forward_step_fixed by done.
    replace (nonzero 1%Qc) with true by done.
    apply IH. intros k p Hk. split; intros Hlt.
    + destruct (decide (k = r)) as [->|]; [by assert (p = c) as -> by congruence; lia|].
      assert (p < c)%nat by (apply (Hpos k p Hk); lia). lia.
    + destruct (decide (p = c)) as [->|].
      * destruct (decide (k <= r)%nat); [lia|]. exfalso.
        assert (c < c)%nat; [|lia].
        eapply sorted_lookup_lt; [done|exact Hp|exact Hk|lia].
      * assert (k < r)%nat by (apply (Hpos k p Hk); lia). lia.
  - rewrite pivot_index_first; try done.
    + simpl. rewrite (Hbelow Hnp r) by lia.
      replace (nonzero 0%Qc) with false by done.
      apply IH. intros k p Hk. rewrite (Hpos k p Hk). split; [lia|].
      intros Hlt. destruct (decide (p = c)) as [->|]; [|lia].
      exfalso. assert (Hkr : ~ (k < r)%nat) by (rewrite (Hpos k c Hk); lia).
      destruct (decide (k = r)) as [->|]; [done|].
      destruct (lookup_lt_is_Some_2 ps r) as [q' Hq'].
      { apply lookup_lt_Some in Hk. lia. }
      assert (Hq'c : (q' < c)%nat) by (eapply sorted_lookup_lt; [done|exact Hq'|exact Hk|lia]).
      apply (Hpos r q' Hq') in Hq'c. lia.
    + left. apply (Hbelow Hnp). lia.
    + intros k Hk. apply (Hbelow Hnp). lia.
Qed.

Lemma back_row_fixed r : (r < length X)%nat -> back_row X r = X.
Proof.
  intros Hr. pose proof Hrref as [Hech Hcl].
  unfold back_row. destruct (first_nonzero (X !!! r)) as [c|] eqn:Hf; [|done].
  apply first_nonzero_Some in Hf.
  destruct (lookup_lt_is_Some_2 X r Hr) as [row Hrow].
  rewrite (list_lookup_total_correct _ _ _ Hrow) in Hf.
  destruct (ps !! r) as [p|] eqn:Hp.
  - assert (c = p) as ->.
    { eapply leading_column_unique; [done|]. by eapply echelon_leading. }
    apply foldl_fixed, Forall_forall. intros i Hi%elem_of_reverse%elem_of_seq.
    apply subtract_row_zero; [lia|done|]. eapply rref_column; [done|done|lia].
  - exfalso. destruct Hf as [(x & Hx & Hnz) _]. apply Hnz.
    apply (Forall_lookup_1 (fun x => x = 0%Qc) row c x); [|done].
    eapply echelon_zero_row; [done| |done]. by apply lookup_ge_None.
Qed.

Lemma backward_fixed n : (n <= length X)%nat -> backward n X = X.
Proof.
  intros Hn. unfold backward. apply foldl_fixed, Forall_forall.
  intros r Hr%elem_of_reverse%elem_of_seq. apply back_row_fixed. lia.
Qed.

Lemma eliminate_rows_fixed : eliminate_rows num_c X = Return X.
Proof.
  unfold eliminate_rows. rewrite forward_fixed.
  - simpl. by rewrite backward_fixed.
  - intros k p Hk. lia.
Qed.

End rref_fixed.

(** *** The elimination routine (C5, C6) *)

(** X24. When [eliminate] returns and its pivot search has found a pivot in
    every column that holds one at or below the cursor row, the result has
    the shape of the input and is in reduced row echelon form: every row
    that is not all zero leads with a 1, in a column that is zero in every
    other row and that no other row leads in. *)
Theorem eliminate_reduced_row_echelon (num_c : nat) (X : list (list Qc)) (R : ndarray) :
  rectangular num_c X ->
  eliminate (Array2 num_c X) = Return R ->
  pivots_found (length X) num_c 0 0 X = true ->
  exists rows,
    R = Array2 num_c rows /\ length rows = length X /\
    rectangular num_c rows /\ reduced_row_echelon rows.
Proof.
  intros Hrect He Hpf. simpl in He.
  apply bind_Return in He as (rows & Hrows & He). inversion He; subst R.
  destruct (eliminate_rows_rref num_c X rows) as [Hlen (ps & Hrref)]; try done.
  exists rows. split_and!; [done|done|apply Hrref|by eapply rref_reduced_row_echelon].
Qed.

(** X25. When [eliminate] returns and its pivot search has found every
    pivot, eliminating the result again returns the same matrix. *)
Theorem eliminate_idempotent (num_c : nat) (X : list (list Qc)) (R : ndarray) :
  rectangular num_c X ->
  eliminate (Array2 num_c X) = Return R ->
  pivots_found (length X) num_c 0 0 X = true ->
  eliminate R = Return R.
Proof.
  intros Hrect He Hpf. simpl in He.
  apply bind_Return in He as (rows & Hrows & He). inversion He; subst R.
  destruct (eliminate_rows_rref num_c X rows) as [Hlen (ps & Hrref)]; try done.
  simpl. by rewrite (eliminate_rows_fixed num_c ps rows Hrref).
Qed.

Lemma sample_eliminate : eliminate (Array2 3 sample_matrix) = Return sample_eliminated.
Proof.
  unfold sample_eliminated.
  destruct (eliminate (Array2 3 sample_matrix)) as [R|e] eqn:He; [done|].
  apply (f_equal result_value) in He. vm_compute in He. discriminate He.
Qed.

Lemma sample_rectangular : rectangular 3 sample_matrix.
Proof. repeat constructor. Qed.

Lemma eliminate_reduced_row_echelon_witness :
  exists rows,
    sample_eliminated = Array2 3 rows /\ length rows = length sample_matrix /\
    rectangular 3 rows /\ reduced_row_echelon rows.
Proof.
  apply (eliminate_reduced_row_echelon 3 sample_matrix sample_eliminated).
  - exact sample_rectangular.
  - exact sample_eliminate.
  - vm_compute. reflexivity.
Defined.

Lemma eliminate_idempotent_witness :
  eliminate sample_eliminated = Return sample_eliminated.
Proof.
  apply (eliminate_idempotent 3 sample_matrix sample_eliminated).
  - exact sample_rectangular.
  - exact sample_eliminate.
  - vm_compute. reflexivity.
Defined.

(** C5. [eliminate], whose docstring promises the matrix in reduced row
    echelon form, does not return one for the column (0, tiny). The pivot
    search reads the floats (0.0, 0.0) and selects the first entry; that
    entry is zero, the test [X[i, c] != 0] fails and the column is passed
    over. The matrix comes back as it was: its second row leads with
    [tiny], not with 1. *)
Lemma eliminate_underflow_not_reduced :
  pivots_found 2 1 0 0 [[0%Qc]; [tiny]] = false /\
  exists R,
    eliminate (Array2 1 [[0%Qc]; [tiny]]) = Return (Array2 1 R) /\
    matrix_values R = matrix_values [[0%Qc]; [tiny]] /\
    ~ reduced_row_echelon R.
Proof.
  split; [vm_compute; reflexivity|].
  destruct (eliminate (Array2 1 [[0%Qc]; [tiny]])) as [[|n R]|e] eqn:He;
    apply (f_equal (fun r => array_values <$> result_value r)) in He;
    vm_compute in He; try discriminate He.
  inversion He as [[Hn HR]].
  exists R. split_and!.
  - by subst n.
  - vm_compute. by rewrite <- HR.
  - destruct R as [|r0 [|r1 [|? ?]]]; try discriminate HR.
    destruct r0 as [|a [|? ?]]; try discriminate HR.
    destruct r1 as [|b [|? ?]]; try discriminate HR.
    injection HR as Ha Hb.
    intros Hpost. destruct (Hpost 1%nat [b] 0%nat) as [H1 _]; [done| |].
    + split; [|intros; lia]. exists b. split; [done|].
      intros ->. discriminate Hb.
    + injection H1 as ->. discriminate Hb.
Qed.

(** C6. [eliminate] twice is not [eliminate] once on [[0, 1], [tiny, 2]].
    The first elimination passes over the first column, whose only nonzero
    entry is [tiny], and returns [[tiny, 1], [0, 0]], which is not a reduced
    row echelon form; the second elimination finds [tiny] at the cursor,
    divides by it and returns [[1, 10^400], [0, 0]]. *)
Lemma eliminate_underflow_not_idempotent :
  exists R R',
    eliminate (Array2 2 [[0%Qc; 1%Qc]; [tiny; Z2Qc 2]]) = Return R /\
    eliminate R = Return R' /\
    array_values R = Some (2%nat, [[this tiny; 1%Q]; [0%Q; 0%Q]]) /\
    array_values R' = Some (2%nat, [[1%Q; (10 ^ 400)%Q]; [0%Q; 0%Q]]) /\
    R' <> R.
Proof.
  assert (Hv :
    (fun r => match r with
              | Return (R, R') => Some (array_values R, array_values R')
              | Raise _ => None
              end)
      (let* R := eliminate (Array2 2 [[0%Qc; 1%Qc]; [tiny; Z2Qc 2]]) in
       let* R' := eliminate R in Return (R, R'))
    = Some (Some (2%nat, [[this tiny; 1%Q]; [0%Q; 0%Q]]),
            Some (2%nat, [[1%Q; (10 ^ 400)%Q]; [0%Q; 0%Q]]))).
  { vm_compute. reflexivity. }
  destruct (eliminate (Array2 2 [[0%Qc; 1%Qc]; [tiny; Z2Qc 2]])) as [R|e];
    cbn [bind] in Hv; [|discriminate Hv].
  destruct (eliminate R) as [R'|e] eqn:He2; cbn [bind] in Hv; [|discriminate Hv].
  inversion Hv as [[H1 H2]].
  exists R, R'. split_and!; [reflexivity|exact He2|exact H1|exact H2|].
  intros ->. rewrite H1 in H2. vm_compute in H2. discriminate H2.
Qed.

(** *** What the pivot search can miss *)

Lemma argmax_from_spec best besti i l :
  exists v,
    (argmax_from best besti i l = besti /\ v = best \/
     exists m, argmax_from best besti i l = (i + m)%nat /\ l !! m = Some v) /\
    (best <= v)%Qc /\ Forall (fun x => (x <= v)%Qc) l.
Proof.
  revert best besti i. induction l as [|x l IH]; simpl; intros best besti i.
  - exists best. split_and!; [by left|apply Qcle_refl|constructor].
  - destruct (Qclt_le_dec best x) as [Hlt|Hle].
    + destruct (IH x i (S i)) as (v & Hv & Hxv & Hall). exists v. split_and!.
      * right. destruct Hv as [[-> ->]|(m & -> & Hm)].
        -- exists 0%nat. split; [lia|done].
        -- exists (S m). split; [lia|done].
      * eapply Qcle_trans; [apply Qclt_le_weak, Hlt|done].
      * by constructor.
    + destruct (IH best besti (S i)) as (v & Hv & Hbv & Hall). exists v. split_and!.
      * destruct Hv as [[-> ->]|(m & -> & Hm)]; [by left|].
        right. exists (S m). split; [lia|done].
      * done.
      * constructor; [|done]. by eapply Qcle_trans.
Qed.

(** The entry at [argmax] is at least as large as every entry. *)
Lemma argmax_max l x :
  l !! argmax l = Some x -> Forall (fun y => (y <= x)%Qc) l.
Proof.
  destruct l as [|x0 l]; simpl; [done|].
  destruct (argmax_from_spec x0 0 1 l) as (v & Hv & Hx0 & Hall).
  destruct Hv as [[-> ->]|(m & -> & Hm)]; simpl; intros Hx.
  - inversion Hx; subst. constructor; [apply Qcle_refl|done].
  - rewrite Hm in Hx. inversion Hx; subst. by constructor.
Qed.

(** When the pivot search selects a zero entry, every entry of the column
    from row [r] down is 0.0 as a float: a pivot is missed only where a
    nonzero Fraction underflows. *)
Lemma pivot_index_zero_floats r c X i :
  (r < length X)%nat -> pivot_index r c X = Return i -> entry X i c = 0%Qc ->
  forall k, (r <= k < length X)%nat ->
            Float64.of_Fraction (entry X k c) = Return 0%Qc.
Proof.
  intros Hr Hp Hz k Hk. pose proof (pivot_index_range r c X i Hr Hp) as Hi.
  unfold pivot_index in Hp.
  apply bind_Return in Hp as (values & Hv & Hp). inversion Hp as [Hieq]; clear Hp.
  assert (Hcol : forall m, (r + m < length X)%nat ->
            column c (drop r X) !! m = Some (entry X (r + m) c)).
  { intros m Hm. unfold column, entry.
    rewrite list_lookup_fmap, lookup_drop.
    destruct (lookup_lt_is_Some_2 X (r + m)) as [row Hrow]; [done|].
    by rewrite Hrow, (list_lookup_total_correct _ _ _ Hrow). }
  assert (Hval : forall m, (r + m < length X)%nat ->
            exists v, values !! m = Some v /\
                      Float64.of_Fraction (entry X (r + m) c) = Return v).
  { intros m Hm. eapply mapM_Return_lookup; [done|by apply Hcol]. }
  destruct (Hval (argmax (Qcabs <$> values))) as (vi & Hvi & Hfi); [lia|].
  rewrite Hieq, Hz, of_Fraction_0 in Hfi. inversion Hfi; subst vi.
  destruct (Hval (k - r)%nat) as (vk & Hvk & Hfk); [lia|].
  replace (r + (k - r))%nat with k in Hfk by lia. rewrite Hfk. f_equal.
  assert (Hmax : Forall (fun y => (y <= Qcabs 0)%Qc) (Qcabs <$> values)).
  { apply argmax_max. by rewrite list_lookup_fmap, Hvi. }
  rewrite Forall_lookup in Hmax.
  specialize (Hmax (k - r)%nat (Qcabs vk)).
  rewrite list_lookup_fmap, Hvk in Hmax. specialize (Hmax eq_refl).
  apply Qcabs_null, Qcle_antisym; [done|apply Qcabs_nonneg].
Qed.

(** ** When a Fraction becomes the float 0.0 *)

Lemma round_half_even_zero N D :
  0 <= N -> 0 < D -> Float64.round_half_even N D = 0 -> 2 * N <= D.
Proof.
  intros HN HD. unfold Float64.round_half_even.
  pose proof (Z.div_mod N D ltac:(lia)) as Hdm.
  pose proof (Z.mod_pos_bound N D HD) as Hr.
  pose proof (Z.div_pos N D HN HD) as Hq.
  destruct (2 * (N mod D) ?= D) eqn:Hc.
  - apply Z.compare_eq in Hc. destruct (Z.even (N / D)); intros Hz; [|lia].
    rewrite Hz in Hdm. lia.
  - rewrite Z.compare_lt_iff in Hc. intros Hz. rewrite Hz in Hdm. lia.
  - intros Hz. lia.
Qed.

Lemma floor_log2_lower a d :
  0 < a -> 0 < d ->
  d * 2 ^ Z.max 0 (Float64.floor_log2 a d) <= a * 2 ^ Z.max 0 (- Float64.floor_log2 a d).
Proof.
  intros Ha Hd. unfold Float64.floor_log2.
  set (e0 := Z.log2 a - Z.log2 d).
  destruct (d * 2 ^ Z.max 0 e0 <=? a * 2 ^ Z.max 0 (- e0)) eqn:Ht.
  - by apply Z.leb_le.
  - pose proof (Z.log2_spec a Ha) as [Ha1 Ha2].
    pose proof (Z.log2_spec d Hd) as [Hd1 Hd2].
    pose proof (Z.log2_nonneg a) as Hla. pose proof (Z.log2_nonneg d) as Hld.
    destruct (Z.le_gt_cases 0 (e0 - 1)) as [Hpos|Hneg].
    + rewrite (Z.max_r 0 (e0 - 1)), (Z.max_l 0 (- (e0 - 1))) by lia.
      rewrite Z.pow_0_r, Z.mul_1_r.
      assert (Hsplit : 2 ^ Z.succ (Z.log2 d) * 2 ^ (e0 - 1) = 2 ^ Z.log2 a).
      { rewrite <- Z.pow_add_r by lia. f_equal. unfold e0. lia. }
      assert (0 < 2 ^ (e0 - 1)) by (apply Z.pow_pos_nonneg; lia).
      nia.
    + rewrite (Z.max_l 0 (e0 - 1)), (Z.max_r 0 (- (e0 - 1))) by lia.
      rewrite Z.pow_0_r, Z.mul_1_r.
      assert (Hsplit : 2 ^ Z.log2 a * 2 ^ (- (e0 - 1)) = 2 ^ Z.succ (Z.log2 d)).
      { rewrite <- Z.pow_add_r by lia. f_equal. unfold e0. lia. }
      assert (0 < 2 ^ (- (e0 - 1))) by (apply Z.pow_pos_nonneg; lia).
      nia.
Qed.

Lemma Fraction_eq_0 A B : B <> 0 -> Fraction A B = 0%Qc -> A = 0.
Proof.
  intros HB HF. unfold Fraction, Qcdiv in HF.
  apply Qcmult_integral in HF as [HA|Hinv]; [by apply Z2Qc_eq_0|].
  exfalso. assert (HB' : Z2Qc B <> 0%Qc) by (intros H%Z2Qc_eq_0; done).
  pose proof (Qcmult_inv_r _ HB') as H1. rewrite Hinv in H1.
  rewrite Qcmult_0_r in H1. discriminate H1.
Qed.

(** A Fraction other than 0 whose float is 0.0 is at most 2^-1075 in
    magnitude. *)
Lemma of_Fraction_zero_underflow x :
  Float64.of_Fraction x = Return 0%Qc -> x <> 0%Qc ->
  2 ^ 1075 * Z.abs (Qnum (this x)) <= Z.pos (Qden (this x)).
Proof.
  unfold Float64.of_Fraction, Float64.of_ratio. intros Hf Hx.
  set (n := Qnum (this x)) in *. set (d := Z.pos (Qden (this x))) in *.
  assert (Hn : n <> 0).
  { intros Hn. apply Hx, Qc_is_canon. unfold Qeq. fold n. simpl. lia. }
  destruct (n =? 0) eqn:Hn0; [apply Z.eqb_eq in Hn0; done|].
  set (fl := Float64.floor_log2 (Z.abs n) d) in *.
  set (t := Z.max (fl - 52) (-1074)) in *.
  set (m := Float64.round_half_even (Z.abs n * 2 ^ Z.max 0 (- t)) (d * 2 ^ Z.max 0 t)) in *.
  destruct (2 ^ 1024 <=? m * 2 ^ Z.max 0 t); [done|].
  assert (Hv : Fraction (m * 2 ^ Z.max 0 t) (2 ^ Z.max 0 (- t)) = 0%Qc).
  { inversion Hf as [Hv]. destruct (n <? 0); [|done].
    rewrite <- (Qcopp_involutive (Fraction _ _)), Hv. done. }
  assert (Hp1 : 0 < 2 ^ Z.max 0 t) by (apply Z.pow_pos_nonneg; lia).
  assert (Hp2 : 0 < 2 ^ Z.max 0 (- t)) by (apply Z.pow_pos_nonneg; lia).
  apply Fraction_eq_0 in Hv; [|lia].
  assert (Hm : m = 0) by nia.
  assert (Hd : 0 < d) by (unfold d; lia).
  apply round_half_even_zero in Hm; [|nia|nia].
  destruct (Z.le_gt_cases (fl - 52) (-1074)) as [Hsmall|Hbig].
  - assert (Ht : t = -1074) by (unfold t; lia). rewrite Ht in Hm.
    change (Z.max 0 (- -1074)) with 1074 in Hm. change (Z.max 0 (-1074)) with 0 in Hm.
    rewrite Z.pow_0_r in Hm.
    change (2 ^ 1075) with (2 * 2 ^ 1074). lia.
  - exfalso. assert (Ht : t = fl - 52) by (unfold t; lia).
    pose proof (floor_log2_lower (Z.abs n) d ltac:(lia) Hd) as Hlow. fold fl in Hlow.
    assert (Hp3 : 0 < 2 ^ Z.max 0 fl) by (apply Z.pow_pos_nonneg; lia).
    assert (Hp4 : 0 < 2 ^ Z.max 0 (- fl)) by (apply Z.pow_pos_nonneg; lia).
    assert (Hexp : 2 ^ (Z.max 0 t + Z.max 0 (- fl)) < 2 ^ (1 + Z.max 0 fl + Z.max 0 (- t))).
    { apply Z.pow_lt_mono_r; lia. }
    rewrite !Z.pow_add_r, Z.pow_1_r in Hexp by lia.
    set (P1 := 2 ^ Z.max 0 fl) in *. set (P2 := 2 ^ Z.max 0 (- fl)) in *.
    set (P3 := 2 ^ Z.max 0 (- t)) in *. set (P4 := 2 ^ Z.max 0 t) in *.
    assert (H1 : d * P1 * (2 * P3) <= d * (P4 * P2)).
    { apply Z.le_trans with (Z.abs n * P2 * (2 * P3)).
      - apply Z.mul_le_mono_nonneg_r; lia.
      - replace (Z.abs n * P2 * (2 * P3)) with (2 * (Z.abs n * P3) * P2) by ring.
        replace (d * (P4 * P2)) with (d * P4 * P2) by ring.
        apply Z.mul_le_mono_nonneg_r; lia. }
    replace (d * P1 * (2 * P3)) with (d * (2 * P1 * P3)) in H1 by ring.
    apply Z.mul_le_mono_pos_l in H1; lia.
Qed.

(** X14. A pivot the search misses is at most 2^-1075 in magnitude: when the
    entry selected in column [c] is zero, every nonzero entry of the column
    from row [r] down is that small. *)
Lemma missed_pivot_underflows r c X i k :
  (r < length X)%nat -> pivot_index r c X = Return i -> entry X i c = 0%Qc ->
  (r <= k < length X)%nat -> entry X k c <> 0%Qc ->
  2 ^ 1075 * Z.abs (Qnum (this (entry X k c))) <= Z.pos (Qden (this (entry X k c))).
Proof.
  intros Hr Hp Hz Hk Hne. apply of_Fraction_zero_underflow; [|done].
  by eapply pivot_index_zero_floats.
Qed.

(** ** The tables of the repository *)

Lemma table_positive_true : table_positive = true.
Proof. vm_compute. reflexivity. Qed.

Lemma get_population_positive atom season p :
  populations.get_population atom season = Return p -> 0 < p.
Proof.
  unfold populations.get_population, populations.get_population_weight.
  intros Hp. apply bind_Return in Hp as (w & Hw & Hp).
  destruct (populations.population_weights !! _) as [weights|] eqn:Hy; [|done].
  unfold getitem in Hw. destruct (weights !! atom) as [w'|] eqn:Ha; [|done].
  inversion Hw; subst w'.
  pose proof table_positive_true as Ht. unfold table_positive in Ht.
  rewrite forallb_forall in Ht.
  apply elem_of_map_to_list, list_elem_of_In in Hy. specialize (Ht _ Hy). simpl in Ht.
  rewrite forallb_forall in Ht.
  apply elem_of_map_to_list, list_elem_of_In in Ha. specialize (Ht _ Ha). simpl in Ht.
  rewrite Hp in Ht. lia.
Qed.

(** C7 on the tables of the repository: a known group with a member among
    [atoms], every listed member having a weight in the table of the season,
    gets a row that sums to 1. *)
Lemma us_weight_row_sums_to_one location members season atoms :
  Locations.region_map !! location = Some members ->
  (forall atom, atom ∈ atoms -> atom ∈ members ->
     exists p, population_of populations.get_population season atom = Return p) ->
  (exists atom, atom ∈ atoms /\ atom ∈ members) ->
  exists row,
    UsFusion.get_weight_row location season atoms = Return row /\
    length row = length atoms /\
    (forall i atom, atoms !! i = Some atom -> atom ∉ members -> row !! i = Some 0%Qc) /\
    py_sum row = 1%Qc.
Proof.
  intros Hloc Hall (atom & Hin & Hmem).
  assert (Hpos : forall a p, population_of populations.get_population season a = Return p -> 0 < p).
  { intros a p. unfold population_of. destruct (truthy season); apply get_population_positive. }
  apply (get_weight_row_normalised Locations.region_map populations.get_population
           location members season atoms); [done| |].
  - intros a Ha Hm. destruct (Hall a Ha Hm) as (p & Hp). exists p. split; [done|].
    apply Hpos in Hp. lia.
  - destruct (Hall atom Hin Hmem) as (p & Hp). exists atom, p.
    split_and!; try done. apply Hpos in Hp. lia.
Qed.

(** The fast path on the tables of the repository: with every atom an input
    and nothing excluded the call returns H of shape 54 x 54, W of shape
    75 x 54 and every known location as an output. *)
Lemma fast_path_all_atoms_returns :
  statespace_shape (UsFusion.determine_statespace_wrapped Locations.atom_list None [])
  = Some ([54; 54]%nat, [75; 54]%nat, Locations.region_list).
Proof. vm_compute. reflexivity. Qed.

(** The general path on the tables of the repository: with the ten HHS
    regions and one state as inputs, the statespace has 11 dimensions and the
    outputs kept are the national region, the HHS regions, the two census
    divisions made of these inputs, and the state. *)
Lemma general_path_hhs_returns :
  statespace_shape
    (UsFusion.determine_statespace_wrapped
       ["hhs1"; "hhs2"; "hhs3"; "hhs4"; "hhs5"; "hhs6"; "hhs7"; "hhs8"; "hhs9";
        "hhs10"; "pa"] None ["vi"])
  = Some ([11; 11]%nat, [14; 11]%nat,
          ["nat"; "hhs1"; "hhs2"; "hhs3"; "hhs4"; "hhs5"; "hhs6"; "hhs7"; "hhs8";
           "hhs9"; "hhs10"; "cen1"; "cen2"; "pa"]).
Proof. vm_compute. reflexivity. Qed.

(** [_determine_statespace] returns whenever the two eliminations do and W0
    is a matrix, of at least one row, over the columns of H0. *)
Lemma _determine_statespace_returns H0 size rank Bi rows_W0 :
  basis_inverse H0 = Return (size, rank, Bi) ->
  rows_W0 <> [] ->
  exists H W actual_rows,
    _determine_statespace H0 (Array2 size rows_W0) = Return (H, W, actual_rows).
Proof.
  intros Hbi Hne. unfold _determine_statespace. rewrite Hbi. cbn [bind].
  pose proof Hbi as Hbi'. unfold basis_inverse in Hbi'.
  apply bind_Return in Hbi' as (B & HB & Hbi').
  destruct B as [|size' B]; [done|].
  apply bind_Return in Hbi' as (BtI & _ & Hbi').
  apply bind_Return in Hbi' as (IBit & _ & Hbi').
  destruct IBit as [|? IBit]; [done|]. inversion Hbi'; subst size' rank Bi.
  destruct H0 as [|n0 rows_H0]; [done|]. simpl in HB.
  apply bind_Return in HB as (B' & _ & HB). inversion HB; subst n0 B'.
  assert (Hlen : forall (f : list Qc -> list Qc),
            length (f <$> transpose size (drop size <$> IBit)) = size).
  { intros f. unfold transpose. by rewrite !length_fmap, length_seq. }
  cbn [matmul]. unfold matmul2.
  rewrite !(bool_decide_false (size ≠ _)) by (rewrite Hlen; by intros ?).
  cbn [bind].
  destruct rows_W0 as [|row rows_W0]; [done|].
  rewrite !fmap_cons. cbn [np_array zero_rows take_rows bind]. eauto.
Qed.

(** * Further properties of the code *)

Section weight_row_errors.

Context (region_map : gmap string (list string))
        (get_population : string -> option Z -> result Z).

Lemma populations_of_outside members season atoms :
  Forall (fun atom => atom ∉ members) atoms ->
  populations_of get_population members season atoms = Return (replicate (length atoms) 0).
Proof.
  unfold populations_of. induction 1 as [|atom atoms Hout Hall IH]; simpl; [done|].
  rewrite bool_decide_false by done. simpl. by rewrite IH.
Qed.

Lemma sum_replicate_0 n : foldr Z.add 0 (replicate n 0) = 0.
Proof. induction n as [|n IH]; simpl; [done|]. by rewrite IH. Qed.

(** X1. A location that is not a key of [region_map]: with at least one atom
    the lookup in the loop raises [KeyError(location)]; with no atom at all the
    loop never looks the location up, and the sanity check raises
    'location has no constituent atoms' instead. *)
Theorem get_weight_row_unknown_location location season atoms :
  region_map !! location = None ->
  get_weight_row region_map get_population location season atoms
  = match atoms with
    | [] => Raise (Exception "location has no constituent atoms")
    | _ :: _ => Raise (KeyError location)
    end.
Proof.
  intros Hloc. destruct atoms as [|atom atoms]; [done|].
  unfold get_weight_row. cbn [foldM]. unfold weigh_atom at 1, getitem.
  by rewrite Hloc.
Qed.

(** X2. A known group none of whose members is among [atoms] (in particular
    when [atoms] is empty): every population is 0, [get_population] is never
    called, and the sanity check raises 'location has no constituent atoms'. *)
Theorem get_weight_row_no_constituent location members season atoms :
  region_map !! location = Some members ->
  Forall (fun atom => atom ∉ members) atoms ->
  get_weight_row region_map get_population location season atoms
  = Raise (Exception "location has no constituent atoms").
Proof.
  intros Hloc Hout. unfold get_weight_row.
  rewrite (foldM_weigh_atom _ _ _ _ members) by done.
  rewrite populations_of_outside by done. cbn [bind].
  by rewrite sum_replicate_0.
Qed.

End weight_row_errors.

Lemma get_weight_row_unknown_location_witness :
  UsFusion.get_weight_row "usa" None ["pa"; "va"] = Raise (KeyError "usa").
Proof.
  apply (get_weight_row_unknown_location Locations.region_map populations.get_population
           "usa" None ["pa"; "va"]).
  vm_compute. reflexivity.
Defined.

Lemma get_weight_row_no_constituent_witness :
  UsFusion.get_weight_row "hhs1" (Some 2015) ["pa"; "va"]
  = Raise (Exception "location has no constituent atoms").
Proof.
  apply (get_weight_row_no_constituent Locations.region_map populations.get_population
           "hhs1" ["ct"; "ma"; "me"; "nh"; "ri"; "vt"] (Some 2015) ["pa"; "va"]).
  - vm_compute. reflexivity.
  - repeat constructor; apply (bool_decide_unpack _); vm_compute; exact I.
Defined.

Lemma Z2Qc_le a b : a <= b -> (Z2Qc a <= Z2Qc b)%Qc.
Proof.
  intros Hab. unfold Qcle, Z2Qc. simpl. rewrite !Qred_correct.
  unfold Qle. simpl. lia.
Qed.

Lemma Z2Qc_lt a b : a < b -> (Z2Qc a < Z2Qc b)%Qc.
Proof.
  intros Hab. unfold Qclt, Z2Qc. simpl. rewrite !Qred_correct.
  unfold Qlt. simpl. lia.
Qed.

Lemma Fraction_mult p t : t <> 0 -> (Fraction p t * Z2Qc t = Z2Qc p)%Qc.
Proof.
  intros Ht. unfold Fraction. field. intros H%Z2Qc_eq_0. done.
Qed.

Lemma Fraction_bounds p t : 0 <= p <= t -> 0 < t -> (0 <= Fraction p t <= 1)%Qc.
Proof.
  intros Hp Ht.
  assert (Hpos : (0 < Z2Qc t)%Qc) by (apply (Z2Qc_lt 0 t); lia).
  split; apply (Qcmult_lt_0_le_reg_r _ _ (Z2Qc t) Hpos);
    rewrite Fraction_mult by lia.
  - rewrite Qcmult_0_l. apply (Z2Qc_le 0 p). lia.
  - rewrite Qcmult_1_l. apply Z2Qc_le. lia.
Qed.

Lemma sum_nonneg (l : list Z) : Forall (fun p => 0 <= p) l -> 0 <= foldr Z.add 0 l.
Proof. induction 1; simpl; lia. Qed.

Lemma sum_bounds (l : list Z) i p :
  Forall (fun p => 0 <= p) l -> l !! i = Some p -> 0 <= p <= foldr Z.add 0 l.
Proof.
  intros Hall. revert i. induction Hall as [|x l Hx Hall IH]; intros i Hi; [done|].
  pose proof (sum_nonneg l Hall). destruct i as [|i]; simpl in *.
  - inversion Hi; subst. lia.
  - specialize (IH i Hi). lia.
Qed.

Lemma sum_single (l : list Z) i p :
  l !! i = Some p -> (forall j q, l !! j = Some q -> j <> i -> q = 0) ->
  foldr Z.add 0 l = p.
Proof.
  revert i. induction l as [|x l IH]; intros i Hi Hz; [done|].
  destruct i as [|i]; simpl in *.
  - inversion Hi; subst.
    assert (Hl : foldr Z.add 0 l = 0).
    { clear IH Hi. induction l as [|y l IHl]; simpl; [done|].
      rewrite (Hz 1%nat y) by done. rewrite IHl; [done|].
      intros [|j] q Hj Hne; [done|]. apply (Hz (S (S j)) q); [done|lia]. }
    lia.
  - rewrite (Hz 0%nat x) by done. simpl. apply (IH i Hi).
    intros j q Hj Hne. apply (Hz (S j) q); [done|lia].
Qed.

Section weight_row_entries.

Context (region_map : gmap string (list string))
        (get_population : string -> option Z -> result Z).

Lemma get_weight_row_entries location season atoms row :
  get_weight_row region_map get_population location season atoms = Return row ->
  (forall atom p, atom ∈ atoms ->
     population_of get_population season atom = Return p -> 0 < p) ->
  exists members,
    region_map !! location = Some members /\
    forall i atom, atoms !! i = Some atom ->
      exists w, row !! i = Some w /\ (0 <= w <= 1)%Qc /\ (w <> 0%Qc <-> atom ∈ members).
Proof.
  intros (members & pops & Hloc & Hpops & Htotal & ->)%get_weight_row_Return Hpos.
  exists members. split; [done|].
  assert (Hnn : Forall (fun p => 0 <= p) pops).
  { apply (populations_of_nonneg get_population members season atoms); [|done].
    intros a p Ha _ Hp. apply Hpos in Hp; [lia|done]. }
  pose proof (sum_nonneg pops Hnn) as Hsum.
  intros i atom Hi.
  destruct (mapM_Return_lookup _ _ _ _ _ Hpops Hi) as (p & Hp & Hread).
  exists (Fraction p (foldr Z.add 0 pops)).
  split; [|split].
  - by rewrite list_lookup_fmap, Hp.
  - apply Fraction_bounds; [by eapply sum_bounds | lia].
  - case_bool_decide as Hmem.
    + split; [done|]. intros _ Hz%Fraction_eq_0; [|done].
      apply Hpos in Hread; [lia|]. by eapply list_elem_of_lookup_2.
    + inversion Hread; subst p. rewrite Fraction_0. split; [done|]. intros Hm. done.
Qed.

(** X3. Every weight of a returned row lies between 0 and 1, and, the
    populations read being positive, the weight of an atom is nonzero exactly
    when the atom is a member of the group. *)
Theorem weight_row_support location season atoms row :
  get_weight_row region_map get_population location season atoms = Return row ->
  (forall atom p, atom ∈ atoms ->
     population_of get_population season atom = Return p -> 0 < p) ->
  exists members,
    region_map !! location = Some members /\
    forall i atom, atoms !! i = Some atom ->
      exists w, row !! i = Some w /\ (0 <= w <= 1)%Qc /\ (w <> 0%Qc <-> atom ∈ members).
Proof. apply get_weight_row_entries. Qed.

(** X4. When exactly one position of [atoms] holds a member of the group,
    the returned row is the unit vector of that position: 1 there and 0
    elsewhere. So the row of an atom over a list that holds it once is its
    unit vector. *)
Theorem weight_row_of_single_member location members season atoms row i atom :
  get_weight_row region_map get_population location season atoms = Return row ->
  region_map !! location = Some members ->
  atoms !! i = Some atom ->
  (forall j other, atoms !! j = Some other -> j <> i -> other ∉ members) ->
  row !! i = Some 1%Qc /\
  forall j, j <> i -> (j < length atoms)%nat -> row !! j = Some 0%Qc.
Proof.
  intros (members' & pops & Hloc' & Hpops & Htotal & ->)%get_weight_row_Return Hloc Hi Hothers.
  assert (members' = members) as -> by congruence.
  destruct (mapM_Return_lookup _ _ _ _ _ Hpops Hi) as (p & Hp & Hread).
  assert (Hzero : forall j q, pops !! j = Some q -> j <> i -> q = 0).
  { intros j q Hq Hne.
    assert (Hlen := mapM_Return_length _ _ _ Hpops).
    destruct (lookup_lt_is_Some_2 atoms j) as [other Hother].
    { apply lookup_lt_Some in Hq. lia. }
    destruct (mapM_Return_lookup _ _ _ _ _ Hpops Hother) as (q' & Hq' & Hread').
    rewrite bool_decide_false in Hread' by (by eapply Hothers).
    inversion Hread'. congruence. }
  rewrite (sum_single pops i p Hp Hzero) in Htotal |- *.
  split.
  - rewrite list_lookup_fmap, Hp. simpl. by rewrite Fraction_same.
  - intros j Hne Hj.
    assert (Hlen := mapM_Return_length _ _ _ Hpops).
    destruct (lookup_lt_is_Some_2 pops j) as [q Hq]; [lia|].
    rewrite list_lookup_fmap, Hq. simpl.
    rewrite (Hzero j q Hq Hne). by rewrite Fraction_0.
Qed.

Lemma mapM_Return_Forall2 {A B} (f : A -> result B) l l' :
  mapM f l = Return l' -> Forall2 (fun x y => f x = Return y) l l'.
Proof.
  revert l'. induction l as [|x l IH]; simpl; intros l' Hm.
  - inversion Hm. constructor.
  - apply bind_Return in Hm as (y & Hy & Hm).
    apply bind_Return in Hm as (ys & Hys & Hm). inversion Hm; subst.
    constructor; [done|]. by apply IH.
Qed.

Lemma get_weight_matrix_Return locations season atoms M :
  get_weight_matrix region_map get_population locations season atoms = Return M ->
  match locations with
  | [] => M = Array1
  | _ :: _ =>
      exists rows,
        M = Array2 (length atoms) rows /\
        length rows = length locations /\
        rectangular (length atoms) rows /\
        forall i location, locations !! i = Some location ->
          exists row, rows !! i = Some row /\
            get_weight_row region_map get_population location season atoms = Return row /\
            py_sum row = 1%Qc
  end.
Proof.
  unfold get_weight_matrix. intros Hm.
  apply bind_Return in Hm as (rows & Hrows & Hm). inversion Hm; subst M; clear Hm.
  destruct locations as [|location locations].
  - simpl in Hrows. by inversion Hrows.
  - assert (Hlen := mapM_Return_length _ _ _ Hrows).
    assert (Hrect : rectangular (length atoms) rows).
    { apply Forall_lookup. intros i row Hrow.
      destruct (lookup_lt_is_Some_2 (location :: locations) i) as [loc Hloc].
      { apply lookup_lt_Some in Hrow. lia. }
      destruct (mapM_Return_lookup _ _ _ _ _ Hrows Hloc) as (row' & Hrow' & Hget).
      assert (row' = row) as -> by congruence.
      apply get_weight_row_Return_sum in Hget as (? & _ & Hl & _). done. }
    destruct rows as [|row0 rows]; [done|].
    exists (row0 :: rows). split_and!.
    + simpl. f_equal. by inversion Hrect.
    + done.
    + done.
    + intros i loc Hloc.
      destruct (mapM_Return_lookup _ _ _ _ _ Hrows Hloc) as (row & Hrow & Hget).
      exists row. split_and!; [done|done|].
      apply get_weight_row_Return_sum in Hget as (? & _ & _ & _ & Hs). done.
Qed.

(** X5. What [get_weight_matrix] returns: for no location the one-dimensional
    empty array of [np.array([])]; otherwise a matrix with one row per location
    and one column per atom, whose row [i] is the weight row of location [i]
    and sums to 1. *)
Theorem get_weight_matrix_rows locations season atoms M :
  get_weight_matrix region_map get_population locations season atoms = Return M ->
  match locations with
  | [] => M = Array1
  | _ :: _ =>
      exists rows,
        M = Array2 (length atoms) rows /\
        length rows = length locations /\
        rectangular (length atoms) rows /\
        forall i location, locations !! i = Some location ->
          exists row, rows !! i = Some row /\
            get_weight_row region_map get_population location season atoms = Return row /\
            py_sum row = 1%Qc
  end.
Proof. apply get_weight_matrix_Return. Qed.

End weight_row_entries.

Lemma table_listed_true : table_listed = true.
Proof. vm_compute. reflexivity. Qed.

Lemma table_year_range season : 2010 <= table_year season <= 2017.
Proof.
  unfold table_year. rewrite first_season_eq, last_season_eq. lia.
Qed.

Lemma get_population_table_year location season :
  populations.get_population location season
  = match populations.population_weights !! table_year season with
    | None => Raise (SeasonKeyError (table_year season))
    | Some weights =>
        let* w := getitem weights location in populations.round (w * 3.25e8)%float
    end.
Proof.
  unfold populations.get_population, populations.get_population_weight.
  fold (table_year season). by destruct (populations.population_weights !! _).
Qed.

Lemma get_population_outcome (location : string) (season : option Z) :
  if listed location (table_year season)
  then exists p, populations.get_population location season = Return p /\ 0 < p < 325000000
  else populations.get_population location season = Raise (KeyError location).
Proof.
  rewrite get_population_table_year.
  pose proof (table_year_range season) as Hrange.
  set (year := table_year season) in *.
  pose proof table_listed_true as Ht. unfold table_listed in Ht.
  rewrite forallb_forall in Ht.
  specialize (Ht year). rewrite <- list_elem_of_In, elem_of_seqZ in Ht.
  specialize (Ht ltac:(lia)).
  destruct (populations.population_weights !! year) as [weights|]; [|done].
  apply andb_true_iff in Ht as [Hatoms Hkeys].
  rewrite forallb_forall in Hatoms. rewrite forallb_forall in Hkeys.
  destruct (decide (location ∈ Locations.atom_list)) as [Hin|Hout].
  - specialize (Hatoms location). rewrite <- list_elem_of_In in Hatoms.
    specialize (Hatoms Hin). unfold getitem.
    destruct (weights !! location) as [w|].
    + apply andb_true_iff in Hatoms as [-> Hp]. cbn [bind].
      destruct (populations.round _) as [p|e]; [|done].
      exists p. split; [done|]. apply andb_true_iff in Hp as [?%Z.ltb_lt ?%Z.ltb_lt]. lia.
    + apply negb_true_iff in Hatoms. by rewrite Hatoms.
  - assert (Hl : listed location year = false).
    { unfold listed. by rewrite (bool_decide_false (location ∈ _)). }
    rewrite Hl. unfold getitem.
    destruct (weights !! location) as [w|] eqn:Hw; [|done].
    exfalso. apply Hout.
    apply elem_of_map_to_list, list_elem_of_In, Hkeys in Hw.
    by apply bool_decide_eq_true in Hw.
Qed.

(** X6. The domain of [get_population]: for a location that the table of
    the year read lists (an atom, other than "pr" up to 2012 and "vi" in
    2010) it returns a positive population below 325 million; for any other
    location it raises [KeyError(location)]. The year is the season clamped
    to 2010..2017, so no season makes the lookup of the year fail. *)
Theorem get_population_domain (location : string) (season : option Z) :
  if listed location (table_year season)
  then exists p, populations.get_population location season = Return p /\ 0 < p < 325000000
  else populations.get_population location season = Raise (KeyError location).
Proof. apply get_population_outcome. Qed.

(** ** Shapes *)

Lemma mapM_Raise_elem {A B} (f : A -> result B) l x e :
  x ∈ l -> f x = Raise e -> exists e', mapM f l = Raise e'.
Proof.
  induction l as [|y l IH]; intros Hin Hf; [by apply elem_of_nil in Hin|].
  simpl. apply elem_of_cons in Hin as [->|Hin].
  - rewrite Hf. by eexists.
  - destruct (f y) as [b|e0]; simpl; [|by eexists].
    destruct (IH Hin Hf) as (e' & ->). by eexists.
Qed.

Lemma matmul2_shape m A p B C :
  matmul2 (Array2 m A) (Array2 p B) = Return C ->
  m = length B /\
  match A with
  | [] => C = Array1
  | _ :: _ => exists rows, C = Array2 p rows /\ length rows = length A /\ rectangular p rows
  end.
Proof.
  unfold matmul2. case_bool_decide as Hm; [done|].
  intros HC. inversion HC; subst C; clear HC.
  split; [done|].
  destruct A as [|U A]; [done|].
  eexists. rewrite fmap_cons. cbn [np_array]. split_and!.
  - f_equal. by rewrite length_fmap, length_seq.
  - simpl. by rewrite length_fmap.
  - constructor; [by rewrite length_fmap, length_seq|].
    apply Forall_fmap, Forall_forall. intros V _. simpl.
    by rewrite length_fmap, length_seq.
Qed.

Lemma astype_float_shape X X' :
  astype_float X = Return X' -> shape X' = shape X.
Proof.
  destruct X as [|n rows]; simpl; intros HX.
  - by inversion HX.
  - apply bind_Return in HX as (rows' & Hrows & HX). inversion HX; subst X'.
    simpl. by rewrite (mapM_Return_length _ _ _ Hrows).
Qed.

(** ** The shape kept by the elimination *)

Lemma of_Fraction_Raise x e : Float64.of_Fraction x = Raise e -> e = OverflowError.
Proof.
  unfold Float64.of_Fraction, Float64.of_ratio.
  destruct (_ =? 0); [done|]. destruct (_ <=? _); [|done]. by inversion 1.
Qed.

Lemma mapM_Raise {A B} (f : A -> result B) l e :
  mapM f l = Raise e -> exists x, x ∈ l /\ f x = Raise e.
Proof.
  induction l as [|y l IH]; simpl; [done|].
  destruct (f y) as [b|e0] eqn:Hy; simpl.
  - destruct (mapM f l) as [bs|e1]; simpl; [done|].
    intros He. inversion He; subst e1. destruct (IH eq_refl) as (x & Hx & Hfx).
    exists x. split; [by right | done].
  - intros He. inversion He; subst e0. exists y. split; [by left | done].
Qed.

Lemma pivot_index_Raise r c X e : pivot_index r c X = Raise e -> e = OverflowError.
Proof.
  unfold pivot_index. destruct (mapM _ _) as [values|e0] eqn:Hm; simpl; [done|].
  intros He. inversion He; subst e0.
  apply mapM_Raise in Hm as (x & _ & Hx). by eapply of_Fraction_Raise.
Qed.

Lemma forward_shape num_c todo : forall r c X,
  rectangular num_c X ->
  match forward (length X) todo r c X with
  | Return R => length R = length X /\ rectangular num_c R
  | Raise e => e = OverflowError
  end.
Proof.
  induction todo as [|todo IH]; intros r c X Hrect; simpl; [done|].
  case_bool_decide as Hr; [|done].
  destruct (pivot_index r c X) as [i|e] eqn:Hi; simpl; [|by eapply pivot_index_Raise].
  pose proof (pivot_index_range r c X i Hr Hi) as Hrange.
  destruct (nonzero (entry X i c)); [|by apply IH].
  destruct (forward_step_shape num_c r c i X) as [Hrect' Hlen']; [done|done|].
  specialize (IH (S r) (S c) _ Hrect'). rewrite Hlen' in IH.
  destruct (forward _ _ _ _ _) as [R|e]; [|done].
  destruct IH as [? ?]. split; [congruence|done].
Qed.

Lemma back_row_shape num_c X r :
  rectangular num_c X -> (r < length X)%nat ->
  rectangular num_c (back_row X r) /\ length (back_row X r) = length X.
Proof.
  intros Hrect Hr. unfold back_row. destruct (first_nonzero _) as [c|]; [|done].
  apply subtract_rows_shape; [done|done|].
  apply Forall_forall. intros i Hi%elem_of_reverse%elem_of_seq. lia.
Qed.

Lemma backward_shape num_c n : forall X,
  rectangular num_c X -> (n <= length X)%nat ->
  rectangular num_c (backward n X) /\ length (backward n X) = length X.
Proof.
  unfold backward. induction n as [|n IH]; intros X Hrect Hn; [done|].
  rewrite seq_S, reverse_app. simpl.
  destruct (back_row_shape num_c X n) as [Hrect' Hlen']; [done|lia|].
  destruct (IH (back_row X n)) as [? ?]; [done|lia|].
  split; [done|congruence].
Qed.

Lemma eliminate_rows_shape num_c X :
  rectangular num_c X ->
  match eliminate_rows num_c X with
  | Return R => length R = length X /\ rectangular num_c R
  | Raise e => e = OverflowError
  end.
Proof.
  intros Hrect. unfold eliminate_rows.
  pose proof (forward_shape num_c num_c 0 0 X Hrect) as Hf.
  destruct (forward _ _ _ _ _) as [X'|e]; simpl; [|done].
  destruct Hf as [Hlen Hrect'].
  destruct (backward_shape num_c (length X) X') as [? ?]; [done|lia|].
  split; [congruence|done].
Qed.

(** X10. On a two-dimensional array [eliminate] either returns an array of
    the same shape or raises [OverflowError], which comes from [float] on a
    Fraction beyond the doubles: no other exception is possible. *)
Theorem eliminate_keeps_shape (num_c : nat) (X : list (list Qc)) :
  rectangular num_c X ->
  match eliminate (Array2 num_c X) with
  | Return R =>
      exists rows, R = Array2 num_c rows /\ length rows = length X /\ rectangular num_c rows
  | Raise e => e = OverflowError
  end.
Proof.
  intros Hrect. simpl.
  pose proof (eliminate_rows_shape num_c X Hrect) as He.
  destruct (eliminate_rows num_c X) as [rows|e]; simpl; [|done].
  exists rows. by destruct He.
Qed.

(** ** The shapes of the statespace *)

Lemma eye_shape n : length (eye n) = n /\ rectangular n (eye n).
Proof.
  unfold eye. split.
  - by rewrite length_fmap, length_seq.
  - apply Forall_fmap, Forall_forall. intros i _. simpl.
    by rewrite length_fmap, length_seq.
Qed.

Lemma transpose_shape n (X : list (list Qc)) :
  length (transpose n X) = n /\ rectangular (length X) (transpose n X).
Proof.
  unfold transpose. split.
  - by rewrite length_fmap, length_seq.
  - apply Forall_fmap, Forall_forall. intros j _. simpl. apply column_length.
Qed.

Lemma square_length size (B : list (list Qc)) : length (square size B) = size.
Proof.
  unfold square. repeat case_bool_decide.
  - rewrite length_app. unfold zeros. rewrite length_replicate. lia.
  - rewrite length_take. lia.
  - lia.
Qed.

Lemma count_nonzero_rows_le (B : list (list Qc)) : (count_nonzero_rows B <= length B)%nat.
Proof. unfold count_nonzero_rows. apply length_filter. Qed.

(** What [basis_inverse] returns: the number of columns of H0, a rank that
    does not exceed the number of rows of H0, and a square matrix [Bi]. *)
Lemma basis_inverse_shape s X size rank Bi :
  rectangular s X ->
  basis_inverse (Array2 s X) = Return (size, rank, Bi) ->
  size = s /\ (0 < s)%nat /\ (rank <= length X)%nat /\
  length Bi = s /\ rectangular s Bi.
Proof.
  intros Hrect Hbi. unfold basis_inverse in Hbi.
  apply bind_Return in Hbi as (B & HB & Hbi).
  pose proof (eliminate_rows_shape s X Hrect) as Hsh.
  simpl in HB. destruct (eliminate_rows s X) as [B0|e]; [|done].
  destruct Hsh as [Hlen0 Hrect0]. inversion HB; subst B; clear HB.
  apply bind_Return in Hbi as (BtI & Haug & Hbi).
  apply bind_Return in Hbi as (IBit & Hel & Hbi).
  destruct IBit as [|n2 IBit]; [done|]. inversion Hbi; subst size rank Bi; clear Hbi.
  unfold augment in Haug.
  destruct s as [|s']; [done|]. set (s := S s') in *.
  destruct (eye_shape s) as [Heyelen Heyerect].
  destruct (eye s) as [|row0 Id] eqn:Heye; [done|].
  cbn [np_array] in Haug. inversion Haug; subst BtI; clear Haug.
  assert (Hrow0 : length row0 = s) by (by inversion Heyerect).
  destruct (transpose_shape s (square s B0)) as [Htlen Htrect].
  rewrite square_length in Htrect.
  assert (Hrect2 : rectangular (s + length row0)
                     (zip_with app (transpose s (square s B0)) (row0 :: Id))).
  { apply Forall_lookup. intros i row Hi.
    apply lookup_zip_with_Some in Hi as (u & v & -> & Hu & Hv).
    rewrite length_app. f_equal.
    - unfold rectangular in Htrect. rewrite Forall_lookup in Htrect. by eapply Htrect.
    - unfold rectangular in Heyerect. rewrite Forall_lookup in Heyerect.
      rewrite Hrow0. by eapply Heyerect. }
  pose proof (eliminate_rows_shape _ _ Hrect2) as Hsh2.
  simpl in Hel. destruct (eliminate_rows _ _) as [R|e]; [|done].
  inversion Hel; subst n2 IBit; clear Hel.
  destruct Hsh2 as [Hlen2 _].
  rewrite length_zip_with, Htlen, Heyelen in Hlen2.
  destruct (transpose_shape s (drop s <$> R)) as [HBilen HBirect].
  rewrite length_fmap, Hlen2, Nat.min_id in HBirect.
  split_and!; [done|lia| |done|done].
  rewrite <- Hlen0. apply count_nonzero_rows_le.
Qed.

Lemma _determine_statespace_inv H0 W0 H W rows :
  _determine_statespace H0 W0 = Return (H, W, rows) ->
  exists size rank Bi n_actual W_actual n_pseudo W_pseudo,
    basis_inverse H0 = Return (size, rank, Bi) /\
    matmul2 H0 (Array2 (rank `min` size) (take rank <$> Bi)) = Return H /\
    matmul2 W0 (Array2 (rank `min` size) (take rank <$> Bi))
      = Return (Array2 n_actual W_actual) /\
    matmul2 W0 (Array2 (size - rank) (drop rank <$> Bi))
      = Return (Array2 n_pseudo W_pseudo) /\
    rows = filter (fun i => sum_abs (W_pseudo !!! i) = 0%Qc) (seq 0 (length W_pseudo)) /\
    W = Array2 n_actual ((fun i => W_actual !!! i) <$> rows).
Proof.
  unfold _determine_statespace. intros Hd.
  apply bind_Return in Hd as ([[size rank] Bi] & Hbi & Hd).
  apply bind_Return in Hd as (H' & HH & Hd).
  apply bind_Return in Hd as (Wa & HWa & Hd).
  apply bind_Return in Hd as (Wp & HWp & Hd).
  apply bind_Return in Hd as (rows' & Hrows & Hd).
  apply bind_Return in Hd as (W' & HW & Hd).
  inversion Hd; subst H' W' rows'; clear Hd.
  destruct Wp as [|n_pseudo W_pseudo]; [done|]. inversion Hrows as [Hr]; clear Hrows.
  destruct Wa as [|n_actual W_actual]; [done|]. inversion HW as [HWeq]; clear HW.
  exists size, rank, Bi, n_actual, W_actual, n_pseudo, W_pseudo.
  simpl in HH, HWa, HWp. by rewrite Hr.
Qed.

Lemma _determine_statespace_shape s rows_H0 W0 H W rows :
  rectangular s rows_H0 -> rows_H0 <> [] ->
  _determine_statespace (Array2 s rows_H0) W0 = Return (H, W, rows) ->
  exists k rows_W0 rows_H rows_W,
    W0 = Array2 s rows_W0 /\
    H = Array2 k rows_H /\ W = Array2 k rows_W /\
    length rows_H = length rows_H0 /\ length rows_W = length rows /\
    rectangular k rows_H /\ rectangular k rows_W /\
    (k <= s)%nat /\ (k <= length rows_H0)%nat /\
    StronglySorted lt rows /\ Forall (fun i => i < length rows_W0)%nat rows.
Proof.
  intros Hrect Hne Hd.
  apply _determine_statespace_inv in Hd
    as (size & rank & Bi & n_actual & W_actual & n_pseudo & W_pseudo
        & Hbi & HH & HWa & HWp & Hrows & HW).
  apply basis_inverse_shape in Hbi as (-> & Hpos & Hrank & HBilen & HBirect); [|done].
  apply matmul2_shape in HH as [_ HH].
  destruct rows_H0 as [|row0 rows_H0]; [done|].
  destruct HH as (rows_H & -> & HlenH & HrectH).
  destruct W0 as [|s' rows_W0]; [done|].
  pose proof HWa as HWa'. apply matmul2_shape in HWa' as [Hs' HWa'].
  rewrite length_fmap, HBilen in Hs'. subst s'.
  apply matmul2_shape in HWp as [_ HWp].
  destruct rows_W0 as [|w0 rows_W0]; [done|].
  destruct HWa' as (rows_a & Ha & Hlena & Hrecta).
  destruct HWp as (rows_p & Hp & Hlenp & Hrectp).
  inversion Ha; subst n_actual W_actual; clear Ha.
  inversion Hp; subst n_pseudo W_pseudo; clear Hp.
  assert (Hin : Forall (fun i => i < length (w0 :: rows_W0))%nat rows).
  { rewrite Hrows. apply Forall_forall. intros i [_ Hi%elem_of_seq]%list_elem_of_filter. lia. }
  exists (rank `min` s)%nat, (w0 :: rows_W0), rows_H, ((fun i => rows_a !!! i) <$> rows).
  split_and!; try done.
  - by rewrite length_fmap.
  - apply Forall_fmap, Forall_forall. intros i Hi. simpl.
    rewrite Forall_forall in Hin. specialize (Hin i Hi).
    apply rectangular_lookup_total; [done|lia].
  - lia.
  - simpl in *. lia.
  - rewrite Hrows. apply filter_StronglySorted, seq_StronglySorted.
Qed.

(** X15. The shapes [_determine_statespace] returns (S' <= S and O' <= O of
    its docstring): H has one row per row of H0, W one row per kept index, both
    have the same number k of columns, k is at most the number of columns and
    at most the number of rows of H0, W0 has the columns of H0, and the kept
    indices increase and are row indices of W0. *)
Theorem statespace_is_no_larger (s : nat) (rows_H0 : list (list Qc)) (W0 H W : ndarray)
    (rows : list nat) :
  rectangular s rows_H0 -> rows_H0 <> [] ->
  _determine_statespace (Array2 s rows_H0) W0 = Return (H, W, rows) ->
  exists k rows_W0 rows_H rows_W,
    W0 = Array2 s rows_W0 /\
    H = Array2 k rows_H /\ W = Array2 k rows_W /\
    length rows_H = length rows_H0 /\ length rows_W = length rows /\
    rectangular k rows_H /\ rectangular k rows_W /\
    (k <= s)%nat /\ (k <= length rows_H0)%nat /\
    StronglySorted lt rows /\ Forall (fun i => i < length rows_W0)%nat rows.
Proof. apply _determine_statespace_shape. Qed.

(** ** The outputs of determine_statespace *)

Lemma select_locations_from (l : list string) rows : forall k outs,
  StronglySorted lt rows -> Forall (fun i => k <= i)%nat rows ->
  select_locations l rows = Return outs ->
  outs `sublist_of` drop k l /\ length outs = length rows.
Proof.
  unfold select_locations.
  induction rows as [|i rows IH]; intros k outs Hs Hk Hm; simpl in Hm.
  - inversion Hm. split; [apply sublist_nil_l | done].
  - apply StronglySorted_cons in Hs as [Hlt Hs].
    apply Forall_cons in Hk as [Hki Hk].
    destruct (l !! i) as [loc|] eqn:Hi; [|done]. simpl in Hm.
    apply bind_Return in Hm as (outs' & Houts' & Hm). inversion Hm; subst outs; clear Hm.
    destruct (IH (S i) outs' Hs) as [Hsub Hlen]; [|done|].
    { eapply Forall_impl; [exact Hlt|]. simpl. intros; lia. }
    split; [|simpl; by rewrite Hlen].
    rewrite <- (take_drop (i - k) (drop k l)). apply sublist_inserts_l.
    rewrite drop_drop. replace (k + (i - k))%nat with i by lia.
    rewrite (drop_S _ _ _ Hi). by apply sublist_skip.
Qed.

Lemma select_locations_sublist (l : list string) rows outs :
  StronglySorted lt rows -> select_locations l rows = Return outs ->
  outs `sublist_of` l /\ length outs = length rows.
Proof.
  intros Hs Hm. destruct (select_locations_from l rows 0 outs) as [? ?]; try done.
  apply Forall_forall. intros; lia.
Qed.

Section outputs.

Context (region_map : gmap string (list string))
        (region_list atom_list : list string)
        (get_population : string -> option Z -> result Z).

Lemma determine_statespace_wrapped_inv input_locations season exclude_locations H W outs :
  determine_statespace_wrapped region_map region_list atom_list get_population
    input_locations season exclude_locations = Return (H, W, outs) ->
  list_to_set exclude_locations ∩ list_to_set input_locations =@{gset string} ∅ /\
  exists H0 W0 H' W',
    get_weight_matrix region_map get_population input_locations season
      (atoms atom_list exclude_locations) = Return H0 /\
    get_weight_matrix region_map get_population
      (all_locations region_list exclude_locations) season
      (atoms atom_list exclude_locations) = Return W0 /\
    astype_float H' = Return H /\ astype_float W' = Return W /\
    ((list_to_set (atoms atom_list exclude_locations) ⊆@{gset string}
        list_to_set input_locations /\
      H' = H0 /\ W' = W0 /\ outs = all_locations region_list exclude_locations) \/
     (~ list_to_set (atoms atom_list exclude_locations) ⊆@{gset string}
          list_to_set input_locations /\
      exists rows, _determine_statespace H0 W0 = Return (H', W', rows) /\
        select_locations (all_locations region_list exclude_locations) rows = Return outs)).
Proof.
  unfold determine_statespace_wrapped. case_bool_decide as Hov; [done|].
  intros Hd. split; [by destruct (decide (list_to_set exclude_locations ∩ list_to_set input_locations =@{gset string} ∅))|].
  apply bind_Return in Hd as (H0 & HH0 & Hd).
  apply bind_Return in Hd as (W0 & HW0 & Hd).
  apply bind_Return in Hd as ([[H' W'] outs'] & Hpath & Hd).
  apply bind_Return in Hd as (Hf & HHf & Hd).
  apply bind_Return in Hd as (Wf & HWf & Hd).
  inversion Hd; subst Hf Wf outs'; clear Hd.
  exists H0, W0, H', W'. split_and!; try done.
  case_bool_decide as Hfast.
  - left. by inversion Hpath.
  - right. split; [done|].
    apply bind_Return in Hpath as ([[H2 W2] rows] & Hds & Hpath).
    apply bind_Return in Hpath as (outs2 & Hsel & Hpath).
    inversion Hpath; subst. eauto.
Qed.

(** X16. What a call that returns never does: its outputs are a
    subsequence of the candidate list, so they are known locations in the
    order of [region_list], none of them excluded; and no input is
    excluded. *)
Theorem outputs_are_candidates input_locations season exclude_locations H W outs :
  determine_statespace_wrapped region_map region_list atom_list get_population
    input_locations season exclude_locations = Return (H, W, outs) ->
  outs `sublist_of` all_locations region_list exclude_locations /\
  Forall (fun g => g ∈ region_list /\ g ∉ exclude_locations) outs /\
  Forall (fun g => g ∉ exclude_locations) input_locations.
Proof.
  intros (Hdisj & H0 & W0 & H' & W' & _ & _ & _ & _ & Hpath)%determine_statespace_wrapped_inv.
  assert (Hsub : outs `sublist_of` all_locations region_list exclude_locations).
  { destruct Hpath as [(_ & _ & _ & ->)|(_ & rows & Hds & Hsel)]; [done|].
    apply _determine_statespace_inv in Hds
      as (? & ? & ? & ? & ? & ? & W_pseudo & _ & _ & _ & _ & Hrows & _).
    eapply select_locations_sublist; [|done].
    rewrite Hrows. apply filter_StronglySorted, seq_StronglySorted. }
  split_and!; [done| |].
  - apply Forall_forall. intros g Hg.
    assert (Hin : g ∈ all_locations region_list exclude_locations).
    { by eapply elem_of_sublist. }
    unfold all_locations in Hin. apply list_elem_of_filter in Hin as [? ?]. done.
  - apply Forall_forall. intros g Hg Hex.
    assert (Hboth : g ∈ (list_to_set exclude_locations ∩ list_to_set input_locations : gset string)).
    { apply elem_of_intersection. by rewrite !elem_of_list_to_set. }
    rewrite Hdisj in Hboth. by apply elem_of_empty in Hboth.
Qed.

Lemma determine_statespace_wrapped_nil season exclude_locations :
  atoms atom_list exclude_locations <> [] ->
  determine_statespace_wrapped region_map region_list atom_list get_population
    [] season exclude_locations
  = let* _ := get_weight_matrix region_map get_population
                (all_locations region_list exclude_locations) season
                (atoms atom_list exclude_locations) in
    Raise ValueError.
Proof.
  intros Hne. unfold determine_statespace_wrapped.
  rewrite bool_decide_false.
  2:{ intros Hov. apply Hov. simpl. apply intersection_empty_r_L. }
  cbn [get_weight_matrix mapM bind np_array].
  destruct (get_weight_matrix _ _ _ _ _) as [W0|e]; simpl; [|done].
  rewrite bool_decide_false; [done|].
  intros Hsub. destruct (atoms atom_list exclude_locations) as [|a l]; [done|].
  apply (not_elem_of_empty (C:=gset string) a), Hsub, elem_of_list_to_set. by left.
Qed.

Lemma determine_statespace_wrapped_ext input_locations season exclude1 exclude2 :
  (forall a, a ∈ exclude1 <-> a ∈ exclude2) ->
  determine_statespace_wrapped region_map region_list atom_list get_population
    input_locations season exclude1
  = determine_statespace_wrapped region_map region_list atom_list get_population
      input_locations season exclude2.
Proof.
  intros Hsame. unfold determine_statespace_wrapped.
  assert (Hset : list_to_set exclude1 =@{gset string} list_to_set exclude2).
  { apply set_eq. intros a. by rewrite !elem_of_list_to_set. }
  assert (Hfilter : forall l : list string,
            filter (atom_filter exclude1) l = filter (atom_filter exclude2) l).
  { intros l. apply list_filter_iff. intros a. unfold atom_filter. by rewrite Hsame. }
  unfold all_locations, atoms. by rewrite Hset, !Hfilter.
Qed.

(** X18. With no input location and at least one atom left, the call
    never returns: once the candidate matrix W0 is built it raises
    [ValueError], from unpacking the shape of the one-dimensional
    [np.array([])] in [eliminate]; if W0 cannot be built it raises the
    exception of W0. *)
Theorem no_inputs_raises season exclude_locations :
  atoms atom_list exclude_locations <> [] ->
  determine_statespace_wrapped region_map region_list atom_list get_population
    [] season exclude_locations
  = let* _ := get_weight_matrix region_map get_population
                (all_locations region_list exclude_locations) season
                (atoms atom_list exclude_locations) in
    Raise ValueError.
Proof. apply determine_statespace_wrapped_nil. Qed.

(** X19. The result depends on [exclude_locations] only through its
    elements: two tuples with the same elements, in any order and with any
    repetition, give the same result (the decorator keys them apart). *)
Theorem exclude_locations_as_a_set input_locations season exclude1 exclude2 :
  (forall a, a ∈ exclude1 <-> a ∈ exclude2) ->
  determine_statespace_wrapped region_map region_list atom_list get_population
    input_locations season exclude1
  = determine_statespace_wrapped region_map region_list atom_list get_population
      input_locations season exclude2.
Proof. apply determine_statespace_wrapped_ext. Qed.

End outputs.

(** ** The tables of locations.py *)

Lemma atom_list_NoDup : NoDup Locations.atom_list.
Proof. apply (bool_decide_unpack _). vm_compute. exact I. Qed.

Lemma region_list_NoDup : NoDup Locations.region_list.
Proof. apply (bool_decide_unpack _). vm_compute. exact I. Qed.

Lemma atoms_are_regions :
  Forall (fun a => a ∈ Locations.region_list /\ Locations.region_map !! a = Some [a])
         Locations.atom_list.
Proof. apply (bool_decide_unpack _). vm_compute. exact I. Qed.

Lemma regions_hold_atoms :
  Forall (fun g => members g <> [] /\ Forall (fun a => a ∈ Locations.atom_list) (members g))
         Locations.region_list.
Proof. apply (bool_decide_unpack _). vm_compute. exact I. Qed.

Lemma region_members g :
  g ∈ Locations.region_list ->
  exists ms, Locations.region_map !! g = Some ms /\ ms <> [] /\
             Forall (fun a => a ∈ Locations.atom_list) ms.
Proof.
  intros Hg. pose proof regions_hold_atoms as Hall.
  rewrite Forall_forall in Hall. destruct (Hall g Hg) as [Hne Hms].
  unfold members in *. destruct (Locations.region_map !! g) as [ms|]; [|done].
  by exists ms.
Qed.

Lemma same_elements_Permutation (l k : list string) :
  NoDup l -> NoDup k -> list_to_set l =@{gset string} list_to_set k -> l ≡ₚ k.
Proof.
  intros Hl Hk Hset. apply NoDup_Permutation; [done|done|].
  intros x. by rewrite <- !(elem_of_list_to_set (C:=gset string)), Hset.
Qed.

(** X7. The hierarchy of locations.py has no gaps and no overlaps: the ten
    HHS regions partition the atoms, and so do the nine census divisions;
    "nat" holds every atom, "ny" is "jfk" with "ny_minus_jfk", and an atom is
    its own only member; [region_list] has no duplicate and lists exactly the
    keys of [region_map]. *)
Theorem locations_hierarchy :
  members_of Locations.hhs_list ≡ₚ Locations.atom_list /\
  members_of Locations.cen_list ≡ₚ Locations.atom_list /\
  members_of Locations.nat_list = Locations.atom_list /\
  members_of Locations.ny_state_list = ["jfk"; "ny_minus_jfk"] /\
  (forall a, a ∈ Locations.atom_list -> Locations.region_map !! a = Some [a]) /\
  NoDup Locations.region_list /\
  (forall g, g ∈ Locations.region_list <-> is_Some (Locations.region_map !! g)).
Proof.
  split_and!.
  - apply same_elements_Permutation; apply (bool_decide_unpack _); vm_compute; exact I.
  - apply same_elements_Permutation; apply (bool_decide_unpack _); vm_compute; exact I.
  - vm_compute. reflexivity.
  - vm_compute. reflexivity.
  - intros a Ha. pose proof atoms_are_regions as Hall.
    rewrite Forall_forall in Hall. by destruct (Hall a Ha).
  - apply region_list_NoDup.
  - intros g. rewrite <- elem_of_dom, <- (elem_of_list_to_set (C:=gset string)).
    assert (Hdom : list_to_set Locations.region_list = dom Locations.region_map).
    { apply (bool_decide_unpack _). vm_compute. exact I. }
    by rewrite Hdom.
Qed.

(** ** determine_statespace over the tables of the repository *)

Lemma population_of_outcome season atom :
  if listed atom (read_year season)
  then exists p, population_of populations.get_population season atom = Return p /\ 0 < p
  else population_of populations.get_population season atom = Raise (KeyError atom).
Proof.
  unfold population_of, read_year.
  pose proof (get_population_outcome atom (if truthy season then season else None)) as Ho.
  destruct (truthy season); destruct (listed atom _); try done;
    destruct Ho as (p & Hp & Hpos); exists p; (split; [done|lia]).
Qed.

Lemma mapM_total {A B} (f : A -> result B) l :
  (forall x, x ∈ l -> exists y, f x = Return y) -> exists l', mapM f l = Return l'.
Proof.
  induction l as [|x l IH]; intros Hall; simpl; [by eexists|].
  destruct (Hall x) as (y & ->); [by left|].
  destruct IH as (l' & ->); [intros z Hz; apply Hall; by right|].
  by eexists.
Qed.

Lemma sum_nonzero (l : list Z) :
  foldr Z.add 0 l <> 0 -> exists j p, l !! j = Some p /\ p <> 0.
Proof.
  induction l as [|x l IH]; simpl; [done|]. intros Hs.
  destruct (decide (x = 0)) as [->|Hx].
  - destruct IH as (j & p & Hj & Hp); [lia|]. by exists (S j), p.
  - by exists 0%nat, x.
Qed.

Lemma elem_of_atoms ex a :
  a ∈ UsFusion.atoms ex <-> a ∈ Locations.atom_list /\ a ∉ ex.
Proof.
  unfold UsFusion.atoms, atoms, atom_filter. rewrite list_elem_of_filter. tauto.
Qed.

Lemma elem_of_all_locations ex g :
  g ∈ UsFusion.all_locations ex <-> g ∈ Locations.region_list /\ g ∉ ex.
Proof.
  unfold UsFusion.all_locations, all_locations, atom_filter. rewrite list_elem_of_filter. tauto.
Qed.

Lemma atoms_in_all_locations ex a :
  a ∈ UsFusion.atoms ex -> a ∈ UsFusion.all_locations ex.
Proof.
  rewrite elem_of_atoms, elem_of_all_locations. intros [Ha Hex]. split; [|done].
  pose proof atoms_are_regions as Hall. rewrite Forall_forall in Hall.
  by destruct (Hall a Ha).
Qed.

(** A known group gets a weight row exactly when one of its members is left
    among the atoms and every member left has a weight in the table read. *)
Lemma us_weight_row_returns g ms season ex :
  Locations.region_map !! g = Some ms ->
  (exists a, a ∈ ms /\ a ∈ UsFusion.atoms ex) ->
  (forall a, a ∈ ms -> a ∈ UsFusion.atoms ex -> listed a (read_year season) = true) ->
  exists row, UsFusion.get_weight_row g season (UsFusion.atoms ex) = Return row.
Proof.
  intros Hg (a & Hms & Ha) Hlisted.
  assert (Hread : forall atom, atom ∈ UsFusion.atoms ex -> atom ∈ ms ->
            exists p, population_of populations.get_population season atom = Return p /\ 0 < p).
  { intros atom Hin Hmem. pose proof (population_of_outcome season atom) as Ho.
    by rewrite (Hlisted atom Hmem Hin) in Ho. }
  destruct (get_weight_row_normalised Locations.region_map populations.get_population
              g ms season (UsFusion.atoms ex)) as (row & Hrow & _); [done| | |by exists row].
  - intros atom Hin Hmem. destruct (Hread atom Hin Hmem) as (p & Hp & Hpos).
    exists p. split; [done|lia].
  - destruct (Hread a Ha Hms) as (p & Hp & Hpos). exists a, p. split_and!; try done. lia.
Qed.

Lemma candidate_matrix_admissible (season : option Z) (exclude_locations : list string) :
  (exists W0, UsFusion.get_weight_matrix (UsFusion.all_locations exclude_locations) season
                (UsFusion.atoms exclude_locations) = Return W0)
  <->
  (forall g ms, g ∈ Locations.region_list -> g ∉ exclude_locations ->
     Locations.region_map !! g = Some ms -> exists a, a ∈ ms /\ a ∉ exclude_locations) /\
  (forall a, a ∈ Locations.atom_list -> a ∉ exclude_locations ->
     listed a (read_year season) = true).
Proof.
  set (ex := exclude_locations).
  unfold UsFusion.get_weight_matrix, get_weight_matrix. split.
  - intros (W0 & HW0). apply bind_Return in HW0 as (rows & Hrows & _).
    assert (Hrow : forall g, g ∈ Locations.region_list -> g ∉ ex ->
              exists ms pops,
                Locations.region_map !! g = Some ms /\
                populations_of populations.get_population ms season (UsFusion.atoms ex)
                  = Return pops /\
                foldr Z.add 0 pops <> 0).
    { intros g Hg Hex.
      assert (Hin : g ∈ UsFusion.all_locations ex) by (by apply elem_of_all_locations).
      apply list_elem_of_lookup in Hin as (i & Hi).
      destruct (mapM_Return_lookup _ _ _ _ _ Hrows Hi) as (row & _ & Hget).
      apply get_weight_row_Return in Hget as (ms & pops & ? & ? & ? & _). eauto. }
    split.
    + intros g ms Hg Hex Hms. destruct (Hrow g Hg Hex) as (ms' & pops & Hms' & Hpops & Htotal).
      assert (ms' = ms) as -> by congruence.
      apply sum_nonzero in Htotal as (j & p & Hj & Hp).
      assert (Hlen := mapM_Return_length _ _ _ Hpops).
      destruct (lookup_lt_is_Some_2 (UsFusion.atoms ex) j) as [a Ha].
      { apply lookup_lt_Some in Hj. lia. }
      destruct (mapM_Return_lookup _ _ _ _ _ Hpops Ha) as (p' & Hp' & Hread).
      assert (p' = p) as -> by congruence.
      case_bool_decide as Hmem; [|by inversion Hread].
      exists a. split; [done|]. by apply list_elem_of_lookup_2, elem_of_atoms in Ha as [_ ?].
    + intros a Ha Hex.
      pose proof atoms_are_regions as Hall. rewrite Forall_forall in Hall.
      destruct (Hall a Ha) as [Hreg Hself].
      destruct (Hrow a Hreg Hex) as (ms & pops & Hms & Hpops & _).
      assert (ms = [a]) as -> by congruence.
      assert (Hin : a ∈ UsFusion.atoms ex) by (by apply elem_of_atoms).
      apply list_elem_of_lookup in Hin as (j & Hj).
      destruct (mapM_Return_lookup _ _ _ _ _ Hpops Hj) as (p & _ & Hread).
      rewrite bool_decide_true in Hread by (by left).
      pose proof (population_of_outcome season a) as Ho.
      destruct (listed a (read_year season)); [done|]. congruence.
  - intros [Hmembers Hlisted].
    destruct (mapM_total (fun loc => get_weight_row Locations.region_map
                populations.get_population loc season (UsFusion.atoms ex))
                (UsFusion.all_locations ex)) as (rows & Hrows).
    + intros g [Hg Hex]%elem_of_all_locations.
      destruct (region_members g Hg) as (ms & Hms & _ & Hatoms).
      rewrite Forall_forall in Hatoms.
      apply (us_weight_row_returns g ms season ex Hms).
      * destruct (Hmembers g ms Hg Hex Hms) as (a & Ha & Haex).
        exists a. split; [done|]. apply elem_of_atoms. split; [by apply Hatoms|done].
      * intros a _ [Ha Haex]%elem_of_atoms. by apply Hlisted.
    + exists (np_array rows). by rewrite Hrows.
Qed.

(** X20. On the tables of the repository the candidate matrix W0 is built
    exactly when every known group that is not itself excluded keeps a member
    that is not excluded, and every atom that is not excluded has a weight in
    the table of the year read. *)
Theorem candidate_matrix_returns_iff (season : option Z) (exclude_locations : list string) :
  (exists W0, UsFusion.get_weight_matrix (UsFusion.all_locations exclude_locations) season
                (UsFusion.atoms exclude_locations) = Return W0)
  <->
  (forall g ms, g ∈ Locations.region_list -> g ∉ exclude_locations ->
     Locations.region_map !! g = Some ms -> exists a, a ∈ ms /\ a ∉ exclude_locations) /\
  (forall a, a ∈ Locations.atom_list -> a ∉ exclude_locations ->
     listed a (read_year season) = true).
Proof. apply candidate_matrix_admissible. Qed.

(** X17. The shapes of a returned result, on the tables of the repository
    and for at least one input: H has one row per input, W has one row per
    output, and both have the same number of columns, which is at most the
    number of atoms left and at most the number of inputs. *)
Theorem statespace_shapes (input_locations : list string) (season : option Z)
    (exclude_locations : list string) (H W : ndarray) (outs : list string) :
  UsFusion.determine_statespace_wrapped input_locations season exclude_locations
    = Return (H, W, outs) ->
  input_locations <> [] ->
  exists k,
    shape H = [length input_locations; k] /\ shape W = [length outs; k] /\
    (k <= length (UsFusion.atoms exclude_locations))%nat /\
    (k <= length input_locations)%nat.
Proof.
  intros (Hdisj & H0 & W0 & H' & W' & HH0 & HW0 & HH & HW & Hpath)%determine_statespace_wrapped_inv
         Hne.
  fold (UsFusion.atoms exclude_locations) in *.
  fold (UsFusion.all_locations exclude_locations) in *.
  set (atoms := UsFusion.atoms exclude_locations) in *.
  apply astype_float_shape in HH. apply astype_float_shape in HW. rewrite HH, HW.
  apply get_weight_matrix_Return in HH0.
  destruct input_locations as [|loc0 inputs]; [done|].
  destruct HH0 as (rows_H0 & -> & Hlen0 & Hrect0 & Hrows0).
  destruct (Hrows0 0%nat loc0 eq_refl) as (row0 & Hrow0 & Hget0 & Hsum0).
  assert (Hatom : exists a, a ∈ atoms).
  { apply get_weight_row_Return_sum in Hget0 as (_ & _ & Hl & _ & _).
    destruct atoms as [|a ?] eqn:Ha; [|exists a; by left].
    destruct row0; [|done]. done. }
  destruct Hatom as (a0 & Ha0).
  destruct Hpath as [(Hfast & -> & -> & ->)|(_ & rows & Hds & Hsel)].
  - exists (length atoms).
    apply get_weight_matrix_Return in HW0.
    destruct (UsFusion.all_locations exclude_locations) as [|g0 all] eqn:Hall.
    { apply atoms_in_all_locations in Ha0. rewrite Hall in Ha0. by apply elem_of_nil in Ha0. }
    destruct HW0 as (rows_W0 & -> & HlenW & _ & _).
    simpl. rewrite Hlen0, HlenW. split_and!; [done|done|done|].
    change (S (length inputs)) with (length (loc0 :: inputs)).
    apply submseteq_length, NoDup_submseteq.
    + apply NoDup_filter, atom_list_NoDup.
    + intros a Ha. apply (elem_of_list_to_set (C:=gset string)), Hfast, elem_of_list_to_set, Ha.
  - apply _determine_statespace_shape in Hds
      as (k & rows_W0 & rows_H & rows_W & -> & -> & -> & HlenH & HlenW & _ & _ & Hks & Hkr & Hsorted & _);
      [|done|by destruct rows_H0].
    apply select_locations_sublist in Hsel as [_ Hlen]; [|done].
    exists k. simpl. rewrite HlenH, HlenW, Hlen0, Hlen. split_and!; try done.
    simpl in Hlen0. lia.
Qed.

(** X21. A call that raises stores nothing: after any calls, a call whose
    arguments make the function raise is a miss, raises that exception and
    leaves the cache as it was, and its key is not in the cache (so the
    function runs again the next time). *)
Theorem failed_calls_are_not_cached (history : list UsFusion.key) (k : UsFusion.key)
    (e : exn) :
  UsFusion.call_wrapped k = Raise e ->
  UsFusion.determine_statespace (UsFusion.cache_after history) k
    = (Miss, Raise e, UsFusion.cache_after history) /\
  k ∉ (UsFusion.cache_after history).*1.
Proof.
  intros Hk.
  assert (Hok : cache_ok 16 UsFusion.call_wrapped (UsFusion.cache_after history)).
  { apply lru_run_ok, cache_ok_nil. }
  split.
  - by apply lru_call_raise.
  - intros ([k' v] & -> & Hin)%list_elem_of_fmap. simpl in Hk.
    apply (cache_coherent _ _ _ Hok) in Hin. congruence.
Qed.

(** ** Weights as floats *)

Lemma floor_log2_upper a d :
  0 < a -> 0 < d ->
  a * 2 ^ Z.max 0 (- (Float64.floor_log2 a d + 1))
  < d * 2 ^ Z.max 0 (Float64.floor_log2 a d + 1).
Proof.
  intros Ha Hd. unfold Float64.floor_log2.
  set (e0 := Z.log2 a - Z.log2 d).
  destruct (d * 2 ^ Z.max 0 e0 <=? a * 2 ^ Z.max 0 (- e0)) eqn:Ht.
  - pose proof (Z.log2_spec a Ha) as [Ha1 Ha2].
    pose proof (Z.log2_spec d Hd) as [Hd1 Hd2].
    pose proof (Z.log2_nonneg a) as Hla. pose proof (Z.log2_nonneg d) as Hld.
    destruct (Z.le_gt_cases 0 (e0 + 1)) as [Hpos|Hneg].
    + rewrite (Z.max_r 0 (e0 + 1)), (Z.max_l 0 (- (e0 + 1))) by lia.
      rewrite Z.pow_0_r, Z.mul_1_r.
      assert (Hsplit : 2 ^ Z.log2 d * 2 ^ (e0 + 1) = 2 ^ Z.succ (Z.log2 a)).
      { rewrite <- Z.pow_add_r by lia. f_equal. unfold e0. lia. }
      assert (0 < 2 ^ (e0 + 1)) by (apply Z.pow_pos_nonneg; lia).
      nia.
    + rewrite (Z.max_l 0 (e0 + 1)), (Z.max_r 0 (- (e0 + 1))) by lia.
      rewrite Z.pow_0_r, Z.mul_1_r.
      assert (Hsplit : 2 ^ Z.succ (Z.log2 a) * 2 ^ (- (e0 + 1)) = 2 ^ Z.log2 d).
      { rewrite <- Z.pow_add_r by lia. f_equal. unfold e0. lia. }
      assert (0 < 2 ^ (- (e0 + 1))) by (apply Z.pow_pos_nonneg; lia).
      nia.
  - apply Z.leb_gt in Ht. replace (e0 - 1 + 1) with e0 by lia. done.
Qed.

Lemma round_half_even_le N D :
  0 <= N -> 0 < D -> Float64.round_half_even N D <= N / D + 1.
Proof.
  intros HN HD. unfold Float64.round_half_even.
  destruct (2 * (N mod D) ?= D); [destruct (Z.even (N / D))|..]; lia.
Qed.

(** A Fraction between 0 and 1 has a float: no overflow. *)
Lemma of_Fraction_unit x :
  (0 <= x <= 1)%Qc -> exists y, Float64.of_Fraction x = Return y.
Proof.
  intros [H0 H1]. unfold Float64.of_Fraction, Float64.of_ratio.
  set (n := Qnum (this x)). set (d := Z.pos (Qden (this x))).
  assert (Hn : 0 <= n <= d).
  { unfold Qcle, Qle in H0, H1. simpl in H0, H1. fold n in H0, H1. fold d in H1. lia. }
  destruct (n =? 0) eqn:Hn0; [by eexists|]. apply Z.eqb_neq in Hn0.
  rewrite (Z.abs_eq n) by lia.
  set (fl := Float64.floor_log2 n d).
  set (t := Z.max (fl - 52) (-1074)).
  set (m := Float64.round_half_even (n * 2 ^ Z.max 0 (- t)) (d * 2 ^ Z.max 0 t)).
  assert (Hd : 0 < d) by (unfold d; lia).
  pose proof (floor_log2_lower n d ltac:(lia) Hd) as Hlow. fold fl in Hlow.
  pose proof (floor_log2_upper n d ltac:(lia) Hd) as Hup. fold fl in Hup.
  assert (Hfl : fl <= 0).
  { destruct (Z.le_gt_cases fl 0) as [|Hpos]; [done|]. exfalso.
    rewrite (Z.max_r 0 fl), (Z.max_l 0 (- fl)), Z.pow_0_r in Hlow by lia.
    assert (2 ^ 1 <= 2 ^ fl) by (apply Z.pow_le_mono_r; lia). nia. }
  assert (Ht : t <= -52) by (unfold t; lia).
  assert (Ht' : -1074 <= t) by (unfold t; lia).
  assert (Hm : m <= 2 ^ 53).
  { unfold m. rewrite (Z.max_l 0 t), (Z.max_r 0 (- t)), Z.pow_0_r, Z.mul_1_r by lia.
    assert (Hp : 0 < 2 ^ (- t)) by (apply Z.pow_pos_nonneg; lia).
    etransitivity; [apply round_half_even_le; nia|].
    assert (n * 2 ^ (- t) / d < 2 ^ 53); [|lia].
    apply Z.div_lt_upper_bound; [done|].
    destruct (Z.eq_dec fl 0) as [Hz|Hnz].
    - rewrite Hz in Hup. change (Z.max 0 (- (0 + 1))) with 0 in Hup.
      change (Z.max 0 (0 + 1)) with 1 in Hup. rewrite Z.pow_0_r, Z.pow_1_r in Hup.
      assert (t = -52) as -> by (unfold t; lia). change (- -52) with 52.
      change (2 ^ 53) with (2 * 2 ^ 52). nia.
    - rewrite (Z.max_r 0 (- (fl + 1))), (Z.max_l 0 (fl + 1)), Z.pow_0_r in Hup by lia.
      assert (Hle : 2 ^ (- t) <= 2 ^ (- (fl + 1)) * 2 ^ 53).
      { rewrite <- Z.pow_add_r by lia. apply Z.pow_le_mono_r; lia. }
      assert (0 < 2 ^ (- (fl + 1))) by (apply Z.pow_pos_nonneg; lia).
      assert (0 < 2 ^ 53) by (apply Z.pow_pos_nonneg; lia).
      nia. }
  rewrite (Z.max_l 0 t) by lia. rewrite Z.pow_0_r, Z.mul_1_r.
  fold m. destruct (2 ^ 1024 <=? m) eqn:Hov; [|by eexists].
  apply Z.leb_le in Hov. exfalso.
  assert (2 ^ 53 < 2 ^ 1024) by (apply Z.pow_lt_mono_r; lia). lia.
Qed.

(** ** The typical case returns *)

Lemma population_of_positive season atom p :
  population_of populations.get_population season atom = Return p -> 0 < p.
Proof. unfold population_of. destruct (truthy season); apply get_population_positive. Qed.

(** The weights of a row of the repository lie between 0 and 1. *)
Lemma us_weight_row_unit location season atoms row :
  UsFusion.get_weight_row location season atoms = Return row ->
  Forall (fun w => (0 <= w <= 1)%Qc) row.
Proof.
  intros Hrow. pose proof Hrow as Hlen.
  apply get_weight_row_Return_sum in Hlen as (_ & _ & Hlen & _ & _).
  apply get_weight_row_entries in Hrow as (members & _ & Hentries).
  2:{ intros atom p _. apply population_of_positive. }
  apply Forall_lookup. intros i w Hw.
  destruct (lookup_lt_is_Some_2 atoms i) as [atom Hatom].
  { apply lookup_lt_Some in Hw. lia. }
  destruct (Hentries i atom Hatom) as (w' & Hw' & Hunit & _). congruence.
Qed.

Lemma astype_float_unit n rows :
  Forall (Forall (fun w => (0 <= w <= 1)%Qc)) rows ->
  exists M, astype_float (Array2 n rows) = Return M.
Proof.
  intros Hall. simpl.
  destruct (mapM_total (mapM Float64.of_Fraction) rows) as (rows' & ->); [|by eexists].
  intros row Hrow. rewrite Forall_forall in Hall. specialize (Hall row Hrow).
  apply mapM_total. intros w Hw. rewrite Forall_forall in Hall.
  by apply of_Fraction_unit, Hall.
Qed.

Lemma us_weight_matrix_float locations season atoms M :
  UsFusion.get_weight_matrix locations season atoms = Return M ->
  exists M', astype_float M = Return M'.
Proof.
  unfold UsFusion.get_weight_matrix, get_weight_matrix. intros HM.
  apply bind_Return in HM as (rows & Hrows & HM). inversion HM; subst M; clear HM.
  destruct rows as [|row0 rows]; [by eexists|]. cbn [np_array].
  apply astype_float_unit. apply Forall_lookup. intros i row Hrow.
  assert (Hlen := mapM_Return_length _ _ _ Hrows).
  destruct (lookup_lt_is_Some_2 locations i) as [loc Hloc].
  { apply lookup_lt_Some in Hrow. lia. }
  destruct (mapM_Return_lookup _ _ _ _ _ Hrows Hloc) as (row' & Hrow' & Hget).
  assert (row' = row) as -> by congruence.
  by eapply us_weight_row_unit.
Qed.

Lemma us_fast_path (input_locations : list string) (season : option Z)
    (exclude_locations : list string) (W0 : ndarray) :
  list_to_set exclude_locations ∩ list_to_set input_locations =@{gset string} ∅ ->
  list_to_set (UsFusion.atoms exclude_locations) ⊆@{gset string} list_to_set input_locations ->
  Forall (fun g => g ∈ Locations.region_list) input_locations ->
  UsFusion.get_weight_matrix (UsFusion.all_locations exclude_locations) season
    (UsFusion.atoms exclude_locations) = Return W0 ->
  exists H W,
    UsFusion.determine_statespace_wrapped input_locations season exclude_locations
    = Return (H, W, UsFusion.all_locations exclude_locations).
Proof.
  intros Hdisj Hfast Hknown HW0.
  assert (HH0 : exists H0, UsFusion.get_weight_matrix input_locations season
                  (UsFusion.atoms exclude_locations) = Return H0).
  { unfold UsFusion.get_weight_matrix, get_weight_matrix in *.
    apply bind_Return in HW0 as (rows & Hrows & _).
    destruct (mapM_total (fun loc => get_weight_row Locations.region_map
                populations.get_population loc season (UsFusion.atoms exclude_locations))
                input_locations) as (rowsH & ->); [|by eexists].
    intros g Hg. rewrite Forall_forall in Hknown.
    assert (Hin : g ∈ UsFusion.all_locations exclude_locations).
    { apply elem_of_all_locations. split; [by apply Hknown|].
      intros Hex.
      assert (Hboth : g ∈ (list_to_set exclude_locations ∩ list_to_set input_locations
                            : gset string)).
      { apply elem_of_intersection. by rewrite !elem_of_list_to_set. }
      rewrite Hdisj in Hboth. by apply elem_of_empty in Hboth. }
    apply list_elem_of_lookup in Hin as (i & Hi).
    destruct (mapM_Return_lookup _ _ _ _ _ Hrows Hi) as (row & _ & Hget). eauto. }
  destruct HH0 as (H0 & HH0).
  destruct (us_weight_matrix_float _ _ _ _ HH0) as (H & HH).
  destruct (us_weight_matrix_float _ _ _ _ HW0) as (W & HW).
  exists H, W. unfold UsFusion.determine_statespace_wrapped, determine_statespace_wrapped.
  rewrite bool_decide_false by (by intros Hne).
  fold (UsFusion.atoms exclude_locations). fold (UsFusion.all_locations exclude_locations).
  fold UsFusion.get_weight_matrix. rewrite HH0, HW0. cbn [bind].
  rewrite bool_decide_true by done. cbn [bind]. by rewrite HH, HW.
Qed.

(** X22. The typical case returns. On the tables of the repository, when
    the inputs are known locations, none excluded, that hold every atom left,
    and the candidate matrix W0 is built, the call returns and its outputs are
    the whole candidate list: no conversion to float overflows, the weights
    lying between 0 and 1. *)
Theorem fast_path_returns (input_locations : list string) (season : option Z)
    (exclude_locations : list string) (W0 : ndarray) :
  list_to_set exclude_locations ∩ list_to_set input_locations =@{gset string} ∅ ->
  list_to_set (UsFusion.atoms exclude_locations) ⊆@{gset string} list_to_set input_locations ->
  Forall (fun g => g ∈ Locations.region_list) input_locations ->
  UsFusion.get_weight_matrix (UsFusion.all_locations exclude_locations) season
    (UsFusion.atoms exclude_locations) = Return W0 ->
  exists H W,
    UsFusion.determine_statespace_wrapped input_locations season exclude_locations
    = Return (H, W, UsFusion.all_locations exclude_locations).
Proof. apply us_fast_path. Qed.

(** ** The rank read off the elimination *)

Lemma filter_all {A} (P : A -> Prop) `{!forall x, Decision (P x)} (l : list A) :
  Forall P l -> filter P l = l.
Proof.
  induction 1 as [|x l Hx Hl IH]; [done|].
  rewrite filter_cons, decide_True by done. by rewrite IH.
Qed.

Lemma filter_none {A} (P : A -> Prop) `{!forall x, Decision (P x)} (l : list A) :
  Forall (fun x => ~ P x) l -> filter P l = [].
Proof.
  induction 1 as [|x l Hx Hl IH]; [done|].
  rewrite filter_cons, decide_False by done. done.
Qed.

Lemma sorted_below_length (ps : list nat) : forall a n,
  StronglySorted lt ps -> Forall (fun p => a <= p < n)%nat ps -> (length ps <= n - a)%nat.
Proof.
  induction ps as [|p ps IH]; intros a n Hs Hall; simpl; [lia|].
  apply StronglySorted_cons in Hs as [Hlt Hs].
  apply Forall_cons in Hall as [Hp Hall].
  assert (Hle : (length ps <= n - S p)%nat).
  { apply IH; [done|]. rewrite Forall_forall in Hlt, Hall |- *.
    intros q Hq. specialize (Hlt q Hq). specialize (Hall q Hq). lia. }
  lia.
Qed.

Lemma sum_abs_pos row : (0 < sum_abs row)%Qc <-> Exists (fun x => x <> 0%Qc) row.
Proof.
  split.
  - intros Hpos. apply not_Forall_Exists; [apply _|].
    intros Hall%sum_abs_zero. by apply Qclt_not_eq in Hpos.
  - intros Hex. destruct (Qclt_le_dec 0 (sum_abs row)) as [|Hle]; [done|].
    exfalso. assert (Hz : sum_abs row = 0%Qc).
    { apply Qcle_antisym; [done|apply sum_abs_nonneg]. }
    apply sum_abs_zero in Hz. apply Exists_exists in Hex as (x & Hx & Hne).
    rewrite Forall_forall in Hz. by apply Hne, Hz.
Qed.

(** In a reduced row echelon form with pivot columns [ps], the rows that are
    not all zero are the first [length ps] rows. *)
Lemma rref_nonzero_rows num_c ps X :
  rref num_c ps X ->
  count_nonzero_rows X = length ps /\ (length ps <= num_c)%nat /\
  forall i row, X !! i = Some row ->
    ((i < length ps)%nat <-> Exists (fun x => x <> 0%Qc) row).
Proof.
  intros [Hech Hcl]. pose proof Hech as [Hrect Hrank Hsorted Hcols Hpivot Hzero].
  assert (Hrows : forall i row, X !! i = Some row ->
            ((i < length ps)%nat <-> Exists (fun x => x <> 0%Qc) row)).
  { intros i row Hrow. split.
    - intros Hi. destruct (lookup_lt_is_Some_2 ps i Hi) as [p Hp].
      destruct (echelon_leading num_c ps X i p row Hech Hp Hrow) as [(x & Hx & Hne) _].
      apply Exists_exists. exists x. split; [by eapply list_elem_of_lookup_2 | done].
    - intros Hex. destruct (decide (i < length ps)%nat) as [|Hge]; [done|].
      exfalso. apply Exists_exists in Hex as (x & Hx & Hne).
      assert (Hall : Forall (fun x => x = 0%Qc) row).
      { eapply echelon_zero_row; [done| |done]. lia. }
      rewrite Forall_forall in Hall. by apply Hne, Hall. }
  split_and!; [|  |done].
  - unfold count_nonzero_rows.
    rewrite <- (take_drop (length ps) X), filter_app, length_app.
    rewrite filter_all, filter_none.
    + rewrite length_take. simpl. lia.
    + apply Forall_lookup. intros i row Hi. rewrite lookup_drop in Hi.
      rewrite sum_abs_pos, <- (Hrows _ _ Hi). lia.
    + apply Forall_lookup. intros i row Hi.
      assert (i < length ps)%nat.
      { apply lookup_lt_Some in Hi. rewrite length_take in Hi. lia. }
      rewrite lookup_take_lt in Hi by done.
      by rewrite sum_abs_pos, <- (Hrows _ _ Hi).
  - pose proof (sorted_below_length ps 0 num_c Hsorted) as Hlen.
    rewrite Nat.sub_0_r in Hlen. apply Hlen.
    eapply Forall_impl; [exact Hcols|]. simpl. intros; lia.
Qed.

(** X13. The rank that [_determine_statespace] reads off the elimination,
    the number of rows that are not all zero: when every pivot is found it is
    at most the number of rows and at most the number of columns, and the
    rows that are not all zero are exactly the first [rank] rows. *)
Theorem rank_counts_leading_rows (num_c : nat) (X R : list (list Qc)) :
  rectangular num_c X ->
  eliminate (Array2 num_c X) = Return (Array2 num_c R) ->
  pivots_found (length X) num_c 0 0 X = true ->
  (count_nonzero_rows R <= length X)%nat /\ (count_nonzero_rows R <= num_c)%nat /\
  forall i row, R !! i = Some row ->
    ((i < count_nonzero_rows R)%nat <-> Exists (fun x => x <> 0%Qc) row).
Proof.
  intros Hrect He Hpf. simpl in He.
  apply bind_Return in He as (rows & Hrows & He). inversion He; subst rows; clear He.
  destruct (eliminate_rows_rref num_c X R) as [Hlen (ps & Hrref)]; try done.
  destruct (rref_nonzero_rows num_c ps R Hrref) as (-> & Hle & Hiff).
  split_and!; [|done|done].
  rewrite <- Hlen. apply Hrref.
Qed.

(** X11. [eliminate] returns a matrix that already is in reduced row echelon
    form (leading ones in increasing columns, zero rows below, pivot columns
    cleared) unchanged. *)
Theorem eliminate_fixes_reduced_forms (num_c : nat) (ps : list nat) (X : list (list Qc)) :
  rref num_c ps X -> eliminate (Array2 num_c X) = Return (Array2 num_c X).
Proof. intros Hrref. simpl. by rewrite (eliminate_rows_fixed num_c ps X Hrref). Qed.

(** ** The solutions kept by the elimination *)

Lemma dot_cons u U v V : dot (u :: U) (v :: V) = (u * v + dot U V)%Qc.
Proof. unfold dot. cbn [zip_with foldl]. rewrite foldl_Qcplus_shift. ring. Qed.

Lemma dot_nil_r U : dot U [] = 0%Qc.
Proof. by destruct U. Qed.

Lemma dot_scale (p : Qc) U V :
  dot ((fun x => x / p)%Qc <$> U) V = (dot U V / p)%Qc.
Proof.
  revert V. induction U as [|u U IH]; intros [|v V]; rewrite ?fmap_cons, ?dot_cons;
    try (unfold dot, Qcdiv; simpl; ring).
  rewrite IH. unfold Qcdiv. ring.
Qed.

Lemma dot_combination (f : Qc) U W V :
  length U = length W ->
  dot (zip_with (fun x y => x - f * y)%Qc U W) V = (dot U V - f * dot W V)%Qc.
Proof.
  revert W V. induction U as [|u U IH]; intros [|w W] [|v V] Hlen; simpl in Hlen; try done;
    cbn [zip_with]; rewrite ?dot_cons, ?dot_nil_r; try (unfold dot; simpl; ring).
  rewrite IH by lia. ring.
Qed.

Lemma changed_from_zero_prefix (g : Qc -> Qc) c (row : list Qc) :
  g 0%Qc = 0%Qc -> Forall (fun x => x = 0%Qc) (take c row) ->
  take c row ++ (g <$> drop c row) = g <$> row.
Proof.
  intros Hg Hz. transitivity (g <$> (take c row ++ drop c row)); [|by rewrite take_drop].
  rewrite fmap_app. f_equal.
  symmetry. apply fmap_id_on. eapply Forall_impl; [exact Hz|]. simpl. by intros x ->.
Qed.

Lemma combined_from_zero_prefix (h : Qc -> Qc -> Qc) c (row other : list Qc) :
  (forall x, h x 0%Qc = x) -> length row = length other ->
  Forall (fun x => x = 0%Qc) (take c other) ->
  take c row ++ zip_with h (drop c row) (drop c other) = zip_with h row other.
Proof.
  intros Hh Hlen Hz.
  transitivity (zip_with h (take c row ++ drop c row) (take c other ++ drop c other));
    [|by rewrite !take_drop].
  rewrite zip_with_app by (rewrite !length_take; lia). f_equal.
  revert c other Hlen Hz.
  induction row as [|x row IH]; intros [|c] [|y other] Hlen Hz; simpl in *; try done.
  apply Forall_cons in Hz as [-> Hz]. rewrite Hh. f_equal. apply IH; [lia|done].
Qed.

Lemma annihilates_lookup X v :
  annihilates X v <-> forall i, (i < length X)%nat -> dot (X !!! i) v = 0%Qc.
Proof.
  unfold annihilates. rewrite Forall_lookup. split.
  - intros Hall i Hi. destruct (lookup_lt_is_Some_2 X i Hi) as [row Hrow].
    rewrite (list_lookup_total_correct _ _ _ Hrow). by eapply Hall.
  - intros Hall i row Hrow. rewrite <- (list_lookup_total_correct _ _ _ Hrow).
    apply Hall. by eapply lookup_lt_Some.
Qed.

Lemma zero_prefix num_c (X : list (list Qc)) i c :
  rectangular num_c X -> (i < length X)%nat ->
  (forall j, (j < c)%nat -> entry X i j = 0%Qc) ->
  Forall (fun x => x = 0%Qc) (take c (X !!! i)).
Proof.
  intros Hrect Hi Hz. apply Forall_lookup. intros j y Hy.
  apply lookup_take_Some in Hy as [Hy Hj].
  rewrite <- (Hz j Hj). unfold entry.
  symmetry. by apply list_lookup_total_correct.
Qed.

Section kernel_of_row_operations.

Context (num_c : nat).

Lemma swap_rows_kernel i r X v :
  (i < length X)%nat -> (r < length X)%nat ->
  annihilates (swap_rows i r X) v <-> annihilates X v.
Proof.
  intros Hi Hr. rewrite !annihilates_lookup. unfold swap_rows.
  rewrite !length_insert.
  assert (Hrow : forall k, (<[r:=X !!! i]> (<[i:=X !!! r]> X)) !!! k
            = X !!! (if decide (k = r) then i else if decide (k = i) then r else k)).
  { intros k. destruct (decide (k = r)) as [->|Hkr].
    - rewrite list_lookup_total_insert_eq by (by rewrite length_insert). done.
    - rewrite list_lookup_total_insert_ne by done.
      destruct (decide (k = i)) as [->|Hki].
      + by rewrite list_lookup_total_insert_eq.
      + by rewrite list_lookup_total_insert_ne. }
  split; intros Hall k Hk.
  - pose proof (Hall r Hr) as Hr'. rewrite Hrow, decide_True in Hr' by done.
    pose proof (Hall i Hi) as Hi'. rewrite Hrow in Hi'.
    pose proof (Hall k Hk) as Hk'. rewrite Hrow in Hk'.
    destruct (decide (k = r)) as [->|Hkr].
    + destruct (decide (i = r)) as [->|Hir]; [done|]. by rewrite decide_True in Hi'.
    + destruct (decide (k = i)) as [->|Hki]; done.
  - rewrite Hrow. apply Hall. repeat case_decide; lia.
Qed.

Lemma divide_row_kernel r c X v :
  rectangular num_c X -> (r < length X)%nat -> entry X r c <> 0%Qc ->
  (forall j, (j < c)%nat -> entry X r j = 0%Qc) ->
  annihilates (divide_row r c X) v <-> annihilates X v.
Proof.
  intros Hrect Hr Hp Hz. rewrite !annihilates_lookup. unfold divide_row.
  rewrite length_insert.
  rewrite changed_from_zero_prefix;
    [|unfold Qcdiv; ring|by eapply zero_prefix].
  assert (Hscale : forall x : Qc, (x / entry X r c = 0 <-> x = 0)%Qc).
  { intros x. split; [|intros ->; unfold Qcdiv; ring].
    intros Hx. unfold Qcdiv in Hx. apply Qcmult_integral in Hx as [Hx|Hx]; [done|].
    exfalso. pose proof (Qcmult_inv_r _ Hp) as H1. rewrite Hx, Qcmult_0_r in H1.
    discriminate H1. }
  split; intros Hall k Hk; specialize (Hall k Hk);
    destruct (decide (k = r)) as [->|Hkr].
  - rewrite list_lookup_total_insert_eq, dot_scale in Hall by done. by apply Hscale.
  - by rewrite list_lookup_total_insert_ne in Hall.
  - rewrite list_lookup_total_insert_eq, dot_scale by done. by apply Hscale.
  - by rewrite list_lookup_total_insert_ne.
Qed.

Lemma subtract_row_kernel r c X i v :
  rectangular num_c X -> (i < length X)%nat -> (r < length X)%nat -> i <> r ->
  (forall j, (j < c)%nat -> entry X r j = 0%Qc) ->
  (annihilates (subtract_row r c X i) v <-> annihilates X v) /\
  (subtract_row r c X i) !!! r = X !!! r.
Proof.
  intros Hrect Hi Hr Hne Hz. unfold subtract_row. split.
  - rewrite !annihilates_lookup, length_insert.
    rewrite combined_from_zero_prefix;
      [|intros; ring|by rewrite !(rectangular_lookup_total num_c)|by eapply zero_prefix].
    assert (Hdot : dot (zip_with (fun x y => x - entry X i c * y)%Qc (X !!! i) (X !!! r)) v
                   = (dot (X !!! i) v - entry X i c * dot (X !!! r) v)%Qc).
    { apply dot_combination. by rewrite !(rectangular_lookup_total num_c). }
    split; intros Hall k Hk.
    + destruct (decide (k = i)) as [->|Hki].
      * pose proof (Hall i Hi) as Hi'. pose proof (Hall r Hr) as Hr'.
        rewrite list_lookup_total_insert_eq, Hdot in Hi' by done.
        rewrite list_lookup_total_insert_ne in Hr' by done.
        rewrite Hr' in Hi'. rewrite <- Hi'. ring.
      * specialize (Hall k Hk). by rewrite list_lookup_total_insert_ne in Hall.
    + destruct (decide (k = i)) as [->|Hki].
      * rewrite list_lookup_total_insert_eq, Hdot by done.
        rewrite (Hall i Hi), (Hall r Hr). ring.
      * rewrite list_lookup_total_insert_ne by done. by apply Hall.
  - by rewrite list_lookup_total_insert_ne.
Qed.

Lemma subtract_rows_kernel r c rows v : forall X,
  rectangular num_c X -> (r < length X)%nat ->
  Forall (fun i => i < length X)%nat rows -> r ∉ rows ->
  (forall j, (j < c)%nat -> entry X r j = 0%Qc) ->
  annihilates (foldl (subtract_row r c) X rows) v <-> annihilates X v.
Proof.
  induction rows as [|i rows IH]; intros X Hrect Hr Hrows Hnot Hz; cbn [foldl]; [done|].
  apply Forall_cons in Hrows as [Hi Hrows].
  apply not_elem_of_cons in Hnot as [Hri Hnot].
  destruct (subtract_row_shape num_c r c X i) as [Hrect' Hlen']; try done.
  destruct (subtract_row_kernel r c X i v) as [Hker Hrow]; try done.
  rewrite IH; try done.
  - by rewrite Hlen'.
  - by rewrite Hlen'.
  - intros j Hj. unfold entry. rewrite Hrow. by apply Hz.
Qed.

Lemma forward_step_kernel ps r c i X v :
  forward_inv num_c ps r c X -> (r <= i < length X)%nat -> entry X i c <> 0%Qc ->
  annihilates (forward_step (length X) r c i X) v <-> annihilates X v.
Proof.
  intros [Hrect Hrank Hrows Hsorted Hleft Hpivot Hbelow] Hi Hne.
  unfold forward_step.
  set (X1 := if bool_decide (i ≠ r) then swap_rows i r X else X).
  assert (H1 : rectangular num_c X1 /\ length X1 = length X).
  { unfold X1. case_bool_decide; [|done]. apply swap_rows_shape; [done|lia|lia]. }
  destruct H1 as [Hrect1 Hlen1].
  assert (Hk1 : annihilates X1 v <-> annihilates X v).
  { unfold X1. case_bool_decide; [|done]. apply swap_rows_kernel; lia. }
  assert (Hrow1 : forall j, entry X1 r j = entry X i j).
  { intros j. unfold X1. case_bool_decide as Hir.
    - rewrite entry_swap_rows by lia. by rewrite decide_True.
    - by destruct (decide (i = r)) as [->|]. }
  destruct (divide_row_shape num_c r c X1) as [Hrect2 Hlen2]; [done|lia|].
  assert (Hz1 : forall j, (j < c)%nat -> entry X1 r j = 0%Qc).
  { intros j Hj. rewrite Hrow1. apply Hbelow; lia. }
  rewrite <- Hk1, <- (divide_row_kernel r c X1 v); try done; [|lia|by rewrite Hrow1].
  apply subtract_rows_kernel; try done.
  - lia.
  - apply Forall_seq. intros. lia.
  - rewrite elem_of_seq. lia.
  - intros j Hj. rewrite entry_divide_row by lia.
    rewrite decide_False by lia. by apply Hz1.
Qed.

Lemma forward_kernel todo v : forall num_r ps r c X R,
  forward_inv num_c ps r c X -> (c + todo = num_c)%nat -> length X = num_r ->
  forward num_r todo r c X = Return R ->
  pivots_found num_r todo r c X = true ->
  annihilates R v <-> annihilates X v.
Proof.
  induction todo as [|todo IH]; intros num_r ps r c X R Hinv Hc Hlen Hf Hpf; subst num_r.
  - simpl in Hf. by inversion Hf.
  - simpl in Hf, Hpf. case_bool_decide as Hr; [|by inversion Hf].
    apply bind_Return in Hf as (i & Hi & Hf). rewrite Hi in Hpf.
    pose proof (pivot_index_range r c X i Hr Hi) as Hrange.
    destruct (nonzero (entry X i c)) eqn:Hnz.
    + apply nonzero_spec in Hnz.
      pose proof (forward_step_inv num_c ps r c i X Hinv Hrange Hnz ltac:(lia)) as Hinv'.
      destruct (forward_step_shape num_c r c i X) as [_ Hlen']; [apply Hinv|done|].
      rewrite (IH (length X) _ _ _ _ _ Hinv' ltac:(lia) Hlen' Hf Hpf).
      by eapply forward_step_kernel.
    + apply andb_true_iff in Hpf as [Hcol Hpf].
      eapply (IH (length X) ps r (S c)); [|lia|done|done|done].
      destruct Hinv as [Hrect Hrank Hrows Hsorted Hleft Hpivot Hbelow].
      split; try done.
      * eapply Forall_impl; [done|]. simpl. intros; lia.
      * intros k j Hk Hj. destruct (decide (j < c)%nat); [by apply Hbelow|].
        assert (j = c) as -> by lia.
        destruct (decide (k < length X)%nat); [|apply entry_outside; lia].
        eapply forallb_column_zero; [done|lia].
Qed.

Lemma back_row_kernel X r v :
  rectangular num_c X -> (r < length X)%nat ->
  annihilates (back_row X r) v <-> annihilates X v.
Proof.
  intros Hrect Hr. unfold back_row.
  destruct (first_nonzero (X !!! r)) as [c|] eqn:Hf; [|done].
  apply first_nonzero_Some in Hf as [_ Hbefore].
  apply subtract_rows_kernel; try done.
  - apply Forall_forall. intros i Hi%elem_of_reverse%elem_of_seq. lia.
  - intros Hi%elem_of_reverse%elem_of_seq. lia.
  - intros j Hj. destruct (decide (j < length (X !!! r))%nat) as [Hlt|Hge].
    + destruct (lookup_lt_is_Some_2 _ _ Hlt) as [y Hy].
      unfold entry. rewrite (list_lookup_total_correct _ _ _ Hy). by eapply Hbefore.
    + unfold entry. rewrite (list_lookup_total_alt (X !!! r)), lookup_ge_None_2; [done|lia].
Qed.

Lemma backward_kernel n v : forall X,
  rectangular num_c X -> (n <= length X)%nat ->
  annihilates (backward n X) v <-> annihilates X v.
Proof.
  unfold backward. induction n as [|n IH]; intros X Hrect Hn; [done|].
  rewrite seq_S, reverse_app. simpl.
  destruct (back_row_shape num_c X n) as [Hrect' Hlen']; [done|lia|].
  rewrite IH by (try done; lia). apply back_row_kernel; [done|lia].
Qed.

End kernel_of_row_operations.

(** X12. When the pivot search finds every pivot, [eliminate] keeps the
    solutions of the homogeneous system: a vector [v] satisfies R . v = 0 for
    the result R exactly when X . v = 0 for the input X. (Every step is a row
    operation on whole rows.) *)
Theorem eliminate_keeps_solutions (num_c : nat) (X R : list (list Qc)) :
  rectangular num_c X ->
  eliminate (Array2 num_c X) = Return (Array2 num_c R) ->
  pivots_found (length X) num_c 0 0 X = true ->
  forall v, annihilates R v <-> annihilates X v.
Proof.
  intros Hrect He Hpf v. simpl in He.
  apply bind_Return in He as (rows & Hrows & He). inversion He; subst rows; clear He.
  unfold eliminate_rows in Hrows.
  apply bind_Return in Hrows as (X' & Hf & Hrows). inversion Hrows; subst R; clear Hrows.
  pose proof (forward_shape num_c num_c 0 0 X Hrect) as Hsh. rewrite Hf in Hsh.
  destruct Hsh as [Hlen' Hrect'].
  rewrite backward_kernel by (try done; lia).
  eapply (forward_kernel num_c num_c v (length X) [] 0 0); try done.
  by apply forward_inv_start.
Qed.

(** ** Products *)

Lemma dot_nil_l V : dot [] V = 0%Qc.
Proof. done. Qed.

Lemma dot_comm U V : dot U V = dot V U.
Proof.
  revert V. induction U as [|u U IH]; intros [|v V]; rewrite ?dot_cons, ?dot_nil_r; try done.
  rewrite IH. ring.
Qed.

Lemma dot_zeros {A} (l : list A) w : dot ((fun _ => 0%Qc) <$> l) w = 0%Qc.
Proof.
  revert w. induction l as [|x l IH]; intros [|y w]; rewrite ?fmap_cons, ?dot_cons; try done.
  rewrite IH. ring.
Qed.

Lemma dot_linear {A} (u : Qc) (f g : A -> Qc) (l : list A) w :
  dot ((fun c => u * f c + g c)%Qc <$> l) w
  = (u * dot (f <$> l) w + dot (g <$> l) w)%Qc.
Proof.
  revert w. induction l as [|x l IH]; intros [|y w]; rewrite ?fmap_cons, ?dot_cons;
    try (unfold dot; simpl; ring).
  rewrite IH. ring.
Qed.

Lemma list_as_lookups (V : list Qc) : (fun c => V !!! c) <$> seq 0 (length V) = V.
Proof.
  apply list_eq. intros i. rewrite list_lookup_fmap.
  destruct (decide (i < length V)%nat) as [Hi|Hi].
  - rewrite lookup_seq_lt by done. simpl.
    symmetry. by apply list_lookup_lookup_total_lt.
  - rewrite lookup_seq_ge by lia. simpl. symmetry. apply lookup_ge_None. lia.
Qed.

Lemma column_cons c (V : list Qc) B : column c (V :: B) = V !!! c :: column c B.
Proof. done. Qed.

(** A row times a matrix, the result times a vector: the row times the
    products of the rows of the matrix with the vector. *)
Lemma dot_row_times p (B : list (list Qc)) w : forall U,
  rectangular p B ->
  dot U ((fun V => dot V w) <$> B) = dot (row_times p B U) w.
Proof.
  unfold row_times. induction B as [|V B IH]; intros U Hrect.
  - rewrite dot_nil_r. symmetry.
    rewrite <- (dot_zeros (seq 0 p) w). f_equal. apply list_fmap_ext.
    intros i c _. apply dot_nil_r.
  - apply Forall_cons in Hrect as [HV Hrect].
    destruct U as [|u U].
    + rewrite dot_nil_l. symmetry. apply (dot_zeros (seq 0 p) w).
    + rewrite fmap_cons, dot_cons, IH by done.
      transitivity (dot ((fun c => u * V !!! c + dot U (column c B))%Qc <$> seq 0 p) w).
      * rewrite dot_linear. rewrite <- HV at 2. by rewrite list_as_lookups.
      * f_equal. apply list_fmap_ext. intros i c _. by rewrite column_cons, dot_cons.
Qed.

Lemma column_row_times q (C B : list (list Qc)) c :
  (c < q)%nat -> column c (row_times q C <$> B) = (fun V => dot V (column c C)) <$> B.
Proof.
  intros Hc. unfold column. rewrite <- list_fmap_compose. apply list_fmap_ext.
  intros i V _. simpl. unfold row_times.
  rewrite list_lookup_total_alt, list_lookup_fmap, lookup_seq_lt by done. done.
Qed.

Lemma row_times_assoc p q (B C : list (list Qc)) U :
  rectangular p B -> length C = p ->
  row_times q (row_times q C <$> B) U = row_times q C (row_times p B U).
Proof.
  intros Hrect HC. unfold row_times at 1 3. apply list_eq. intros c.
  rewrite !list_lookup_fmap.
  destruct (decide (c < q)%nat) as [Hc|Hc].
  - rewrite lookup_seq_lt by done. simpl. f_equal.
    rewrite column_row_times by done. by apply dot_row_times.
  - by rewrite lookup_seq_ge by lia.
Qed.

Lemma matmul2_rows m (A : list (list Qc)) p (B : list (list Qc)) :
  A <> [] -> m = length B ->
  matmul2 (Array2 m A) (Array2 p B) = Return (Array2 p (row_times p B <$> A)).
Proof.
  intros HA Hm. unfold matmul2. rewrite bool_decide_false by (by intros ?).
  fold (row_times p B). destruct A as [|U A]; [done|].
  rewrite fmap_cons. cbn [np_array]. unfold row_times at 1.
  by rewrite length_fmap, length_seq.
Qed.

(** X9. [matmul] of three matrices, which the code nests to the right as
    A . (B . C), returns the same matrix as (A . B) . C, for matrices of
    matching dimensions and at least one row each. *)
Theorem matmul_associative (m p q : nat) (A B C : list (list Qc)) :
  A <> [] -> B <> [] -> length B = m -> length C = p -> rectangular p B ->
  exists R,
    matmul [Array2 m A; Array2 p B; Array2 q C] = Return R /\
    (let* AB := matmul [Array2 m A; Array2 p B] in matmul [AB; Array2 q C]) = Return R /\
    shape R = [length A; q].
Proof.
  intros HA HB Hm Hp Hrect.
  exists (Array2 q (row_times q C <$> (row_times p B <$> A))).
  assert (Hne : forall {X Y} (f : X -> Y) (l : list X), l <> [] -> f <$> l <> []).
  { intros X Y f [|x l]; done. }
  cbn [matmul]. split_and!.
  - rewrite (matmul2_rows p B q C) by done. cbn [bind].
    rewrite matmul2_rows by (try done; by rewrite length_fmap).
    f_equal. f_equal. rewrite <- list_fmap_compose. apply list_fmap_ext.
    intros i U _. simpl. by apply row_times_assoc.
  - rewrite (matmul2_rows m A p B) by done. cbn [bind].
    rewrite matmul2_rows; [done|by apply Hne|done].
  - simpl. by rewrite !length_fmap.
Qed.

Lemma dot_indicator (c : nat) (U : list Qc) : forall a,
  dot U ((fun i => if decide (i = c) then 1%Qc else 0%Qc) <$> seq a (length U))
  = if decide (a <= c < a + length U)%nat then U !!! (c - a)%nat else 0%Qc.
Proof.
  induction U as [|u U IH]; intros a; simpl.
  - rewrite decide_False by lia. done.
  - rewrite dot_cons, IH. destruct (decide (a = c)) as [->|Hac].
    + rewrite decide_False, decide_True by lia. rewrite Nat.sub_diag. simpl. ring.
    + destruct (decide (S a <= c < S a + length U)%nat).
      * rewrite decide_True by lia.
        replace (c - a)%nat with (S (c - S a)) by lia. simpl. ring.
      * rewrite decide_False by lia. ring.
Qed.

Lemma column_eye n c :
  (c < n)%nat ->
  column c (eye n) = (fun i => if decide (i = c) then 1%Qc else 0%Qc) <$> seq 0 n.
Proof.
  intros Hc. unfold column, eye. rewrite <- list_fmap_compose. apply list_fmap_ext.
  intros k i _. simpl.
  rewrite list_lookup_total_alt, list_lookup_fmap, lookup_seq_lt by done. done.
Qed.

Lemma row_times_eye n (U : list Qc) : length U = n -> row_times n (eye n) U = U.
Proof.
  intros HU. unfold row_times. etransitivity; [|apply list_as_lookups]. rewrite HU.
  apply Forall_fmap_ext_1, Forall_forall. intros c Hc%elem_of_seq.
  rewrite column_eye by lia. rewrite <- HU at 1. rewrite dot_indicator.
  rewrite decide_True by lia. f_equal. lia.
Qed.

Lemma eye_row_times n p (B : list (list Qc)) :
  length B = n -> rectangular p B -> row_times p B <$> eye n = B.
Proof.
  intros HB Hrect. apply list_eq. intros i. unfold eye.
  rewrite <- list_fmap_compose, list_lookup_fmap.
  destruct (decide (i < n)%nat) as [Hi|Hi].
  - rewrite lookup_seq_lt by done. simpl.
    destruct (lookup_lt_is_Some_2 B i) as [V HV]; [lia|]. rewrite HV. f_equal.
    unfold row_times.
    assert (HVlen : length V = p).
    { unfold rectangular in Hrect. rewrite Forall_lookup in Hrect. by eapply Hrect. }
    etransitivity; [|apply list_as_lookups]. rewrite HVlen.
    apply Forall_fmap_ext_1, Forall_forall. intros c Hc%elem_of_seq.
    rewrite dot_comm.
    assert (Hcol : length (column c B) = n) by (by rewrite column_length).
    rewrite <- Hcol at 1.
    replace ((fun j => if decide (i = j) then 1%Qc else 0%Qc) <$> seq 0 (length (column c B)))
      with ((fun j => if decide (j = i) then 1%Qc else 0%Qc) <$> seq 0 (length (column c B))).
    2:{ apply list_fmap_ext. intros ? j _. simpl. repeat case_decide; done || lia. }
    rewrite dot_indicator, decide_True by lia. rewrite Nat.sub_0_r.
    unfold column. rewrite list_lookup_total_alt, list_lookup_fmap, HV. done.
  - rewrite lookup_seq_ge by lia. simpl. symmetry. apply lookup_ge_None. lia.
Qed.

(** X8. The identity matrix is neutral for [matmul] on both sides, for
    matrices of at least one row. *)
Theorem matmul_identity (n p : nat) (A B : list (list Qc)) :
  A <> [] -> rectangular n A -> B <> [] -> length B = n -> rectangular p B ->
  matmul [Array2 n A; Array2 n (eye n)] = Return (Array2 n A) /\
  matmul [Array2 n (eye n); Array2 p B] = Return (Array2 p B).
Proof.
  intros HA HrectA HB HlenB HrectB. cbn [matmul].
  destruct (eye_shape n) as [Heye _]. split.
  - rewrite matmul2_rows by done. do 2 f_equal.
    apply fmap_id_on. eapply Forall_impl; [exact HrectA|].
    simpl. intros U HU. by apply row_times_eye.
  - rewrite matmul2_rows; [|destruct B; [done|]; simpl in HlenB; subst n; done|done].
    by rewrite (eye_row_times n p B).
Qed.

(** ** config.py and the call of neurips_main.py *)

Lemma selected_inputs_configured keep_columns g :
  g ∈ selected_inputs keep_columns -> g ∈ config.REGION_LIST.
Proof.
  unfold selected_inputs, compress.
  intros ([s g'] & -> & Hin)%list_elem_of_fmap.
  apply list_elem_of_fmap in Hin as ([[s' g''] b] & Heq & Hin). simpl in Heq.
  inversion Heq; subst s' g''; clear Heq.
  apply list_elem_of_filter in Hin as [_ Hin].
  apply list_elem_of_lookup in Hin as (i & Hi).
  apply lookup_zip_with_Some in Hi as (x & y & Heq & Hx & _). inversion Heq; subst x y.
  apply list_elem_of_lookup_2, list_elem_of_In, in_prod_iff in Hx as [_ Hg].
  by apply list_elem_of_In.
Qed.

Lemma selected_inputs_none keep_columns :
  Forall (fun b => b = false) keep_columns -> selected_inputs keep_columns = [].
Proof.
  intros Hall. unfold selected_inputs, compress.
  rewrite filter_none; [done|].
  apply Forall_lookup. intros i [x b] Hi Hb. simpl in Hb. subst b.
  apply lookup_zip_with_Some in Hi as (x' & b' & Heq & _ & Hb). inversion Heq; subst.
  rewrite Forall_lookup in Hall. by specialize (Hall _ _ Hb).
Qed.

Lemma configured_weight_matrix :
  exists W0, UsFusion.get_weight_matrix (UsFusion.all_locations excluded_in_order) None
               (UsFusion.atoms excluded_in_order) = Return W0.
Proof.
  destruct (UsFusion.get_weight_matrix _ _ _) as [W0|e] eqn:HW; [by eexists|].
  vm_compute in HW. discriminate HW.
Qed.

Lemma configured_regions_known :
  Forall (fun g => g ∈ Locations.region_list) config.REGION_LIST.
Proof. apply (bool_decide_unpack _). vm_compute. exact I. Qed.

Lemma configured_atoms :
  UsFusion.atoms excluded_in_order = ["nc"; "pa"; "sc"; "va"; "wv"] /\
  UsFusion.all_locations excluded_in_order
    = ["nat"; "hhs3"; "hhs4"; "nc"; "pa"; "sc"; "va"; "wv"].
Proof. split; vm_compute; reflexivity. Qed.

Lemma configured_atoms_listed :
  Forall (fun a => a ∈ config.ATOM_LIST) ["nc"; "pa"; "sc"; "va"; "wv"].
Proof. apply (bool_decide_unpack _). vm_compute. exact I. Qed.

(** The call of [get_training_data] on inputs taken from [REGION_LIST]. *)
Lemma configured_call (inputs exclude_locations : list string) :
  config.EXCLUDE_LOC exclude_locations ->
  Forall (fun g => g ∈ config.REGION_LIST) inputs ->
  list_to_set exclude_locations ∩ list_to_set inputs =@{gset string} ∅ /\
  UsFusion.atoms exclude_locations = ["nc"; "pa"; "sc"; "va"; "wv"] /\
  UsFusion.all_locations exclude_locations
    = ["nat"; "hhs3"; "hhs4"; "nc"; "pa"; "sc"; "va"; "wv"] /\
  (Forall (fun a => a ∈ inputs) config.ATOM_LIST ->
     exists H W,
       UsFusion.determine_statespace_wrapped inputs None exclude_locations
         = Return (H, W, ["nat"; "hhs3"; "hhs4"; "nc"; "pa"; "sc"; "va"; "wv"]) /\
       shape H = [length inputs; 5%nat] /\ shape W = [8%nat; 5%nat]) /\
  (inputs = [] ->
     UsFusion.determine_statespace_wrapped inputs None exclude_locations = Raise ValueError).
Proof.
  intros [_ Hex] Hinputs. rewrite Forall_forall in Hinputs.
  destruct configured_atoms as [Hatoms0 Hall0].
  assert (Hsame : forall a, a ∈ exclude_locations <-> a ∈ excluded_in_order).
  { intros a. unfold excluded_in_order. rewrite Hex, list_elem_of_filter. tauto. }
  assert (Hcall : UsFusion.determine_statespace_wrapped inputs None exclude_locations
                  = UsFusion.determine_statespace_wrapped inputs None excluded_in_order).
  { apply determine_statespace_wrapped_ext. exact Hsame. }
  assert (Hfilter : forall l : list string,
            filter (atom_filter exclude_locations) l = filter (atom_filter excluded_in_order) l).
  { intros l. apply list_filter_iff. intros a. unfold atom_filter. by rewrite Hsame. }
  assert (Hatoms : UsFusion.atoms exclude_locations = ["nc"; "pa"; "sc"; "va"; "wv"]).
  { rewrite <- Hatoms0. unfold UsFusion.atoms, atoms. apply Hfilter. }
  assert (Hall : UsFusion.all_locations exclude_locations
                 = ["nat"; "hhs3"; "hhs4"; "nc"; "pa"; "sc"; "va"; "wv"]).
  { rewrite <- Hall0. unfold UsFusion.all_locations, all_locations. apply Hfilter. }
  assert (Hdisj : forall ex, (forall a, a ∈ ex <-> a ∈ excluded_in_order) ->
            list_to_set ex ∩ list_to_set inputs =@{gset string} ∅).
  { intros ex Hiff. apply set_eq. intros g.
    rewrite elem_of_intersection, !elem_of_list_to_set, Hiff.
    split; [|intros Hg; exfalso; revert Hg; apply not_elem_of_empty].
    intros [[Hout _]%list_elem_of_filter Hin%Hinputs]. destruct (Hout Hin). }
  destruct configured_weight_matrix as (W0 & HW0).
  split; [apply Hdisj, Hsame|]. split; [exact Hatoms|]. split; [exact Hall|]. split.
  - intros Hcover. rewrite Forall_forall in Hcover.
    assert (Hfast : list_to_set (UsFusion.atoms excluded_in_order)
                      ⊆@{gset string} list_to_set inputs).
    { rewrite Hatoms0. intros a Ha%elem_of_list_to_set.
      apply elem_of_list_to_set, Hcover.
      pose proof configured_atoms_listed as Hl. rewrite Forall_forall in Hl. by apply Hl. }
    assert (Hknown : Forall (fun g => g ∈ Locations.region_list) inputs).
    { apply Forall_forall. intros g Hg%Hinputs.
      pose proof configured_regions_known as Hk. rewrite Forall_forall in Hk. by apply Hk. }
    destruct (us_fast_path inputs None excluded_in_order W0
                (Hdisj _ (fun a => iff_refl _)) Hfast Hknown HW0) as (H & W & Hret).
    exists H, W. rewrite Hcall, Hret, Hall0. split; [reflexivity|].
    assert (Hne : inputs <> []).
    { intros Hnil. specialize (Hcover "pa"). rewrite Hnil in Hcover.
      apply (elem_of_nil "pa"), Hcover. unfold config.ATOM_LIST. by left. }
    apply determine_statespace_wrapped_inv in Hret
      as (_ & H0 & W0' & H' & W' & HH0 & HW0' & HH & HW & Hpath).
    destruct Hpath as [(_ & -> & -> & _)|(Hnot & _)]; [|destruct (Hnot Hfast)].
    apply astype_float_shape in HH. apply astype_float_shape in HW.
    apply get_weight_matrix_Return in HH0. apply get_weight_matrix_Return in HW0'.
    fold (UsFusion.atoms excluded_in_order) in HH0, HW0'.
    fold (UsFusion.all_locations excluded_in_order) in HW0'.
    rewrite Hatoms0 in HH0, HW0'. rewrite Hall0 in HW0'.
    clear Hcall Hdisj Hfast Hknown Hcover Hinputs.
    destruct inputs as [|g0 inputs']; [destruct (Hne eq_refl)|].
    destruct HH0 as (rowsH & -> & HlenH & _). destruct HW0' as (rowsW & -> & HlenW & _).
    rewrite HH, HW. unfold shape. rewrite HlenH, HlenW. split; reflexivity.
  - intros ->. rewrite Hcall.
    unfold UsFusion.determine_statespace_wrapped.
    rewrite determine_statespace_wrapped_nil.
    + fold (UsFusion.atoms excluded_in_order). fold (UsFusion.all_locations excluded_in_order).
      fold UsFusion.get_weight_matrix. rewrite HW0. reflexivity.
    + fold (UsFusion.atoms excluded_in_order). rewrite Hatoms0. discriminate.
Qed.

(** X23. The call of neurips_main.py under config.py. In whatever order the
    set difference EXCLUDE_LOC comes out, and whichever columns are kept: no
    input is excluded; the atoms left are the five of ATOM_LIST and the
    candidates the eight of REGION_LIST, both in the order of locations.py;
    when every atom of ATOM_LIST is among the inputs the call returns the
    eight candidates as outputs, W being 8 x 5; and when no column is kept the
    call raises [ValueError]. *)
Theorem configured_statespace (keep_columns : list bool) (exclude_locations : list string) :
  config.EXCLUDE_LOC exclude_locations ->
  list_to_set exclude_locations ∩ list_to_set (selected_inputs keep_columns)
    =@{gset string} ∅ /\
  UsFusion.atoms exclude_locations = ["nc"; "pa"; "sc"; "va"; "wv"] /\
  UsFusion.all_locations exclude_locations
    = ["nat"; "hhs3"; "hhs4"; "nc"; "pa"; "sc"; "va"; "wv"] /\
  (Forall (fun a => a ∈ selected_inputs keep_columns) config.ATOM_LIST ->
     exists H W,
       UsFusion.determine_statespace_wrapped (selected_inputs keep_columns) None
         exclude_locations
         = Return (H, W, ["nat"; "hhs3"; "hhs4"; "nc"; "pa"; "sc"; "va"; "wv"]) /\
       shape H = [length (selected_inputs keep_columns); 5%nat] /\
       shape W = [8%nat; 5%nat]) /\
  (Forall (fun b => b = false) keep_columns ->
     UsFusion.determine_statespace_wrapped (selected_inputs keep_columns) None
       exclude_locations = Raise ValueError).
Proof.
  intros Hex.
  destruct (configured_call (selected_inputs keep_columns) exclude_locations Hex)
    as (H1 & H2 & H3 & H4 & H5).
  { apply Forall_forall. intros g. apply selected_inputs_configured. }
  split; [exact H1|]. split; [exact H2|]. split; [exact H3|]. split; [exact H4|].
  intros Hnone. apply H5, selected_inputs_none, Hnone.
Qed.

(** ** Instances *)

Lemma hhs1_row_eq :
  UsFusion.get_weight_row "hhs1" None ["ct"; "ma"; "jfk"] = Return hhs1_row.
Proof.
  unfold hhs1_row. destruct (UsFusion.get_weight_row _ _ _) as [row|e] eqn:Hr; [reflexivity|].
  apply (f_equal row_values) in Hr. vm_compute in Hr. discriminate Hr.
Qed.

Lemma pa_row_eq :
  UsFusion.get_weight_row "pa" (Some 2012) ["ct"; "pa"; "va"] = Return pa_row.
Proof.
  unfold pa_row. destruct (UsFusion.get_weight_row _ _ _) as [row|e] eqn:Hr; [reflexivity|].
  apply (f_equal row_values) in Hr. vm_compute in Hr. discriminate Hr.
Qed.

Lemma sample_weights_eq :
  UsFusion.get_weight_matrix ["hhs1"; "nat"] None ["ct"; "ma"; "jfk"] = Return sample_weights.
Proof.
  unfold sample_weights.
  destruct (UsFusion.get_weight_matrix _ _ _) as [M|e] eqn:Hr; [reflexivity|].
  apply (f_equal result_value) in Hr. vm_compute in Hr. discriminate Hr.
Qed.

Lemma singular_eliminate :
  eliminate (Array2 2 singular_matrix) = Return (Array2 2 singular_eliminated).
Proof.
  unfold singular_eliminated, eliminate.
  destruct (eliminate_rows 2 singular_matrix) as [R|e] eqn:He; [reflexivity|].
  apply (f_equal result_value) in He. vm_compute in He. discriminate He.
Qed.

Lemma singular_rectangular : rectangular 2 singular_matrix.
Proof. repeat constructor. Qed.

Lemma reduced_matrix_rref : rref 3 [0; 2]%nat reduced_matrix.
Proof.
  split; [split|].
  - repeat constructor.
  - simpl. lia.
  - repeat constructor; lia.
  - repeat constructor; lia.
  - intros [|[|k]] p Hk; simpl in Hk; inversion Hk; subst p; (split; [reflexivity|]).
    + intros j Hj. lia.
    + intros [|[|j]] Hj; [reflexivity|reflexivity|lia].
  - intros i j Hi. simpl in Hi.
    destruct (decide (i < 3)%nat).
    + assert (i = 2%nat) as -> by lia.
      destruct j as [|[|[|j]]]; try reflexivity.
    + apply entry_outside. simpl. lia.
  - intros [|[|k]] p i Hk _ Hi; simpl in Hk; inversion Hk; subst p; [lia|].
    assert (i = 0%nat) as -> by lia. reflexivity.
Qed.

Lemma hhs_statespace_eq :
  UsFusion.determine_statespace_wrapped hhs_inputs None ["vi"]
  = Return (hhs_statespace.1.1, hhs_statespace.1.2, hhs_statespace.2).
Proof.
  unfold hhs_statespace.
  destruct (UsFusion.determine_statespace_wrapped _ _ _) as [[[H W] outs]|e] eqn:Hr;
    [reflexivity|].
  apply (f_equal statespace_shape) in Hr. vm_compute in Hr. discriminate Hr.
Qed.

Lemma us_W0_eq :
  UsFusion.get_weight_matrix (UsFusion.all_locations []) None (UsFusion.atoms [])
  = Return us_W0.
Proof.
  unfold us_W0.
  destruct (UsFusion.get_weight_matrix _ _ _) as [M|e] eqn:Hr; [reflexivity|].
  apply (f_equal result_value) in Hr. vm_compute in Hr. discriminate Hr.
Qed.

Lemma weight_row_support_witness :
  exists members,
    Locations.region_map !! "hhs1" = Some members /\
    forall i atom, ["ct"; "ma"; "jfk"] !! i = Some atom ->
      exists w, hhs1_row !! i = Some w /\ (0 <= w <= 1)%Qc /\ (w <> 0%Qc <-> atom ∈ members).
Proof.
  apply (weight_row_support Locations.region_map populations.get_population
           "hhs1" None ["ct"; "ma"; "jfk"] hhs1_row).
  - exact hhs1_row_eq.
  - intros atom p _. apply population_of_positive.
Defined.

Lemma weight_row_of_single_member_witness :
  pa_row !! 1%nat = Some 1%Qc /\
  forall j, j <> 1%nat -> (j < length ["ct"; "pa"; "va"])%nat -> pa_row !! j = Some 0%Qc.
Proof.
  apply (weight_row_of_single_member Locations.region_map populations.get_population
           "pa" ["pa"] (Some 2012) ["ct"; "pa"; "va"] pa_row 1 "pa").
  - exact pa_row_eq.
  - vm_compute. reflexivity.
  - reflexivity.
  - intros [|[|[|j]]] other Hj Hne; simpl in Hj; inversion Hj; subst;
      try lia; apply (bool_decide_unpack _); vm_compute; exact I.
Defined.

Lemma get_weight_matrix_rows_witness :
  exists rows,
    sample_weights = Array2 (length ["ct"; "ma"; "jfk"]) rows /\
    length rows = length ["hhs1"; "nat"] /\
    rectangular (length ["ct"; "ma"; "jfk"]) rows /\
    forall i location, ["hhs1"; "nat"] !! i = Some location ->
      exists row, rows !! i = Some row /\
        get_weight_row Locations.region_map populations.get_population location None
          ["ct"; "ma"; "jfk"] = Return row /\
        py_sum row = 1%Qc.
Proof.
  apply (get_weight_matrix_rows Locations.region_map populations.get_population
           ["hhs1"; "nat"] None ["ct"; "ma"; "jfk"] sample_weights).
  exact sample_weights_eq.
Defined.

Lemma eliminate_keeps_shape_witness :
  match eliminate (Array2 2 singular_matrix) with
  | Return R =>
      exists rows, R = Array2 2 rows /\ length rows = length singular_matrix /\
                   rectangular 2 rows
  | Raise e => e = OverflowError
  end.
Proof. apply (eliminate_keeps_shape 2 singular_matrix). exact singular_rectangular. Defined.

Lemma eliminate_fixes_reduced_forms_witness :
  eliminate (Array2 3 reduced_matrix) = Return (Array2 3 reduced_matrix).
Proof.
  apply (eliminate_fixes_reduced_forms 3 [0; 2]%nat reduced_matrix).
  exact reduced_matrix_rref.
Defined.

Lemma eliminate_keeps_solutions_witness :
  annihilates singular_eliminated [Z2Qc 2; Z2Qc (-1)]
  <-> annihilates singular_matrix [Z2Qc 2; Z2Qc (-1)].
Proof.
  apply (eliminate_keeps_solutions 2 singular_matrix singular_eliminated).
  - exact singular_rectangular.
  - exact singular_eliminate.
  - vm_compute. reflexivity.
Defined.

Lemma rank_counts_leading_rows_witness :
  (count_nonzero_rows singular_eliminated <= length singular_matrix)%nat /\
  (count_nonzero_rows singular_eliminated <= 2)%nat /\
  forall i row, singular_eliminated !! i = Some row ->
    ((i < count_nonzero_rows singular_eliminated)%nat <-> Exists (fun x => x <> 0%Qc) row).
Proof.
  apply (rank_counts_leading_rows 2 singular_matrix singular_eliminated).
  - exact singular_rectangular.
  - exact singular_eliminate.
  - vm_compute. reflexivity.
Defined.

Lemma missed_pivot_underflows_witness :
  2 ^ 1075 * Z.abs (Qnum (this (entry [[0%Qc]; [tiny]] 1 0)))
  <= Z.pos (Qden (this (entry [[0%Qc]; [tiny]] 1 0))).
Proof.
  apply (missed_pivot_underflows 0 0 [[0%Qc]; [tiny]] 0 1).
  - simpl. lia.
  - vm_compute. reflexivity.
  - reflexivity.
  - simpl. lia.
  - intros Hz. apply (f_equal this) in Hz. vm_compute in Hz. discriminate Hz.
Defined.

Lemma matmul_identity_witness :
  matmul [Array2 3 sample_matrix; Array2 3 (eye 3)] = Return (Array2 3 sample_matrix) /\
  matmul [Array2 3 (eye 3); Array2 2 [[Z2Qc 1; Z2Qc 2]; [Z2Qc 3; Z2Qc 4]; [Z2Qc 5; Z2Qc 6]]]
    = Return (Array2 2 [[Z2Qc 1; Z2Qc 2]; [Z2Qc 3; Z2Qc 4]; [Z2Qc 5; Z2Qc 6]]).
Proof.
  apply (matmul_identity 3 2 sample_matrix
           [[Z2Qc 1; Z2Qc 2]; [Z2Qc 3; Z2Qc 4]; [Z2Qc 5; Z2Qc 6]]).
  - discriminate.
  - exact sample_rectangular.
  - discriminate.
  - reflexivity.
  - repeat constructor.
Defined.

Lemma matmul_associative_witness :
  exists R,
    matmul [Array2 2 singular_matrix; Array2 2 singular_matrix; Array2 3 [[Z2Qc 1; Z2Qc 0; Z2Qc 2]; [Z2Qc 0; Z2Qc 1; Z2Qc 3]]]
      = Return R /\
    (let* AB := matmul [Array2 2 singular_matrix; Array2 2 singular_matrix] in
     matmul [AB; Array2 3 [[Z2Qc 1; Z2Qc 0; Z2Qc 2]; [Z2Qc 0; Z2Qc 1; Z2Qc 3]]]) = Return R /\
    shape R = [length singular_matrix; 3%nat].
Proof.
  apply (matmul_associative 2 2 3 singular_matrix singular_matrix
           [[Z2Qc 1; Z2Qc 0; Z2Qc 2]; [Z2Qc 0; Z2Qc 1; Z2Qc 3]]).
  - discriminate.
  - discriminate.
  - reflexivity.
  - reflexivity.
  - exact singular_rectangular.
Defined.

Lemma statespace_is_no_larger_witness :
  exists k rows_W0 rows_H rows_W,
    scenario_W0 = Array2 3 rows_W0 /\
    scenario_HW.1.1 = Array2 k rows_H /\ scenario_HW.1.2 = Array2 k rows_W /\
    length rows_H = length [[Fraction 1 2; Fraction 1 2; Fraction 0 1]] /\
    length rows_W = length scenario_HW.2 /\
    rectangular k rows_H /\ rectangular k rows_W /\
    (k <= 3)%nat /\ (k <= length [[Fraction 1 2; Fraction 1 2; Fraction 0 1]])%nat /\
    StronglySorted lt scenario_HW.2 /\
    Forall (fun i => i < length rows_W0)%nat scenario_HW.2.
Proof.
  apply (statespace_is_no_larger 3 [[Fraction 1 2; Fraction 1 2; Fraction 0 1]]
           scenario_W0 scenario_HW.1.1 scenario_HW.1.2 scenario_HW.2).
  - repeat constructor.
  - discriminate.
  - unfold scenario_HW. fold scenario_H0.
    destruct (_determine_statespace scenario_H0 scenario_W0) as [[[H W] rows]|e] eqn:Hd.
    + reflexivity.
    + vm_compute in Hd. discriminate Hd.
Defined.

Lemma outputs_are_candidates_witness :
  hhs_statespace.2 `sublist_of` all_locations Locations.region_list ["vi"] /\
  Forall (fun g => g ∈ Locations.region_list /\ g ∉ ["vi"]) hhs_statespace.2 /\
  Forall (fun g => g ∉ ["vi"]) hhs_inputs.
Proof.
  apply (outputs_are_candidates Locations.region_map Locations.region_list
           Locations.atom_list populations.get_population hhs_inputs None ["vi"]
           hhs_statespace.1.1 hhs_statespace.1.2 hhs_statespace.2).
  exact hhs_statespace_eq.
Defined.

Lemma statespace_shapes_witness :
  exists k,
    shape hhs_statespace.1.1 = [length hhs_inputs; k] /\
    shape hhs_statespace.1.2 = [length hhs_statespace.2; k] /\
    (k <= length (UsFusion.atoms ["vi"]))%nat /\
    (k <= length hhs_inputs)%nat.
Proof.
  apply (statespace_shapes hhs_inputs None ["vi"]
           hhs_statespace.1.1 hhs_statespace.1.2 hhs_statespace.2).
  - exact hhs_statespace_eq.
  - discriminate.
Defined.

Lemma no_inputs_raises_witness :
  UsFusion.determine_statespace_wrapped [] None []
  = let* _ := UsFusion.get_weight_matrix (UsFusion.all_locations []) None (UsFusion.atoms []) in
    Raise ValueError.
Proof.
  apply (no_inputs_raises Locations.region_map Locations.region_list Locations.atom_list
           populations.get_population None []).
  vm_compute. discriminate.
Defined.

Lemma exclude_locations_as_a_set_witness :
  UsFusion.determine_statespace_wrapped ["nat"] None ["pr"; "vi"]
  = UsFusion.determine_statespace_wrapped ["nat"] None ["vi"; "pr"; "vi"].
Proof.
  apply (exclude_locations_as_a_set Locations.region_map Locations.region_list
           Locations.atom_list populations.get_population ["nat"] None
           ["pr"; "vi"] ["vi"; "pr"; "vi"]).
  intros a. rewrite !elem_of_cons, elem_of_nil. tauto.
Defined.

Lemma failed_calls_are_not_cached_witness :
  UsFusion.determine_statespace (UsFusion.cache_after [pa_key 0]) (["usa"], None, [])
    = (Miss, Raise (KeyError "usa"), UsFusion.cache_after [pa_key 0]) /\
  (["usa"], None, []) ∉ (UsFusion.cache_after [pa_key 0]).*1.
Proof.
  apply (failed_calls_are_not_cached [pa_key 0] (["usa"], None, []) (KeyError "usa")).
  vm_compute. reflexivity.
Defined.

Lemma fast_path_returns_witness :
  exists H W,
    UsFusion.determine_statespace_wrapped Locations.atom_list None []
    = Return (H, W, UsFusion.all_locations []).
Proof.
  apply (fast_path_returns Locations.atom_list None [] us_W0).
  - apply (bool_decide_unpack _). vm_compute. exact I.
  - apply (bool_decide_unpack _). vm_compute. exact I.
  - apply (bool_decide_unpack _). vm_compute. exact I.
  - exact us_W0_eq.
Defined.

Lemma excluded_in_order_EXCLUDE_LOC : config.EXCLUDE_LOC excluded_in_order.
Proof.
  split.
  - apply (bool_decide_unpack _). vm_compute. exact I.
  - intros x. unfold excluded_in_order. rewrite list_elem_of_filter. tauto.
Qed.

Lemma configured_statespace_witness :
  list_to_set excluded_in_order ∩ list_to_set (selected_inputs (replicate 16 true))
    =@{gset string} ∅ /\
  UsFusion.atoms excluded_in_order = ["nc"; "pa"; "sc"; "va"; "wv"] /\
  UsFusion.all_locations excluded_in_order
    = ["nat"; "hhs3"; "hhs4"; "nc"; "pa"; "sc"; "va"; "wv"] /\
  (Forall (fun a => a ∈ selected_inputs (replicate 16 true)) config.ATOM_LIST ->
     exists H W,
       UsFusion.determine_statespace_wrapped (selected_inputs (replicate 16 true)) None
         excluded_in_order
         = Return (H, W, ["nat"; "hhs3"; "hhs4"; "nc"; "pa"; "sc"; "va"; "wv"]) /\
       shape H = [length (selected_inputs (replicate 16 true)); 5%nat] /\
       shape W = [8%nat; 5%nat]) /\
  (Forall (fun b => b = false) (replicate 16 true) ->
     UsFusion.determine_statespace_wrapped (selected_inputs (replicate 16 true)) None
       excluded_in_order = Raise ValueError).
Proof.
  apply (configured_statespace (replicate 16 true) excluded_in_order).
  exact excluded_in_order_EXCLUDE_LOC.
Defined.
